(** * Spiral-architecture arithmetic and bispectral invariants

    A shallow embedding of the notebook [Invariants-computation.ipynb]
    (Python 2.7 with numpy) and the properties of its addressing arithmetic,
    lattice geometry and invariant engine.

    Modelling conventions.
    - Python integers are unbounded: they are values of [Z]; [%] and the
      integer [/] of Python 2 are floor operations, that is [Z.modulo] and
      [Z.div].  The integers of numpy are C long, 64 bits wide where the
      notebook runs (Python 2.7 on Linux): an operation on numpy scalars
      wraps around, see [int64].  This is written out in [base7to10], the
      one place where the code multiplies and adds numpy scalars that grow
      with the input; the vectors of [int2intvec] hold decimal digits and
      carries, and the offsets of [sa2hex] stay far below [2^63] for every
      address that [sa2hex_aux] can walk through.
    - A call either returns a value, raises an exception, or does not return
      (a [while] loop that never ends): type [outcome].  A function that
      prints "Invalid spiral address!" and returns Python's [None] returns
      [Ret None] at type [outcome (option _)].
    - The element type of a grid (numpy's dtype) is a parameter, with the
      arithmetic the code uses on it: see [Scalar].  Two instances are
      given, IEEE double precision ([float64]) and exact real numbers.
    - [np.vdot] is a parameter as well, see [Dot]: numpy hands it to the
      BLAS library it is linked with, and the order in which that library
      adds, hence the rounding of the result, is not fixed by the code. *)

From Stdlib Require Import ZArith String Ascii List Bool Lia Permutation.
From Stdlib Require Import PrimFloat Reals RealField Field_theory.
Import ListNotations.
Open Scope Z_scope.

(** ** Outcomes of a Python call *)

Inductive exn : Type :=
| IndexError        (* list or array index out of range *)
| TypeError         (* None used as a number *)
| ValueError        (* int() of something that is not a number *)
| ZeroDivisionError
| RuntimeError.     (* maximum recursion depth exceeded *)

Inductive outcome (A : Type) : Type :=
| Ret (v : A)
| Raise (e : exn)
| Diverge.

Arguments Ret {A} v.
Arguments Raise {A} e.
Arguments Diverge {A}.

Definition bind {A B : Type} (m : outcome A) (k : A -> outcome B) : outcome B :=
  match m with
  | Ret v => k v
  | Raise e => Raise e
  | Diverge => Diverge
  end.

Notation "x <- m ;; k" := (bind m (fun x => k))
  (at level 61, m at next level, right associativity).

(** [l[i]] on a Python list or a numpy vector, for an index [i >= 0]. *)
Definition getitem {A : Type} (l : list A) (i : nat) : outcome A :=
  match nth_error l i with
  | Some v => Ret v
  | None => Raise IndexError
  end.

(** [l[i] = v] on a numpy vector, for an index [i >= 0]. *)
Fixpoint setitem {A : Type} (l : list A) (i : nat) (v : A) : outcome (list A) :=
  match l, i with
  | [], _ => Raise IndexError
  | _ :: tl, O => Ret (v :: tl)
  | x :: tl, S j => tl' <- setitem tl j v ;; Ret (x :: tl')
  end.

(** ** Auxiliary functions *)

(** The [while a != 0] loop of [int2intvec]; [fuel] bounds the number of
    iterations, and running out of it stands for a loop that never ends. *)
Fixpoint int2intvec_loop (fuel : nat) (a : Z) (vec : list Z) : outcome (list Z) :=
  if a =? 0 then Ret vec
  else match fuel with
       | O => Diverge
       | S fuel' =>
           let digit := a mod 10 in
           int2intvec_loop fuel' ((a - digit) / 10) (vec ++ [digit])
       end.

(** An iteration bound for the digit loops: a number has no more digits, in
    base 7 or 10, than binary digits. *)
Definition loop_bound (a : Z) : nat := S (Z.to_nat (Z.log2 a)).

Definition int2intvec (a : Z) : outcome (list Z) :=
  let digit := a mod 10 in
  int2intvec_loop (loop_bound a) ((a - digit) / 10) [digit].

(** [str(n)] for an integer: its decimal digits, with a sign when negative. *)
Definition char_of_digit (d : Z) : ascii := ascii_of_nat (48 + Z.to_nat d).

Fixpoint str_digits (fuel : nat) (n : Z) (acc : string) : string :=
  match fuel with
  | O => acc
  | S fuel' =>
      let acc' := String (char_of_digit (n mod 10)) acc in
      if n / 10 =? 0 then acc' else str_digits fuel' (n / 10) acc'
  end.

Definition str (n : Z) : string :=
  if n <? 0 then String "-"%char (str_digits (loop_bound (- n)) (- n) EmptyString)
  else str_digits (loop_bound n) n EmptyString.

(** [int(c)] for a one-character string. *)
Definition int_of_char (c : ascii) : outcome Z :=
  let k := Z.of_nat (nat_of_ascii c) in
  if (48 <=? k) && (k <=? 57) then Ret (k - 48) else Raise ValueError.

(** [int(s)] for a string of decimal digits. *)
Fixpoint int_of_chars (s : list ascii) (acc : Z) : outcome Z :=
  match s with
  | [] => Ret acc
  | c :: s' => d <- int_of_char c ;; int_of_chars s' (acc * 10 + d)
  end.

Definition int_of_string (s : list ascii) : outcome Z :=
  match s with
  | [] => Raise ValueError
  | _ => int_of_chars s 0
  end.

Definition ALPHABET7 : string := "0123456".
Definition ALPHABET10 : string := "0123456789".

Definition str_getitem (s : string) (i : Z) : outcome ascii :=
  match String.get (Z.to_nat i) s with
  | Some c => Ret c
  | None => Raise IndexError
  end.

(** The [while num] loop of [base_encode]; [arr] is kept in append order. *)
Fixpoint base_encode_loop (fuel : nat) (num base : Z) (alphabet : string)
    (arr : list ascii) : outcome (list ascii) :=
  if num =? 0 then Ret arr
  else match fuel with
       | O => Diverge
       | S fuel' =>
           if base =? 0 then Raise ZeroDivisionError
           else
             let rem := num mod base in
             let num' := num / base in
             c <- str_getitem alphabet rem ;;
             base_encode_loop fuel' num' base alphabet (arr ++ [c])
       end.

Definition base_encode (num : Z) (alphabet : string) : outcome Z :=
  c0 <- str_getitem alphabet 0 ;;
  if String.eqb (str num) (String c0 EmptyString) then Ret 0
  else
    let base := Z.of_nat (String.length alphabet) in
    arr <- base_encode_loop (loop_bound num) num base alphabet [] ;;
    int_of_string (rev arr).

(** The value that a numpy [int64] scalar holds for the integer [z]: the
    arithmetic of C long wraps around modulo [2^64] (numpy gives a warning
    and goes on). *)
Definition int64 (z : Z) : Z := (z + 2 ^ 63) mod 2 ^ 64 - 2 ^ 63.

(** The [for i in range(len(arr))] loop of [base7to10], from [i] on:
    [num += arr[i]*(7**i)].  [arr[i]] is a numpy [int64].  While [7**i] is
    a Python [int] (it is below [2^63], that is [i <= 22]) the product and
    the sum are [int64] scalars and wrap around.  From [i = 23] on [7**i]
    is a Python [long] that no numpy integer holds, and numpy 1.x hands the
    two operations to Python's unbounded integers. *)
Fixpoint base7to10_loop (arr : list Z) (i : nat) (num : Z) : Z :=
  match arr with
  | [] => num
  | d :: arr' =>
      let p := 7 ^ Z.of_nat i in
      let num' :=
        if p <? 2 ^ 63 then int64 (num + int64 (d * p)) else num + d * p in
      base7to10_loop arr' (S i) num'
  end.

Definition base7to10 (num : Z) : outcome Z :=
  arr <- int2intvec num ;;
  Ret (base7to10_loop arr 0 0).

Definition base10to7 (num : Z) : outcome Z := base_encode num ALPHABET7.

(** ** Spiral addition and multiplication *)

Definition addition_table : list (list Z) :=
  [ [0; 1; 2; 3; 4; 5; 6];
    [1; 63; 15; 2; 0; 6; 64];
    [2; 15; 14; 26; 3; 0; 1];
    [3; 2; 26; 25; 31; 4; 0];
    [4; 0; 3; 31; 36; 42; 5];
    [5; 6; 0; 4; 42; 41; 53];
    [6; 64; 1; 0; 5; 53; 52] ].

Definition multiplication_table : list (list Z) :=
  [ [0; 0; 0; 0; 0; 0; 0];
    [0; 1; 2; 3; 4; 5; 6];
    [0; 2; 3; 4; 5; 6; 1];
    [0; 3; 4; 5; 6; 1; 2];
    [0; 4; 5; 6; 1; 2; 3];
    [0; 5; 6; 1; 2; 3; 4];
    [0; 6; 1; 2; 3; 4; 5] ].

(** [table[a][b]] for indices [a, b >= 0] (the callers only index with
    decimal digits). *)
Definition table_lookup (table : list (list Z)) (a b : Z) : outcome Z :=
  row <- getitem table (Z.to_nat a) ;;
  getitem row (Z.to_nat b).

(** [(dig < 0).any() or (dig > 7).any()] *)
Definition out_of_range (dig : list Z) : bool :=
  existsb (fun d => d <? 0) dig || existsb (fun d => d >? 7) dig.

(** [dig.resize(n)] for [n >= len(dig)]: the new entries are zero. *)
Definition resize (dig : list Z) (n : nat) : list Z :=
  dig ++ repeat 0 (n - length dig).

(** The two vectors of digits after
    [if len(dig_a) < len(dig_b): dig_a.resize(len(dig_b))
     elif len(dig_b) < len(dig_a): dig_b.resize(len(dig_a))]. *)
Definition resized (dig_a dig_b : list Z) : list Z * list Z :=
  if (length dig_a <? length dig_b)%nat then
    (resize dig_a (length dig_b), dig_b)
  else if (length dig_b <? length dig_a)%nat then
    (dig_a, resize dig_b (length dig_a))
  else (dig_a, dig_b).

(** The [for i in range(len(dig_a))] loop of [spiral_add], from index [i] on
    and for [todo] more rounds; [rec] is the recursive call [spiral_add(_, _)]
    with the default [mod]. *)
Fixpoint spiral_add_loop (rec : Z -> Z -> outcome (option Z))
    (todo i : nat) (dig_a dig_b : list Z) (res : Z) : outcome Z :=
  match todo with
  | O => Ret res
  | S todo' =>
      ai <- getitem dig_a i ;;
      bi <- getitem dig_b i ;;
      if (i =? length dig_a - 1)%nat then
        last <- rec ai bi ;;
        match last with
        | None => Raise TypeError
        | Some v => spiral_add_loop rec todo' (S i) dig_a dig_b (res + v * 10 ^ Z.of_nat i)
        end
      else
        t <- rec ai bi ;;
        match t with
        | None => Raise TypeError
        | Some temp =>
            let res' := res + (temp mod 10) * 10 ^ Z.of_nat i in
            ai1 <- getitem dig_a (S i) ;;
            c <- rec ai1 ((temp - temp mod 10) / 10) ;;
            match c with
            | None => Raise ValueError
            | Some carry_on =>
                dig_a' <- setitem dig_a (S i) carry_on ;;
                spiral_add_loop rec todo' (S i) dig_a' dig_b res'
            end
        end
  end.

(** [spiral_add] with a bound [depth] on the nesting of its recursive
    calls. *)
Fixpoint spiral_add_rec (depth : nat) (a b mod_ : Z) : outcome (option Z) :=
  match depth with
  | O => Raise RuntimeError
  | S depth' =>
      dig_a <- int2intvec a ;;
      dig_b <- int2intvec b ;;
      if out_of_range dig_a || out_of_range dig_b then Ret None
      else if (length dig_a =? 1)%nat && (length dig_b =? 1)%nat then
        v <- table_lookup addition_table a b ;; Ret (Some v)
      else
        let dig_a' := fst (resized dig_a dig_b) in
        let dig_b' := snd (resized dig_a dig_b) in
        res <- spiral_add_loop (fun x y => spiral_add_rec depth' x y 0)
                 (length dig_a') 0 dig_a' dig_b' 0 ;;
        if negb (mod_ =? 0) then Ret (Some (res mod mod_)) else Ret (Some res)
  end.

(** [spiral_add].  Every depth of three or more gives the same outcome
    ([spiral_add_rec_depth] below): the nesting that Python allows is never
    the limit. *)
Definition spiral_add (a b mod_ : Z) : outcome (option Z) :=
  spiral_add_rec 3 a b mod_.

(** The inner [for j in range(len(dig_a))] loop of [spiral_mult]. *)
Fixpoint spiral_mult_inner (dig_a : list Z) (bi : Z) (i j : nat)
    (sa_mult : option Z) : outcome (option Z) :=
  match dig_a with
  | [] => Ret sa_mult
  | aj :: dig_a' =>
      m <- table_lookup multiplication_table aj bi ;;
      let temp := m * 10 ^ Z.of_nat (i + j) in
      match sa_mult with
      | None => Raise TypeError
      | Some acc =>
          sa_mult' <- spiral_add acc temp 0 ;;
          spiral_mult_inner dig_a' bi i (S j) sa_mult'
      end
  end.

(** The outer [for i in range(len(dig_b))] loop of [spiral_mult]. *)
Fixpoint spiral_mult_outer (dig_a dig_b : list Z) (i : nat)
    (sa_mult : option Z) : outcome (option Z) :=
  match dig_b with
  | [] => Ret sa_mult
  | bi :: dig_b' =>
      sa_mult' <- spiral_mult_inner dig_a bi i 0 sa_mult ;;
      spiral_mult_outer dig_a dig_b' (S i) sa_mult'
  end.

Definition spiral_mult (a b mod_ : Z) : outcome (option Z) :=
  dig_a <- int2intvec a ;;
  dig_b <- int2intvec b ;;
  if out_of_range dig_a || out_of_range dig_b then Ret None
  else
    sa_mult <- spiral_mult_outer dig_a dig_b 0 (Some 0) ;;
    if negb (mod_ =? 0) then
      match sa_mult with
      | None => Raise TypeError
      | Some v => Ret (Some (v mod mod_))
      end
    else Ret sa_mult.

(** ** Lattice geometry *)

Definition vec2 : Type := (Z * Z)%type.

Definition vadd (u v : vec2) : vec2 := (fst u + fst v, snd u + snd v).
Definition vscale (k : Z) (u : vec2) : vec2 := (k * fst u, k * snd u).

(** The centered hyperpel. *)
Definition hyperpel : list vec2 :=
  [ (-1,4); (0,4); (1,4); (2,4); (3,4);
    (-2,3); (-1,3); (0,3); (1,3); (2,3); (3,3); (4,3);
    (-2,2); (-1,2); (0,2); (1,2); (2,2); (3,2); (4,2);
    (-3,1); (-2,1); (-1,1); (0,1); (1,1); (2,1); (3,1); (4,1); (5,1);
    (-3,0); (-2,0); (-1,0); (0,0); (1,0); (2,0); (3,0); (4,0); (5,0);
    (-2,-1); (-1,-1); (0,-1); (1,-1); (2,-1); (3,-1); (4,-1);
    (-2,-2); (-1,-2); (0,-2); (1,-2); (2,-2); (3,-2); (4,-2);
    (-1,-3); (0,-3); (1,-3); (2,-3); (3,-3) ].

Definition hyperpel_sa : list vec2 :=
  map (fun p => (fst p - 1, snd p - 1)) hyperpel.

(** [sa2hex_aux(a, zeros)] for [zeros >= 0].  At [zeros == 0] a symbol
    outside 0..6 matches no base case and the function calls itself with
    [zeros - 1], [zeros - 2], ... without end. *)
Fixpoint sa2hex_aux (a : Z) (zeros : nat) : outcome vec2 :=
  match zeros with
  | O =>
      if a =? 0 then Ret (0, 0)
      else if a =? 1 then Ret (0, 8)
      else if a =? 2 then Ret (-7, 4)
      else if a =? 3 then Ret (-7, -4)
      else if a =? 4 then Ret (0, -8)
      else if a =? 5 then Ret (7, -4)
      else if a =? 6 then Ret (7, 4)
      else Raise RuntimeError
  | S zeros' =>
      u <- sa2hex_aux a zeros' ;;
      v <- sa2hex_aux (a mod 6 + 1) zeros' ;;
      Ret (vadd u (vscale 2 v))
  end.

(** The [for i in range(len(digits))] loop of [sa2hex]. *)
Fixpoint sa2hex_loop (digits : list ascii) (i : nat) (hex_address : vec2)
    : outcome (option vec2) :=
  match digits with
  | [] => Ret (Some hex_address)
  | c :: digits' =>
      d <- int_of_char c ;;
      if (d <? 0) || (d >? 6) then Ret None
      else if negb (Ascii.eqb c "0") then
        v <- sa2hex_aux d i ;;
        sa2hex_loop digits' (S i) (vadd hex_address v)
      else sa2hex_loop digits' (S i) hex_address
  end.

Definition sa2hex (spiral_address : Z) : outcome (option vec2) :=
  let digits := rev (list_ascii_of_string (str spiral_address)) in
  sa2hex_loop digits 0 (0, 0).

(** ** Grids and their element type *)

(** The arithmetic used on the elements of a grid (numpy's dtype): the
    [0.] that starts a sum, [+], [*], complex conjugation and the division
    of a sum by an integer. *)
Class Scalar (C : Type) : Type := {
  czero : C;
  cadd : C -> C -> C;
  cmul : C -> C -> C;
  cconj : C -> C;
  cdiv_int : C -> Z -> C
}.

(** [np.vdot(x, y)] on two vectors of the dtype: the sum of the products
    [conj(x_k) * y_k].  numpy passes the two vectors to the dot product of
    the BLAS library it is linked with, which chooses the order of the
    additions and whether a product is rounded before it is added: the
    operation is a parameter, about which nothing is assumed. *)
Class Dot (C : Type) : Type := {
  vdot : list C -> list C -> C
}.

(** A two-dimensional numpy array: its shape and its elements by index. *)
Record grid (C : Type) : Type := {
  nrows : Z;
  ncols : Z;
  cell : Z -> Z -> C
}.

Arguments nrows {C} g.
Arguments ncols {C} g.
Arguments cell {C} g r c.

(** An index along an axis of length [n]: negative indices count from the
    end, and anything outside [-n, n) is an error. *)
Definition axis_index (i n : Z) : outcome Z :=
  if (0 <=? i) && (i <? n) then Ret i
  else if (- n <=? i) && (i <? 0) then Ret (i + n)
  else Raise IndexError.

Definition grid_getitem {C : Type} (g : grid C) (r c : Z) : outcome C :=
  r' <- axis_index r (nrows g) ;;
  c' <- axis_index c (ncols g) ;;
  Ret (cell g r' c').

Section Engine.

Context {C : Type} `{Scalar C}.

(** The [for i in range(56)] loop of [sa_value]. *)
Fixpoint sa_value_loop (oversampled_image : grid C) (hp : list vec2)
    (todo i : nat) (val : C) : outcome C :=
  match todo with
  | O => Ret val
  | S todo' =>
      p <- getitem hp i ;;
      x <- grid_getitem oversampled_image (fst p) (snd p) ;;
      sa_value_loop oversampled_image hp todo' (S i) (cadd val x)
  end.

(** [sa_value]; where [sa2hex] has refused the address, [None] is added to
    [hyperpel_sa]. *)
Definition sa_value (oversampled_image : grid C) (spiral_address : Z)
    : outcome C :=
  h <- sa2hex spiral_address ;;
  match h with
  | None => Raise TypeError
  | Some center =>
      let hp := map (fun p => vadd p center) hyperpel_sa in
      val <- sa_value_loop oversampled_image hp 56 0 czero ;;
      Ret (cdiv_int val 56)
  end.

(** The [for i in range(1,7)] loop of [omegaf], from [i] on; where
    [spiral_mult] has refused its operands, [sa2hex] reads the digits of
    [str(None)]. *)
Fixpoint omegaf_loop (fft_oversampled : grid C) (sa : Z) (todo : nat) (i : Z)
    (omegaf : list C) : outcome (list C) :=
  match todo with
  | O => Ret omegaf
  | S todo' =>
      m <- spiral_mult sa i 0 ;;
      match m with
      | None => Raise ValueError
      | Some addr =>
          v <- sa_value fft_oversampled addr ;;
          omegaf' <- setitem omegaf (Z.to_nat (i - 1)) v ;;
          omegaf_loop fft_oversampled sa todo' (i + 1) omegaf'
      end
  end.

Definition omegaf (fft_oversampled : grid C) (sa : Z) : outcome (list C) :=
  omegaf_loop fft_oversampled sa 6 1 (repeat czero 6).

(** [x * y] on two vectors of the same length. *)
Fixpoint vmul (x y : list C) : list C :=
  match x, y with
  | xk :: x', yk :: y' => cmul xk yk :: vmul x' y'
  | _, _ => []
  end.

Context {DC : Dot C}.

Definition invariant (fft_oversampled : grid C) (sa1 sa2 sa3 : Z) : outcome C :=
  omega1 <- omegaf fft_oversampled sa1 ;;
  omega2 <- omegaf fft_oversampled sa2 ;;
  omega3 <- omegaf fft_oversampled sa3 ;;
  Ret (vdot (vmul omega1 omega2) omega3).

Definition indexes : list Z := [0; 1; 10; 11; 12; 13; 14; 15; 16].

(** The state of the loops of [bispectral_inv]: the vector being filled and
    [count]. *)
Definition fill : Type := (list C * nat)%type.

Definition emit (fft : grid C) (sa1 sa2 sa3 : Z) (st : fill) : outcome fill :=
  v <- invariant fft sa1 sa2 sa3 ;;
  bispectrum <- setitem (fst st) (snd st) v ;;
  Ret (bispectrum, S (snd st)).

(** [for r in range(6)], from [r] on. *)
Fixpoint rotation_loop (fft : grid C) (sa1 sa1_base10 sa2 : Z)
    (todo : nat) (r : Z) (st : fill) : outcome fill :=
  match todo with
  | O => Ret st
  | S todo' =>
      m <- spiral_mult sa2 r 0 ;;
      match m with
      | None => Raise TypeError
      | Some sa2_rot =>
          sa2_rot_base10 <- base7to10 sa2_rot ;;
          sa3 <- base10to7 (sa1_base10 + sa2_rot_base10) ;;
          st' <- emit fft sa1 sa2 sa3 st ;;
          rotation_loop fft sa1 sa1_base10 sa2 todo' (r + 1) st'
      end
  end.

(** [for k in range(9)], from [k] on. *)
Fixpoint inner_loop (fft : grid C) (rotational : bool) (sa1 sa1_base10 : Z)
    (todo k : nat) (st : fill) : outcome fill :=
  match todo with
  | O => Ret st
  | S todo' =>
      sa2 <- getitem indexes k ;;
      st' <- (if rotational then rotation_loop fft sa1 sa1_base10 sa2 6 0 st
              else
                sa2_base10 <- base7to10 sa2 ;;
                sa3 <- base10to7 (sa1_base10 + sa2_base10) ;;
                emit fft sa1 sa2 sa3 st) ;;
      inner_loop fft rotational sa1 sa1_base10 todo' (S k) st'
  end.

(** [for i in range(9)], from [i] on. *)
Fixpoint outer_loop (fft : grid C) (rotational : bool) (todo i : nat)
    (st : fill) : outcome fill :=
  match todo with
  | O => Ret st
  | S todo' =>
      sa1 <- getitem indexes i ;;
      sa1_base10 <- base7to10 sa1 ;;
      st' <- inner_loop fft rotational sa1 sa1_base10 9 0 st ;;
      outer_loop fft rotational todo' (S i) st'
  end.

Definition bispectral_inv (fft_oversampled_example : grid C)
    (rotational : bool) : outcome (list C) :=
  let bispectrum :=
    if rotational then repeat czero (9 ^ 2 * 6) else repeat czero (9 ^ 2) in
  st <- outer_loop fft_oversampled_example rotational 9 0 (bispectrum, 0%nat) ;;
  Ret (fst st).

End Engine.


(** ** Oversampling and the evaluation of an image *)

Section Pipeline.

Context {C : Type} {SC : Scalar C} {DC : Dot C}.

(** The [1.] of [np.ones] and the division of two elements. *)
Variables (cone : C) (cdiv : C -> C -> C).

(** [np.zeros(shape)] and [np.ones(shape)]. *)
Definition zeros (shape : Z * Z) : grid C :=
  {| nrows := fst shape; ncols := snd shape; cell := fun _ _ => czero |}.

Definition ones (shape : Z * Z) : grid C :=
  {| nrows := fst shape; ncols := snd shape; cell := fun _ _ => cone |}.

(** [x * a] for an element [x] and an array [a]. *)
Definition scalar_mul (x : C) (a : grid C) : grid C :=
  {| nrows := nrows a; ncols := ncols a;
     cell := fun r c => cmul x (cell a r c) |}.

(** [a[r0:r1, c0:c1] = block] for a slice within the array and a block of
    its shape. *)
Definition setitem_slice (a : grid C) (r0 r1 c0 c1 : Z) (block : grid C)
    : grid C :=
  {| nrows := nrows a; ncols := ncols a;
     cell := fun r c =>
       if (r0 <=? r) && (r <? r1) && (c0 <=? c) && (c <? c1)
       then cell block (r - r0) (c - c0)
       else cell a r c |}.

(** The [for j in range(old_shape[1])] loop of [oversampling], from [j]
    on. *)
Fixpoint oversampling_inner (image new_image : grid C) (factor i : Z)
    (todo : nat) (j : Z) : grid C :=
  match todo with
  | O => new_image
  | S todo' =>
      let new_image' :=
        setitem_slice new_image
          (factor * i) (factor * i + factor) (factor * j) (factor * j + factor)
          (scalar_mul (cell image i j) (ones (factor, factor))) in
      oversampling_inner image new_image' factor i todo' (j + 1)
  end.

(** The [for i in range(old_shape[0])] loop, from [i] on. *)
Fixpoint oversampling_outer (image new_image : grid C) (factor : Z)
    (todo : nat) (i : Z) : grid C :=
  match todo with
  | O => new_image
  | S todo' =>
      let new_image' :=
        oversampling_inner image new_image factor i
          (Z.to_nat (ncols image)) 0 in
      oversampling_outer image new_image' factor todo' (i + 1)
  end.

(** [oversampling]; [np.zeros] refuses a negative dimension. *)
Definition oversampling (image : grid C) (factor : Z) : outcome (grid C) :=
  let old_shape := (nrows image, ncols image) in
  let new_shape := (factor * fst old_shape, factor * snd old_shape) in
  if (fst new_shape <? 0) || (snd new_shape <? 0) then Raise ValueError
  else
    Ret (oversampling_outer image (zeros new_shape) factor
           (Z.to_nat (fst old_shape)) 0).

(** [np.fft.fft2], [np.fft.fftshift] and [LA.norm], about which nothing is
    assumed. *)
Variables (fft2 fftshift : grid C -> grid C) (norm : grid C -> C).

(** [a / n] for an array and a number, and [a /= b] for two arrays of one
    shape. *)
Definition div_scalar (a : grid C) (n : C) : grid C :=
  {| nrows := nrows a; ncols := ncols a;
     cell := fun r c => cdiv (cell a r c) n |}.

Definition idiv (a b : grid C) : grid C :=
  {| nrows := nrows a; ncols := ncols a;
     cell := fun r c => cdiv (cell a r c) (cell b r c) |}.

Definition evaluate_invariants (image : grid C) (rot : bool)
    : outcome (list C) :=
  let fft := fftshift (fft2 image) in
  let fft := idiv fft (div_scalar fft (norm fft)) in
  fft_oversampled <- oversampling fft 7 ;;
  bispectral_inv fft_oversampled rot.

End Pipeline.
(** ** Notions used to state the properties *)

(** The decimal digits of a natural number, least significant first. *)
Fixpoint digits_fuel (fuel : nat) (a : Z) : list Z :=
  match fuel with
  | O => []
  | S fuel' =>
      if a <? 10 then [a] else a mod 10 :: digits_fuel fuel' (a / 10)
  end.

Definition digits (a : Z) : list Z := digits_fuel (loop_bound a) a.

(** The number that a list of digits writes in base [base]. *)
Fixpoint val (base : Z) (l : list Z) : Z :=
  match l with
  | [] => 0
  | d :: l' => d + base * val base l'
  end.

(** The digit of weight [10^i] in the decimal writing of [a]. *)
Definition digit (a : Z) (i : nat) : Z := (a / 10 ^ Z.of_nat i) mod 10.

(** A spiral address: a natural number whose decimal digits are all in 0..6
    ([is_address_digit] says it with [digit]). *)
Definition is_address (a : Z) : bool :=
  (0 <=? a) && forallb (fun d => d <=? 6) (digits a).

(** The offset of a symbol [a] at recursion depth [z], as the specification
    words it: a table of seven offsets at depth 0, and above it
    [offset(a,z) = offset(a,z-1) + 2 * offset((a mod 6)+1, z-1)]. *)
Definition offset_table (a : Z) : vec2 :=
  match a with
  | 1 => (0, 8)
  | 2 => (-7, 4)
  | 3 => (-7, -4)
  | 4 => (0, -8)
  | 5 => (7, -4)
  | 6 => (7, 4)
  | _ => (0, 0)
  end.

Fixpoint offset (a : Z) (z : nat) : vec2 :=
  match z with
  | O => offset_table a
  | S z' => vadd (offset a z') (vscale 2 (offset (a mod 6 + 1) z'))
  end.

(** The sum of [offset d i] over the nonzero digits [d] of [l], the first of
    which has position [i]. *)
Fixpoint offset_sum (l : list Z) (i : nat) : vec2 :=
  match l with
  | [] => (0, 0)
  | d :: l' =>
      vadd (if d =? 0 then (0, 0) else offset d i) (offset_sum l' (S i))
  end.

Definition address_offset (a : Z) : vec2 := offset_sum (digits a) 0.

(** The loop of [spiral_add] read on the digits that remain: [la] and [lb]
    are the digits of the operands from position [i] on, the head of [la]
    already holding the carry.  [spiral_add_loop_digits] shows that the
    indexed loop computes this. *)
Fixpoint add_digits (rec : Z -> Z -> outcome (option Z)) (la lb : list Z)
    (i : nat) (res : Z) {struct lb} : outcome Z :=
  match la, lb with
  | ai :: [], bi :: _ =>
      last <- rec ai bi ;;
      match last with
      | None => Raise TypeError
      | Some v => Ret (res + v * 10 ^ Z.of_nat i)
      end
  | ai :: ai1 :: la', bi :: lb' =>
      t <- rec ai bi ;;
      match t with
      | None => Raise TypeError
      | Some temp =>
          c <- rec ai1 ((temp - temp mod 10) / 10) ;;
          match c with
          | None => Raise ValueError
          | Some carry_on =>
              add_digits rec (carry_on :: la') lb' (S i)
                (res + (temp mod 10) * 10 ^ Z.of_nat i)
          end
      end
  | _, _ => Ret res
  end.

(** The entry of the addition table for two symbols, 0 outside the table. *)
Definition add_entry (a b : Z) : Z :=
  nth (Z.to_nat b) (nth (Z.to_nat a) addition_table []) 0.

Definition mult_entry (a b : Z) : Z :=
  nth (Z.to_nat b) (nth (Z.to_nat a) multiplication_table []) 0.

(** Two symbols of which one is 0. *)
Definition one_is_zero (a b : Z) : Prop :=
  (a = 0 /\ 0 <= b <= 6) \/ (b = 0 /\ 0 <= a <= 6).

(** The symbols 0..[top]. *)
Definition symbols_upto (top : nat) : list Z := map Z.of_nat (seq 0 (S top)).

(** The entries of the addition table: what a digit of the first operand
    can become once a carry has been added to it. *)
Definition table_entries : list Z := concat addition_table.

Definition is_entry (t : Z) : bool := existsb (Z.eqb t) table_entries.

(** A result that is a spiral address of at most two digits. *)
Definition small_sum (r : outcome (option Z)) : bool :=
  match r with
  | Ret (Some t) => (0 <=? t) && (t <=? 66) && (t mod 10 <=? 6)
  | _ => false
  end.

Definition small_sum_or_index_error (r : outcome (option Z)) : bool :=
  match r with
  | Raise IndexError => true
  | _ => small_sum r
  end.

Definition exn_eqb (e1 e2 : exn) : bool :=
  match e1, e2 with
  | IndexError, IndexError
  | TypeError, TypeError
  | ValueError, ValueError
  | ZeroDivisionError, ZeroDivisionError
  | RuntimeError, RuntimeError => true
  | _, _ => false
  end.

Definition outcome_eqb (r1 r2 : outcome (option Z)) : bool :=
  match r1, r2 with
  | Ret (Some x), Ret (Some y) => x =? y
  | Ret None, Ret None => true
  | Raise e1, Raise e2 => exn_eqb e1 e2
  | Diverge, Diverge => true
  | _, _ => false
  end.

(** A result that is an entry of the addition table. *)
Definition entry_result (r : outcome (option Z)) : bool :=
  match r with
  | Ret (Some t) => is_entry t
  | _ => false
  end.

Definition entry_result_or_index_error (r : outcome (option Z)) : bool :=
  match r with
  | Raise IndexError => true
  | _ => entry_result r
  end.

(** The reading of the specification that C1 states: the result of [add]
    has no more digits than the longer operand. *)
Definition top_carry_dropped (a b : Z) : Prop :=
  forall r, spiral_add a b 0 = Ret (Some r) ->
            (length (digits r) <= Nat.max (length (digits a)) (length (digits b)))%nat.

(** The reading of the specification that C4 states: converting a spiral
    address to its position and back gives the address. *)
Definition round_trip (a : Z) : Prop :=
  (v <- base7to10 a ;; base10to7 v) = Ret a.

(** The reading of the specification that C2 states: an operand with a
    digit outside 0..6 makes the operation print "Invalid spiral address!"
    and return [None]. *)
Definition refused (r : outcome (option Z)) : Prop := r = Ret None.

(** *** Element types *)

(** IEEE double precision: the dtype [float64] of a real image. *)
Fixpoint float_of_pos (p : positive) : float :=
  match p with
  | xH => 1%float
  | xO q => PrimFloat.mul 2%float (float_of_pos q)
  | xI q => PrimFloat.add (PrimFloat.mul 2%float (float_of_pos q)) 1%float
  end.

Definition float_of_Z (n : Z) : float :=
  match n with
  | Z0 => 0%float
  | Zpos p => float_of_pos p
  | Zneg p => PrimFloat.opp (float_of_pos p)
  end.

#[export] Instance float64 : Scalar float := {
  czero := 0%float;
  cadd := PrimFloat.add;
  cmul := PrimFloat.mul;
  cconj := fun x => x;
  cdiv_int := fun x n => PrimFloat.div x (float_of_Z n)
}.

(** Exact real arithmetic. *)
#[export] Instance exact_real : Scalar R := {
  czero := 0%R;
  cadd := Rplus;
  cmul := Rmult;
  cconj := fun x => x;
  cdiv_int := fun x n => Rdiv x (IZR n)
}.

(** *** The dot product *)

Section DotNotions.

Context {C : Type} {SC : Scalar C}.

(** The products [conj(x_k) * y_k] that [np.vdot(x, y)] adds. *)
Fixpoint products (x y : list C) : list C :=
  match x, y with
  | xk :: x', yk :: y' => cmul (cconj xk) yk :: products x' y'
  | _, _ => []
  end.

(** The products added to zero one after the other, in index order. *)
Definition dot_sum (x y : list C) : C := fold_left cadd (products x y) czero.

(** [v] is a sum of the elements of [l], each taken once, in some order and
    with some bracketing. *)
Inductive sum_of : list C -> C -> Prop :=
| sum_of_one (x : C) : sum_of [x] x
| sum_of_add (l1 l2 l : list C) (a b : C) :
    sum_of l1 a -> sum_of l2 b -> Permutation (l1 ++ l2) l ->
    sum_of l (cadd a b).

(** The elements of a list added from the first on. *)
Definition total (l : list C) : C :=
  match l with
  | [] => czero
  | x :: l' => fold_left cadd l' x
  end.

(** A dot product that adds zero and the products, in whatever order. *)
Definition adds_products (dot : list C -> list C -> C) : Prop :=
  forall x y, sum_of (czero :: products x y) (dot x y).

End DotNotions.

(** In exact arithmetic the order of the additions is immaterial and
    [np.vdot] is the sum of the products. *)
#[export] Instance exact_dot : Dot R := {| vdot := dot_sum |}.

(** Two dot products on [float64] vectors: the additions in index order
    (numpy's own loop, and a BLAS routine that is not unrolled), and the
    products added two by two before they are accumulated (a routine
    unrolled twice). *)
Definition dot_in_order : Dot float := {| vdot := dot_sum |}.



(** A grid of [rows] by [cols] cells that all hold [c]. *)
Definition constant_grid {C : Type} (rows cols : Z) (c : C) : grid C :=
  {| nrows := rows; ncols := cols; cell := fun _ _ => c |}.


(** *** The invariant engine *)

Section EngineNotions.

Context {C : Type} {SC : Scalar C} {DC : Dot C}.

(** [x + x + ... + x], [n] times from zero, in the order of a loop. *)
Fixpoint nsum (n : nat) (x : C) : C :=
  match n with
  | O => czero
  | S k => cadd (nsum k x) x
  end.

(** The hyperpel of [addr] lies within the grid. *)
Definition footprint_in_bounds (g : grid C) (addr : Z) : bool :=
  forallb (fun p =>
    let q := vadd p (address_offset addr) in
    (0 <=? fst q) && (fst q <? nrows g) && (0 <=? snd q) && (snd q <? ncols g))
    hyperpel_sa.

(** The component [k] of the frequency vector of [sa]:
    [sa_value(spectrum, spiral_mult(sa, k))]. *)
Definition omega_component (fft : grid C) (sa k : Z) : outcome C :=
  m <- spiral_mult sa k 0 ;;
  match m with
  | None => Raise ValueError
  | Some addr => sa_value fft addr
  end.


(** The third address of a pair, plain and rotated by [r]. *)
Definition plain_sa3 (sa1 sa2 : Z) : outcome Z :=
  p1 <- base7to10 sa1 ;;
  p2 <- base7to10 sa2 ;;
  base10to7 (p1 + p2).

Definition rotated_sa3 (sa1 sa2 r : Z) : outcome Z :=
  p1 <- base7to10 sa1 ;;
  m <- spiral_mult sa2 r 0 ;;
  match m with
  | None => Raise TypeError
  | Some sa2_rot =>
      p2 <- base7to10 sa2_rot ;;
      base10to7 (p1 + p2)
  end.

Definition plain_entry (fft : grid C) (sa1 sa2 : Z) : outcome C :=
  sa3 <- plain_sa3 sa1 sa2 ;;
  invariant fft sa1 sa2 sa3.

Definition rotated_entry (fft : grid C) (sa1 sa2 r : Z) : outcome C :=
  sa3 <- rotated_sa3 sa1 sa2 r ;;
  invariant fft sa1 sa2 sa3.

Definition rotations : list Z := [0; 1; 2; 3; 4; 5].

(** The entries of the bispectrum in their order: [sa1] outermost, then
    [sa2], then in rotational mode [r]. *)
Definition plain_entries (fft : grid C) : list (outcome C) :=
  flat_map (fun sa1 => map (fun sa2 => plain_entry fft sa1 sa2) indexes)
    indexes.

Definition rotated_entries (fft : grid C) : list (outcome C) :=
  flat_map (fun sa1 =>
    flat_map (fun sa2 => map (fun r => rotated_entry fft sa1 sa2 r) rotations)
      indexes)
    indexes.

(** [r, r+1, ...], [todo] of them: the values of a [range]. *)
Fixpoint zseq (r : Z) (todo : nat) : list Z :=
  match todo with
  | O => []
  | S todo' => r :: zseq (r + 1) todo'
  end.

(** The entries of a pair in either mode, and of all pairs. *)
Definition entries_for (fft : grid C) (rotational : bool) (sa1 sa2 : Z)
    : list (outcome C) :=
  if rotational then map (fun r => rotated_entry fft sa1 sa2 r) rotations
  else [plain_entry fft sa1 sa2].

Definition all_entries (fft : grid C) (rotational : bool)
    : list (outcome C) :=
  flat_map (fun sa1 => flat_map (entries_for fft rotational sa1) indexes)
    indexes.

(** The calls of [l] one after the other, up to the first that fails. *)
Fixpoint sequence {A : Type} (l : list (outcome A)) : outcome (list A) :=
  match l with
  | [] => Ret []
  | m :: l' => v <- m ;; vs <- sequence l' ;; Ret (v :: vs)
  end.




(** Writing the values of the calls [l] into a vector from [count] on. *)
Fixpoint fill_all (l : list (outcome C)) (st : list C * nat)
    : outcome (list C * nat) :=
  match l with
  | [] => Ret st
  | m :: l' =>
      v <- m ;;
      bispectrum <- setitem (fst st) (snd st) v ;;
      fill_all l' (bispectrum, S (snd st))
  end.

End EngineNotions.

(** The reading of the specification that C9 states: on a grid that holds
    [c] everywhere [sa_value] returns exactly [c]. *)
Definition mean_is_constant {C : Type} {SC : Scalar C} (g : grid C) (c : C)
    (addr : Z) : Prop :=
  sa_value g addr = Ret c.


(** *** Grids that cover the hyperpels of the bispectrum *)

(** The indices of the hyperpel of [addr] lie in [[-n, n)]: every grid of at
    least [n] rows and [n] columns holds them, the negative ones counted
    from the end. *)
Definition footprint_within (n addr : Z) : bool :=
  forallb (fun p =>
    let q := vadd p (address_offset addr) in
    (- n <=? fst q) && (fst q <? n) && (- n <=? snd q) && (snd q <? n))
    hyperpel_sa.

(** The six addresses [spiral_mult(sa, k)] that [omegaf] samples are spiral
    addresses with such a hyperpel. *)
Definition components_within (n sa : Z) : bool :=
  forallb (fun k =>
    match spiral_mult sa k 0 with
    | Ret (Some addr) => is_address addr && footprint_within n addr
    | _ => false
    end) [1; 2; 3; 4; 5; 6].

Definition triple_within (n sa1 sa2 : Z) (sa3 : outcome Z) : bool :=
  match sa3 with
  | Ret sa3 =>
      components_within n sa1 && components_within n sa2 &&
      components_within n sa3
  | _ => false
  end.

(** All the triples of the plain and of the rotational bispectrum. *)
Definition plain_within (n : Z) : bool :=
  forallb (fun sa1 =>
    forallb (fun sa2 => triple_within n sa1 sa2 (plain_sa3 sa1 sa2)) indexes)
    indexes.

Definition rotated_within (n : Z) : bool :=
  forallb (fun sa1 =>
    forallb (fun sa2 =>
      forallb (fun r => triple_within n sa1 sa2 (rotated_sa3 sa1 sa2 r))
        rotations)
      indexes)
    indexes.

(** *** The hexagonal lattice *)

(** Lattice coordinates: [(m, n)] stands for the point [m*e1 + n*e2], where
    [e1 = (0, 8)] and [e2 = (-7, 4)] are the offsets that [sa2hex_aux] gives
    to the symbols 1 and 2. *)
Definition hex_of (p : Z * Z) : vec2 :=
  (- 7 * snd p, 8 * fst p + 4 * snd p).

(** The lattice point of a symbol. *)
Definition coord (d : Z) : Z * Z :=
  match d with
  | 1 => (1, 0)
  | 2 => (0, 1)
  | 3 => (-1, 1)
  | 4 => (-1, 0)
  | 5 => (0, -1)
  | 6 => (1, -1)
  | _ => (0, 0)
  end.

(** The product of two lattice points read as [m + n*w] with
    [w^2 = w - 1], the symbol 2 being [w]. *)
Definition emul (u v : Z * Z) : Z * Z :=
  (fst u * fst v - snd u * snd v,
   fst u * snd v + snd u * fst v + snd u * snd v).

(** One level up: the product with [1 + 2*w]. *)
Definition lift (u : Z * Z) : Z * Z :=
  (fst u - 2 * snd u, 2 * fst u + 3 * snd u).

Fixpoint liftn (z : nat) (u : Z * Z) : Z * Z :=
  match z with
  | O => u
  | S z' => lift (liftn z' u)
  end.

(** The lattice point that a list of digits writes, least significant
    first, and that of a natural number. *)
Fixpoint point_of_digits (l : list Z) : Z * Z :=
  match l with
  | [] => (0, 0)
  | d :: l' => vadd (coord d) (lift (point_of_digits l'))
  end.

Definition point (a : Z) : Z * Z := point_of_digits (digits a).

(** The class of a lattice point modulo the points one level up. *)
Definition residue (u : Z * Z) : Z := (fst u + 3 * snd u) mod 7.

(** The call returned an address whose lattice point is [u]. *)
Definition sum_point (u : Z * Z) (r : outcome (option Z)) : bool :=
  match r with
  | Ret (Some t) =>
      (fst (point t) =? fst u) && (snd (point t) =? snd u)
  | _ => false
  end.

(** A sixth of a turn around the origin, on the centres of the hyperpels:
    the map that sends the offset of each symbol 1..6 to that of the
    next. *)
Definition sixth_turn (u : vec2) : vec2 :=
  ((28 * fst u - 49 * snd u) / 56, (48 * fst u + 28 * snd u) / 56).

Fixpoint turns (j : nat) (u : vec2) : vec2 :=
  match j with
  | O => u
  | S j' => sixth_turn (turns j' u)
  end.

(** The same on lattice coordinates: the product with [w]. *)
Fixpoint lattice_turns (j : nat) (p : Z * Z) : Z * Z :=
  match j with
  | O => p
  | S j' => emul (0, 1) (lattice_turns j' p)
  end.

Definition opposite (u : vec2) : vec2 := (- fst u, - snd u).

(** A vector between two cells is a vector of the lattice of the
    centres. *)
Definition in_lattice (w : vec2) : bool :=
  (fst w mod 7 =? 0) && ((snd w + 4 * (fst w / 7)) mod 8 =? 0).

Definition vsub (u v : vec2) : vec2 := (fst u - fst v, snd u - snd v).

Definition vec2_eqb (u v : vec2) : bool :=
  (fst u =? fst v) && (snd u =? snd v).

(** *** Indices that count from the end *)

(** The cell that numpy reads for an index [i] in [[-n, n)]. *)
Definition wrap_index (i n : Z) : Z := if 0 <=? i then i else i + n.

Section WrapNotions.

Context {C : Type} {SC : Scalar C}.

(** The indices [q] are in the range that numpy accepts on the grid. *)
Definition addressable (g : grid C) (q : vec2) : bool :=
  (- nrows g <=? fst q) && (fst q <? nrows g) &&
  (- ncols g <=? snd q) && (snd q <? ncols g).

(** So is every cell of the hyperpel of [addr]. *)
Definition footprint_addressable (g : grid C) (addr : Z) : bool :=
  forallb (fun p => addressable g (vadd p (address_offset addr)))
    hyperpel_sa.

(** The 56 cells of the hyperpel of [addr], negative indices counted from
    the end of their axis. *)
Definition footprint_cells (g : grid C) (addr : Z) : list C :=
  map (fun p =>
    let q := vadd p (address_offset addr) in
    cell g (wrap_index (fst q) (nrows g)) (wrap_index (snd q) (ncols g)))
    hyperpel_sa.

End WrapNotions.

(** *** The bispectrum of a constant spectrum *)

Section ConstantNotions.

Context {C : Type} {SC : Scalar C} {DC : Dot C}.

(** The value of [invariant] where every sampled hyperpel has the mean
    [m]. *)
Definition constant_invariant (m : C) : C :=
  vdot (vmul (repeat m 6) (repeat m 6)) (repeat m 6).

(** The entry of the bispectrum of a spectrum that holds [x] in every
    cell: the hyperpels have the mean of 56 copies of [x]. *)
Definition constant_entry (x : C) : C :=
  constant_invariant (cdiv_int (nsum 56 x) 56).

End ConstantNotions.

(** *** Operands with the digit 7 *)

(** A call with a 7 among its two arguments raises [IndexError]. *)
Definition seven_fails (x y : Z) (r : outcome (option Z)) : bool :=
  if (x =? 7) || (y =? 7) then outcome_eqb r (Raise IndexError) else true.

(** The greatest digit of the two operands decides what [spiral_add] and
    [spiral_mult] do. *)
Definition has_digit_above (top : Z) (a : Z) : bool :=
  existsb (fun d => top <? d) (digits a).
(** ** Decimal digits *)

Section Digits.

Lemma loop_bound_pow2 (a : Z) :
  0 <= a -> a < 2 ^ Z.of_nat (loop_bound a).
Proof.
  intros Ha. unfold loop_bound.
  rewrite Nat2Z.inj_succ, Z2Nat.id by apply Z.log2_nonneg.
  destruct (Z.eq_dec a 0) as [->|Hn].
  - reflexivity.
  - apply Z.log2_spec. lia.
Qed.

Lemma div10_pow2 (a : Z) (f : nat) :
  0 <= a < 2 ^ Z.of_nat (S f) -> 0 <= a / 10 < 2 ^ Z.of_nat f.
Proof.
  intros [H0 H1]. rewrite Nat2Z.inj_succ, Z.pow_succ_r in H1 by lia.
  split.
  - apply Z.div_pos; lia.
  - apply Z.div_lt_upper_bound; lia.
Qed.

Lemma digits_fuel_indep (f1 : nat) :
  forall (f2 : nat) (a : Z),
    0 <= a < 2 ^ Z.of_nat (S f1) -> a < 2 ^ Z.of_nat (S f2) ->
    digits_fuel (S f1) a = digits_fuel (S f2) a.
Proof.
  induction f1 as [|f1 IH]; intros f2 a H1 H2.
  - change (2 ^ Z.of_nat 1) with 2 in H1.
    cbn [digits_fuel]. destruct (a <? 10) eqn:E; [reflexivity|].
    apply Z.ltb_ge in E. lia.
  - cbn [digits_fuel]. destruct (a <? 10) eqn:E; [reflexivity|].
    apply Z.ltb_ge in E. f_equal.
    destruct f2 as [|f2].
    + change (2 ^ Z.of_nat 1) with 2 in H2. lia.
    + apply IH.
      * apply div10_pow2. exact H1.
      * apply div10_pow2. lia.
Qed.

Lemma digits_eq (a : Z) :
  0 <= a ->
  digits a = if a <? 10 then [a] else a mod 10 :: digits (a / 10).
Proof.
  intros Ha. unfold digits at 1. unfold loop_bound at 1.
  cbn [digits_fuel]. destruct (a <? 10) eqn:E; [reflexivity|].
  apply Z.ltb_ge in E. f_equal.
  pose proof (loop_bound_pow2 a Ha) as Hb. unfold loop_bound in Hb.
  remember (Z.to_nat (Z.log2 a)) as k eqn:Hk.
  destruct k as [|k].
  - change (2 ^ Z.of_nat 1) with 2 in Hb. lia.
  - unfold digits, loop_bound. apply digits_fuel_indep.
    + apply div10_pow2. lia.
    + apply (loop_bound_pow2 (a / 10)). apply Z.div_pos; lia.
Qed.

Lemma digits_small (a : Z) : 0 <= a < 10 -> digits a = [a].
Proof.
  intros H. rewrite digits_eq by lia.
  destruct (a <? 10) eqn:E; [reflexivity|]. apply Z.ltb_ge in E. lia.
Qed.

Lemma digits_large (a : Z) :
  10 <= a -> digits a = a mod 10 :: digits (a / 10).
Proof.
  intros H. rewrite digits_eq by lia.
  destruct (a <? 10) eqn:E; [|reflexivity]. apply Z.ltb_lt in E. lia.
Qed.

(** Induction on the decimal representation. *)
Lemma digits_ind (P : Z -> Prop) :
  (forall a, 0 <= a < 10 -> P a) ->
  (forall a, 10 <= a -> P (a / 10) -> P a) ->
  forall a, 0 <= a -> P a.
Proof.
  intros Hs Hl a Ha.
  cut (0 <= a -> P a); [intros Hc; exact (Hc Ha)|].
  apply (Z_lt_induction (fun x => 0 <= x -> P x)); [|exact Ha].
  clear a Ha. intros a IH Ha.
  destruct (Z_lt_le_dec a 10) as [Hlt|Hge].
  - apply Hs. lia.
  - assert (0 <= a / 10 < a) as Hd.
    { split; [apply Z.div_pos; lia | apply Z.div_lt; lia]. }
    apply Hl; [exact Hge|]. apply IH; lia.
Qed.

Lemma div10_sub (a : Z) : (a - a mod 10) / 10 = a / 10.
Proof.
  rewrite (Z.div_mod a 10) at 1 by lia.
  replace (10 * (a / 10) + a mod 10 - a mod 10) with (a / 10 * 10) by lia.
  apply Z.div_mul. lia.
Qed.

Lemma int2intvec_loop_digits (fuel : nat) :
  forall (a : Z) (vec : list Z),
    0 <= a < 2 ^ Z.of_nat fuel ->
    int2intvec_loop fuel a vec =
    Ret (vec ++ if a =? 0 then [] else digits a).
Proof.
  induction fuel as [|fuel IH]; intros a vec Ha.
  - change (2 ^ Z.of_nat 0) with 1 in Ha. assert (a = 0) as -> by lia.
    cbn. rewrite app_nil_r. reflexivity.
  - cbn [int2intvec_loop]. destruct (a =? 0) eqn:E.
    + rewrite app_nil_r. reflexivity.
    + apply Z.eqb_neq in E. rewrite div10_sub.
      rewrite IH by (apply div10_pow2; exact Ha).
      rewrite <- app_assoc. f_equal. f_equal. cbn [app].
      destruct (Z_lt_le_dec a 10) as [Hlt|Hge].
      * rewrite (digits_small a) by lia.
        rewrite Z.div_small, Z.mod_small by lia. reflexivity.
      * rewrite (digits_large a) by lia.
        assert (1 <= a / 10) by (apply Z.div_le_lower_bound; lia).
        destruct (a / 10 =? 0) eqn:E'; [apply Z.eqb_eq in E'; lia|].
        reflexivity.
Qed.

(** On a natural number [int2intvec] returns the decimal digits. *)
Lemma int2intvec_digits (a : Z) : 0 <= a -> int2intvec a = Ret (digits a).
Proof.
  intros Ha. unfold int2intvec. rewrite div10_sub.
  rewrite int2intvec_loop_digits.
  - f_equal. cbn [app].
    destruct (Z_lt_le_dec a 10) as [Hlt|Hge].
    + rewrite (digits_small a) by lia.
      rewrite Z.div_small, Z.mod_small by lia. reflexivity.
    + rewrite (digits_large a) by lia.
      assert (1 <= a / 10) by (apply Z.div_le_lower_bound; lia).
      destruct (a / 10 =? 0) eqn:E'; [apply Z.eqb_eq in E'; lia|].
      reflexivity.
  - pose proof (loop_bound_pow2 a Ha).
    split; [apply Z.div_pos; lia|].
    apply Z.le_lt_trans with a; [|assumption].
    apply Z.div_le_upper_bound; lia.
Qed.

(** On a negative number the loop of [int2intvec] never reaches 0. *)
Lemma int2intvec_loop_negative (fuel : nat) :
  forall (a : Z) (vec : list Z), a < 0 -> int2intvec_loop fuel a vec = Diverge.
Proof.
  induction fuel as [|fuel IH]; intros a vec Ha; cbn [int2intvec_loop];
    (destruct (a =? 0) eqn:E; [apply Z.eqb_eq in E; lia|]).
  - reflexivity.
  - apply IH. rewrite div10_sub. apply Z.div_lt_upper_bound; lia.
Qed.

Lemma int2intvec_negative (a : Z) : a < 0 -> int2intvec a = Diverge.
Proof.
  intros Ha. unfold int2intvec. apply int2intvec_loop_negative.
  rewrite div10_sub. apply Z.div_lt_upper_bound; lia.
Qed.

Lemma digits_range (a : Z) :
  0 <= a -> Forall (fun d => 0 <= d <= 9) (digits a).
Proof.
  intros Ha. pattern a. apply digits_ind; [| |exact Ha]; clear a Ha.
  - intros a Ha. rewrite digits_small by lia. constructor; [lia|constructor].
  - intros a Ha IH. rewrite digits_large by lia. constructor; [|exact IH].
    pose proof (Z.mod_pos_bound a 10). lia.
Qed.

Lemma val_digits (a : Z) : 0 <= a -> val 10 (digits a) = a.
Proof.
  intros Ha. pattern a. apply digits_ind; [| |exact Ha]; clear a Ha.
  - intros a Ha. rewrite digits_small by lia. cbn. lia.
  - intros a Ha IH. rewrite digits_large by lia. cbn [val]. rewrite IH.
    pose proof (Z.div_mod a 10). lia.
Qed.

Lemma digits_nonempty (a : Z) : 0 <= a -> digits a <> [].
Proof.
  intros Ha. destruct (Z_lt_le_dec a 10).
  - rewrite digits_small by lia. discriminate.
  - rewrite digits_large by lia. discriminate.
Qed.

Lemma digits_length_bound (m : nat) :
  forall r : Z,
    0 <= r < 10 ^ Z.of_nat (S m) -> (length (digits r) <= S m)%nat.
Proof.
  induction m as [|m IH]; intros r Hr.
  - change (10 ^ Z.of_nat 1) with 10 in Hr. rewrite digits_small by lia.
    cbn [length]. lia.
  - destruct (Z_lt_le_dec r 10) as [Hlt|Hge].
    + rewrite digits_small by lia. cbn [length]. lia.
    + rewrite digits_large by exact Hge. cbn [length].
      apply le_n_S. apply IH.
      rewrite (Nat2Z.inj_succ (S m)), Z.pow_succ_r in Hr by lia. split.
      * apply Z.div_pos; lia.
      * apply Z.div_lt_upper_bound; lia.
Qed.

End Digits.

(** ** Strings of digits *)

(** Case analysis on a symbol 0..6. *)
Ltac symbol_cases d :=
  let H := fresh "H" in
  assert (d = 0 \/ d = 1 \/ d = 2 \/ d = 3 \/ d = 4 \/ d = 5 \/ d = 6)
    as H by lia;
  repeat (destruct H as [H|H]; [subst d|]); [..|subst d].

(** Case analysis on a decimal digit. *)
Ltac digit_cases d :=
  let H := fresh "H" in
  assert (d = 0 \/ d = 1 \/ d = 2 \/ d = 3 \/ d = 4 \/ d = 5 \/ d = 6 \/
          d = 7 \/ d = 8 \/ d = 9) as H by lia;
  repeat (destruct H as [H|H]; [subst d|]); [..|subst d].

Section Strings.

Lemma int_of_char_digit (d : Z) :
  0 <= d <= 9 -> int_of_char (char_of_digit d) = Ret d.
Proof. intros Hd. digit_cases d; reflexivity. Qed.

Lemma char_of_digit_zero (d : Z) :
  0 <= d <= 9 -> Ascii.eqb (char_of_digit d) "0" = (d =? 0).
Proof. intros Hd. digit_cases d; reflexivity. Qed.

Lemma alphabet7_getitem (d : Z) :
  0 <= d <= 6 -> str_getitem ALPHABET7 d = Ret (char_of_digit d).
Proof. intros Hd. digit_cases d; try lia; reflexivity. Qed.

Lemma str_digits_S (fuel : nat) (n : Z) (acc : string) :
  str_digits (S fuel) n acc =
  if n / 10 =? 0 then String (char_of_digit (n mod 10)) acc
  else str_digits fuel (n / 10) (String (char_of_digit (n mod 10)) acc).
Proof. reflexivity. Qed.

Lemma str_digits_chars (fuel : nat) :
  forall (n : Z) (acc : string),
    0 <= n < 2 ^ Z.of_nat (S fuel) ->
    list_ascii_of_string (str_digits (S fuel) n acc) =
    rev (map char_of_digit (digits n)) ++ list_ascii_of_string acc.
Proof.
  induction fuel as [|fuel IH]; intros n acc Hn.
  - change (2 ^ Z.of_nat 1) with 2 in Hn.
    cbn [str_digits]. rewrite (digits_small n), Z.div_small by lia.
    rewrite Z.mod_small by lia. reflexivity.
  - rewrite str_digits_S. destruct (n / 10 =? 0) eqn:E.
    + apply Z.eqb_eq in E.
      assert (n < 10) by (apply Z.div_small_iff in E; lia).
      rewrite (digits_small n), Z.mod_small by lia. reflexivity.
    + apply Z.eqb_neq in E.
      assert (10 <= n).
      { destruct (Z_lt_le_dec n 10); [|assumption].
        rewrite Z.div_small in E; lia. }
      rewrite (IH (n / 10)) by (apply div10_pow2; exact Hn).
      rewrite (digits_large n) by assumption.
      cbn [map rev list_ascii_of_string]. rewrite <- app_assoc. reflexivity.
Qed.

(** [str(n)] read backwards is the digits of [n], least significant
    first. *)
Lemma str_rev_digits (n : Z) :
  0 <= n ->
  rev (list_ascii_of_string (str n)) = map char_of_digit (digits n).
Proof.
  intros Hn. unfold str.
  destruct (n <? 0) eqn:E; [apply Z.ltb_lt in E; lia|].
  unfold loop_bound. rewrite str_digits_chars.
  - cbn [list_ascii_of_string]. rewrite app_nil_r. apply rev_involutive.
  - pose proof (loop_bound_pow2 n Hn). unfold loop_bound in *. lia.
Qed.

Lemma str_is_zero (n : Z) :
  0 <= n -> String.eqb (str n) "0" = (n =? 0).
Proof.
  intros Hn. destruct (String.eqb (str n) "0") eqn:E.
  - apply String.eqb_eq in E.
    pose proof (str_rev_digits n Hn) as Hr. rewrite E in Hr.
    change (rev (list_ascii_of_string "0")) with ["0"%char] in Hr.
    symmetry. apply Z.eqb_eq.
    rewrite <- (val_digits n Hn).
    pose proof (digits_range n Hn) as Hf.
    destruct (digits n) as [|d [|d' l]]; try discriminate Hr.
    inversion Hf as [|? ? Hd _]; subst.
    cbn [map] in Hr. injection Hr as Hc.
    pose proof (char_of_digit_zero d Hd) as Hz. rewrite <- Hc in Hz.
    cbn in Hz. symmetry in Hz. apply Z.eqb_eq in Hz. subst d. reflexivity.
  - apply String.eqb_neq in E. symmetry. apply Z.eqb_neq. intros ->.
    apply E. reflexivity.
Qed.

Lemma int_of_chars_digits (m : list Z) :
  forall acc : Z,
    Forall (fun d => 0 <= d <= 9) m ->
    int_of_chars (map char_of_digit m) acc =
    Ret (fold_left (fun r d => r * 10 + d) m acc).
Proof.
  induction m as [|d m IH]; intros acc Hm; [reflexivity|].
  inversion Hm as [|? ? Hd Hm']; subst.
  cbn [map int_of_chars fold_left]. rewrite int_of_char_digit by exact Hd.
  cbn [bind]. apply IH. exact Hm'.
Qed.

Lemma fold_left_rev_val (l : list Z) :
  fold_left (fun r d => r * 10 + d) (rev l) 0 = val 10 l.
Proof.
  induction l as [|d l IH]; [reflexivity|].
  cbn [rev val]. rewrite fold_left_app. cbn [fold_left]. rewrite IH. lia.
Qed.

(** [int(s)] on the digits [l] written most significant first. *)
Lemma int_of_string_digits (l : list Z) :
  l <> [] -> Forall (fun d => 0 <= d <= 9) l ->
  int_of_string (rev (map char_of_digit l)) = Ret (val 10 l).
Proof.
  intros Hne Hl. unfold int_of_string.
  rewrite <- map_rev.
  destruct (map char_of_digit (rev l)) eqn:E.
  - apply map_eq_nil in E. apply (f_equal (@rev Z)) in E.
    rewrite rev_involutive in E. contradiction.
  - rewrite <- E. rewrite int_of_chars_digits.
    + rewrite fold_left_rev_val. reflexivity.
    + apply Forall_rev. exact Hl.
Qed.

End Strings.

(** ** Conversion between spiral addresses and positions *)

Section BaseConversion.

Lemma is_address_spec (a : Z) :
  is_address a = true <-> 0 <= a /\ Forall (fun d => 0 <= d <= 6) (digits a).
Proof.
  unfold is_address. rewrite andb_true_iff, Z.leb_le, forallb_forall.
  split.
  - intros [Ha Hd]. split; [exact Ha|].
    pose proof (digits_range a Ha) as Hr. rewrite Forall_forall in *.
    intros d Hin. specialize (Hd d Hin). apply Z.leb_le in Hd.
    specialize (Hr d Hin). lia.
  - intros [Ha Hd]. split; [exact Ha|]. rewrite Forall_forall in Hd.
    intros d Hin. apply Z.leb_le. apply Hd. exact Hin.
Qed.

Lemma is_address_div10 (a : Z) :
  10 <= a -> is_address a = true ->
  0 <= a mod 10 <= 6 /\ is_address (a / 10) = true.
Proof.
  intros Ha H. apply is_address_spec in H. destruct H as [_ H].
  rewrite digits_large in H by exact Ha.
  inversion H as [|? ? Hd Hl]; subst. split; [exact Hd|].
  apply is_address_spec. split; [apply Z.div_pos; lia | exact Hl].
Qed.

Lemma is_address_small (a : Z) :
  0 <= a < 10 -> is_address a = true -> a <= 6.
Proof.
  intros Ha H. apply is_address_spec in H. destruct H as [_ H].
  rewrite digits_small in H by exact Ha.
  inversion H as [|? ? Hd _]; subst. lia.
Qed.

Lemma int64_small (z : Z) : - 2 ^ 63 <= z < 2 ^ 63 -> int64 z = z.
Proof. intros Hz. unfold int64. rewrite Z.mod_small by lia. lia. Qed.

Lemma int64_add_r (x y : Z) : int64 (x + int64 y) = int64 (x + y).
Proof.
  unfold int64. f_equal.
  replace (x + ((y + 2 ^ 63) mod 2 ^ 64 - 2 ^ 63) + 2 ^ 63)
    with (x + (y + 2 ^ 63) mod 2 ^ 64) by lia.
  rewrite Zplus_mod_idemp_r. f_equal. lia.
Qed.

Lemma int64_add_l (x y : Z) : int64 (int64 x + y) = int64 (x + y).
Proof. rewrite (Z.add_comm (int64 x)), int64_add_r. f_equal. lia. Qed.

Lemma pow7_int64 (i : nat) : (i <= 22)%nat -> 7 ^ Z.of_nat i < 2 ^ 63.
Proof.
  intros Hi. assert (7 ^ Z.of_nat i <= 7 ^ 22) by (apply Z.pow_le_mono_r; lia).
  assert (7 ^ 22 < 2 ^ 63) by reflexivity. lia.
Qed.

Lemma val7_list_nonneg (arr : list Z) :
  Forall (fun d => 0 <= d) arr -> 0 <= val 7 arr.
Proof. intros Hl. induction Hl as [|d l Hd _ IH]; cbn [val]; lia. Qed.

(** While no sum reaches [2^63] the loop of [base7to10] adds up the digits
    with the weights [7^i], as on unbounded integers. *)
Lemma base7to10_loop_val (arr : list Z) :
  forall (i : nat) (num : Z),
    Forall (fun d => 0 <= d) arr -> 0 <= num ->
    num + 7 ^ Z.of_nat i * val 7 arr < 2 ^ 63 ->
    base7to10_loop arr i num = num + 7 ^ Z.of_nat i * val 7 arr.
Proof.
  induction arr as [|d arr IH]; intros i num Hl Hnum Hlt;
    cbn [base7to10_loop val] in *.
  - lia.
  - inversion Hl as [|? ? Hd Hl']; subst. cbv zeta.
    pose proof (val7_list_nonneg arr Hl') as Hv.
    assert (0 < 7 ^ Z.of_nat i) as Hp by (apply Z.pow_pos_nonneg; lia).
    assert (0 <= d * 7 ^ Z.of_nat i) as Hdp by nia.
    assert (0 <= 7 ^ Z.of_nat i * (7 * val 7 arr)) as Hrest by nia.
    assert (7 ^ Z.of_nat i * (d + 7 * val 7 arr) =
            d * 7 ^ Z.of_nat i + 7 ^ Z.of_nat i * (7 * val 7 arr)) as Hsplit
      by ring.
    assert ((if 7 ^ Z.of_nat i <? 2 ^ 63
             then int64 (num + int64 (d * 7 ^ Z.of_nat i))
             else num + d * 7 ^ Z.of_nat i) = num + d * 7 ^ Z.of_nat i) as ->.
    { destruct (7 ^ Z.of_nat i <? 2 ^ 63); [|reflexivity].
      rewrite (int64_small (d * 7 ^ Z.of_nat i)) by lia.
      apply int64_small. lia. }
    rewrite IH; [|exact Hl'|lia|].
    + rewrite Nat2Z.inj_succ, Z.pow_succ_r by lia. lia.
    + rewrite Nat2Z.inj_succ, Z.pow_succ_r by lia. lia.
Qed.

(** Up to the index 22 every operation of the loop is one of numpy's
    [int64]: the result is the sum of the digits with the weights [7^i],
    wrapped around. *)
Lemma base7to10_loop_wrap (arr : list Z) :
  forall (i : nat) (num : Z),
    (i + length arr <= 23)%nat ->
    base7to10_loop arr i (int64 num) =
    int64 (num + 7 ^ Z.of_nat i * val 7 arr).
Proof.
  induction arr as [|d arr IH]; intros i num Hlen;
    cbn [base7to10_loop val length] in *.
  - f_equal. lia.
  - cbv zeta. pose proof (pow7_int64 i ltac:(lia)) as Hp.
    destruct (Z.ltb_spec (7 ^ Z.of_nat i) (2 ^ 63)) as [_|]; [|lia].
    rewrite int64_add_r, int64_add_l. rewrite IH by lia. f_equal.
    rewrite Nat2Z.inj_succ, Z.pow_succ_r by lia. ring.
Qed.

(** [base7to10] reads the decimal digits of its argument in base 7, as
    long as the number read is below [2^63]. *)
Lemma base7to10_val (a : Z) :
  0 <= a -> val 7 (digits a) < 2 ^ 63 ->
  base7to10 a = Ret (val 7 (digits a)).
Proof.
  intros Ha Hlt. unfold base7to10. rewrite int2intvec_digits by exact Ha.
  cbn [bind]. change (7 ^ Z.of_nat 0) with 1 in *.
  rewrite base7to10_loop_val.
  - f_equal. change (7 ^ Z.of_nat 0) with 1. lia.
  - eapply Forall_impl; [|apply digits_range; exact Ha].
    cbv beta. intros d Hd. lia.
  - lia.
  - change (7 ^ Z.of_nat 0) with 1. lia.
Qed.

(** On a number of at most 23 digits it returns that number wrapped
    around. *)
Lemma base7to10_wrap (a : Z) :
  0 <= a < 10 ^ 23 -> base7to10 a = Ret (int64 (val 7 (digits a))).
Proof.
  intros Ha. unfold base7to10. rewrite int2intvec_digits by lia.
  cbn [bind].
  change (base7to10_loop (digits a) 0 0)
    with (base7to10_loop (digits a) 0 (int64 0)).
  rewrite base7to10_loop_wrap.
  - do 2 f_equal. change (7 ^ Z.of_nat 0) with 1. lia.
  - pose proof (digits_length_bound 22 a Ha). lia.
Qed.

Lemma val7_nonneg (a : Z) : 0 <= a -> 0 <= val 7 (digits a).
Proof.
  intros Ha. pose proof (digits_range a Ha) as Hr.
  induction Hr as [|d l Hd _ IH]; cbn [val]; lia.
Qed.

Lemma val7_pos (a : Z) : 1 <= a -> 1 <= val 7 (digits a).
Proof.
  intros Ha. assert (0 <= a) as H0 by lia. revert Ha. pattern a.
  apply digits_ind; [| |exact H0]; clear a H0.
  - intros a Ha H1. rewrite digits_small by exact Ha. cbn [val]. lia.
  - intros a Ha IH _. rewrite digits_large by exact Ha. cbn [val].
    assert (1 <= a / 10) as Hq by (apply Z.div_le_lower_bound; lia).
    pose proof (Z.mod_pos_bound a 10). specialize (IH Hq). lia.
Qed.

Lemma base_encode_loop_digits (a : Z) :
  0 <= a ->
  1 <= a -> is_address a = true ->
  forall (fuel : nat) (arr : list ascii),
    val 7 (digits a) < 2 ^ Z.of_nat fuel ->
    base_encode_loop fuel (val 7 (digits a)) 7 ALPHABET7 arr =
    Ret (arr ++ map char_of_digit (digits a)).
Proof.
  intros H0. pattern a. apply digits_ind; [| |exact H0]; clear a H0.
  - intros a Ha H1 Hv fuel arr Hf.
    apply is_address_small in Hv; [|exact Ha].
    rewrite digits_small in * by exact Ha. cbn [val map] in *.
    replace (a + 7 * 0) with a in * by lia.
    destruct fuel as [|fuel].
    { change (2 ^ Z.of_nat 0) with 1 in Hf. lia. }
    cbn [base_encode_loop].
    destruct (a =? 0) eqn:E; [apply Z.eqb_eq in E; lia|].
    change (7 =? 0) with false. cbv iota.
    rewrite Z.mod_small, Z.div_small by lia.
    rewrite alphabet7_getitem by lia. cbn [bind].
    destruct fuel; reflexivity.
  - intros a Ha IH _ Hv fuel arr Hf.
    destruct (is_address_div10 a Ha Hv) as [Hd Hv'].
    assert (1 <= a / 10) as H1 by (apply Z.div_le_lower_bound; lia).
    pose proof (val7_pos (a / 10) H1) as Hp.
    rewrite digits_large in * by exact Ha. cbn [val map] in *.
    set (v := val 7 (digits (a / 10))) in *.
    destruct fuel as [|fuel].
    { change (2 ^ Z.of_nat 0) with 1 in Hf. lia. }
    cbn [base_encode_loop].
    destruct (a mod 10 + 7 * v =? 0) eqn:E; [apply Z.eqb_eq in E; lia|].
    change (7 =? 0) with false. cbv iota.
    assert ((a mod 10 + 7 * v) mod 7 = a mod 10) as ->.
    { rewrite (Z.mul_comm 7 v), Z.mod_add by lia.
      apply Z.mod_small. lia. }
    assert ((a mod 10 + 7 * v) / 7 = v) as ->.
    { rewrite (Z.mul_comm 7 v), Z.div_add by lia.
      rewrite (Z.div_small (a mod 10)) by lia. lia. }
    rewrite alphabet7_getitem by lia. cbn [bind].
    rewrite IH; [|exact H1|exact Hv'|].
    + rewrite <- app_assoc. reflexivity.
    + rewrite Nat2Z.inj_succ, Z.pow_succ_r in Hf by lia. lia.
Qed.

(** [base10to7] undoes [base7to10] on a spiral address. *)
Lemma base10to7_val (a : Z) :
  is_address a = true -> base10to7 (val 7 (digits a)) = Ret a.
Proof.
  intros Hv. pose proof Hv as Hs. apply is_address_spec in Hs.
  destruct Hs as [Ha Hd].
  unfold base10to7, base_encode.
  change (str_getitem ALPHABET7 0) with (Ret "0"%char). cbn [bind].
  rewrite str_is_zero by (apply val7_nonneg; exact Ha).
  destruct (val 7 (digits a) =? 0) eqn:E.
  - apply Z.eqb_eq in E. f_equal.
    destruct (Z.eq_dec a 0) as [->|Hn]; [reflexivity|].
    pose proof (val7_pos a). lia.
  - apply Z.eqb_neq in E.
    assert (1 <= a) as H1.
    { destruct (Z.eq_dec a 0) as [->|Hn]; [|lia]. exfalso. apply E.
      reflexivity. }
    rewrite base_encode_loop_digits; [|exact Ha|exact H1|exact Hv|].
    + cbn [bind app]. rewrite int_of_string_digits.
      * rewrite val_digits by exact Ha. reflexivity.
      * apply digits_nonempty. exact Ha.
      * apply digits_range. exact Ha.
    + apply loop_bound_pow2. apply val7_nonneg. exact Ha.
Qed.

Lemma val7_bound (l : list Z) :
  Forall (fun d => 0 <= d <= 6) l ->
  0 <= val 7 l < 7 ^ Z.of_nat (length l).
Proof.
  intros Hl. induction Hl as [|d l Hd _ IH].
  - cbn. lia.
  - cbn [val length]. rewrite Nat2Z.inj_succ, Z.pow_succ_r by lia. lia.
Qed.

(** The same for decimal digits of any size. *)
Lemma val7_bound9 (l : list Z) :
  Forall (fun d => 0 <= d <= 9) l ->
  0 <= 2 * val 7 l <= 3 * (7 ^ Z.of_nat (length l) - 1).
Proof.
  intros Hl. induction Hl as [|d l Hd _ IH].
  - cbn. lia.
  - cbn [val length]. rewrite Nat2Z.inj_succ, Z.pow_succ_r by lia. lia.
Qed.

(** A number of at most 22 digits is read below [2^63] in base 7, and so
    is every partial sum of [base7to10]. *)
Lemma val7_int64 (a : Z) :
  0 <= a < 10 ^ 22 -> 0 <= val 7 (digits a) < 2 ^ 63.
Proof.
  intros Ha. pose proof (val7_bound9 (digits a) (digits_range a ltac:(lia)))
    as Hv.
  pose proof (digits_length_bound 21 a Ha) as Hlen.
  assert (7 ^ Z.of_nat (length (digits a)) <= 7 ^ 22) as Hp
    by (apply Z.pow_le_mono_r; lia).
  assert (3 * (7 ^ 22 - 1) < 2 * 2 ^ 63) by reflexivity. lia.
Qed.

Lemma base7to10_int64 (a : Z) :
  is_address a = true -> a < 10 ^ 22 ->
  exists v, base7to10 a = Ret v /\ 0 <= v < 2 ^ 63.
Proof.
  intros Ha Hlt. pose proof Ha as Hs. apply is_address_spec in Hs.
  destruct Hs as [H0 Hd]. exists (val 7 (digits a)).
  pose proof (val7_int64 a ltac:(lia)) as Hv.
  split; [apply base7to10_val; lia|exact Hv].
Qed.

(** C4, as the code has it.  For every spiral address [a] (all decimal
    digits in 0..6) of at most 22 digits, and for every longer one whose
    position (the number that its digits write in base 7) is below [2^63],
    [base10to7(base7to10(a))] is [a]: [base7to10] returns the position and
    [base10to7] returns [a] on it.  In particular [base10to7(0)] is 0. *)
Theorem base10to7_base7to10 (a : Z) (Ha : is_address a = true)
    (Hv : a < 10 ^ 22 \/ val 7 (digits a) < 2 ^ 63) :
  (exists v, base7to10 a = Ret v /\ v = val 7 (digits a) /\
             base10to7 v = Ret a) /\
  (v <- base7to10 a ;; base10to7 v) = Ret a /\
  base10to7 0 = Ret 0.
Proof.
  pose proof Ha as Hs. apply is_address_spec in Hs. destruct Hs as [H0 _].
  assert (val 7 (digits a) < 2 ^ 63) as Hlt.
  { destruct Hv as [Hv|Hv]; [|exact Hv].
    apply (val7_int64 a). lia. }
  split; [|split].
  - exists (val 7 (digits a)). split; [|split; [reflexivity|]].
    + apply base7to10_val; assumption.
    + apply base10to7_val. exact Ha.
  - rewrite base7to10_val by assumption. cbn [bind].
    apply base10to7_val. exact Ha.
  - reflexivity.
Qed.

Lemma base10to7_base7to10_witness :
  (v <- base7to10 6543210123456012345606 ;; base10to7 v) =
  Ret 6543210123456012345606.
Proof.
  apply (base10to7_base7to10 6543210123456012345606).
  - reflexivity.
  - left. reflexivity.
Defined.

(** C4 as the specification states it fails on the spiral address
    [6 * 10^22], of 23 digits: its position [6 * 7^22] is above [2^63], the
    [int64] product wraps around to [6 * 7^22 - 2^64], and [base10to7]
    returns the address of that number. *)
Lemma base7to10_wraps :
  is_address 60000000000000000000000 = true /\
  base7to10 60000000000000000000000 = Ret 5012182217788376678 /\
  base10to7 5012182217788376678 = Ret 11654645144143532532065 /\
  ~ round_trip 60000000000000000000000.
Proof.
  split; [reflexivity|]. split; [vm_compute; reflexivity|].
  split; [vm_compute; reflexivity|].
  unfold round_trip. intros H. vm_compute in H. discriminate H.
Qed.

End BaseConversion.

(** ** Lattice geometry *)

Section Geometry.

Lemma vadd_0_l (u : vec2) : vadd (0, 0) u = u.
Proof. destruct u. reflexivity. Qed.

Lemma vadd_0_r (u : vec2) : vadd u (0, 0) = u.
Proof. destruct u as [x y]. unfold vadd. cbn [fst snd]. f_equal; lia. Qed.

Lemma vadd_assoc (u v w : vec2) : vadd (vadd u v) w = vadd u (vadd v w).
Proof. unfold vadd. cbn [fst snd]. f_equal; lia. Qed.

Lemma next_symbol_range (a : Z) : 1 <= a mod 6 + 1 <= 6.
Proof. pose proof (Z.mod_pos_bound a 6). lia. Qed.

(** On the seven symbols [sa2hex_aux] is the offset of the
    specification. *)
Lemma sa2hex_aux_offset (z : nat) :
  forall a : Z, 0 <= a <= 6 -> sa2hex_aux a z = Ret (offset a z).
Proof.
  induction z as [|z IH]; intros a Ha.
  - symbol_cases a; reflexivity.
  - cbn [sa2hex_aux offset]. rewrite IH by exact Ha. cbn [bind].
    rewrite IH by (pose proof (next_symbol_range a); lia). reflexivity.
Qed.

Lemma sa2hex_loop_offset_sum (l : list Z) :
  forall (i : nat) (hex_address : vec2),
    Forall (fun d => 0 <= d <= 6) l ->
    sa2hex_loop (map char_of_digit l) i hex_address =
    Ret (Some (vadd hex_address (offset_sum l i))).
Proof.
  induction l as [|d l IH]; intros i hex_address Hl.
  - cbn [map sa2hex_loop offset_sum]. rewrite vadd_0_r. reflexivity.
  - inversion Hl as [|? ? Hd Hl']; subst.
    cbn [map sa2hex_loop offset_sum].
    rewrite int_of_char_digit by lia. cbn [bind].
    assert ((d <? 0) || (d >? 6) = false) as ->.
    { apply orb_false_iff. split; [apply Z.ltb_ge; lia|].
      rewrite Z.gtb_ltb. apply Z.ltb_ge. lia. }
    rewrite char_of_digit_zero by lia.
    destruct (d =? 0) eqn:E; cbn [negb].
    + rewrite IH by exact Hl'. rewrite vadd_0_l. reflexivity.
    + rewrite sa2hex_aux_offset by exact Hd. cbn [bind].
      rewrite IH by exact Hl'. rewrite vadd_assoc. reflexivity.
Qed.

Lemma sa2hex_offset_sum (a : Z) :
  is_address a = true -> sa2hex a = Ret (Some (address_offset a)).
Proof.
  intros Ha. apply is_address_spec in Ha. destruct Ha as [H0 Hd].
  unfold sa2hex. rewrite str_rev_digits by exact H0.
  rewrite sa2hex_loop_offset_sum by exact Hd.
  rewrite vadd_0_l. reflexivity.
Qed.

(** C5. For every spiral address, [sa2hex] returns the sum, over the
    nonzero digits [d] at positions [i] (least significant is 0), of
    [offset(d, i)], where [offset] is the table at depth 0 and
    [offset(a,z) = offset(a,z-1) + 2*offset((a mod 6)+1, z-1)] above:
    [sa2hex_aux] computes exactly that offset on the seven symbols.  In
    particular [sa2hex(0)] is (0,0) and [sa2hex(1)] is (0,8). *)
Theorem sa2hex_address_offset (a : Z) (Ha : is_address a = true) :
  sa2hex a = Ret (Some (address_offset a)) /\
  (forall d z, 0 <= d <= 6 -> sa2hex_aux d z = Ret (offset d z)) /\
  (forall d z, 0 <= d <= 6 ->
     exists u v, sa2hex_aux d z = Ret u /\
                 sa2hex_aux (d mod 6 + 1) z = Ret v /\
                 sa2hex_aux d (S z) = Ret (vadd u (vscale 2 v))) /\
  map (fun d => sa2hex_aux d 0) [0; 1; 2; 3; 4; 5; 6] =
    map Ret [(0, 0); (0, 8); (-7, 4); (-7, -4); (0, -8); (7, -4); (7, 4)] /\
  sa2hex 0 = Ret (Some (0, 0)) /\
  sa2hex 1 = Ret (Some (0, 8)).
Proof.
  split; [|split; [|split; [|split; [|split]]]]; try reflexivity.
  - apply sa2hex_offset_sum. exact Ha.
  - intros d z Hz. apply sa2hex_aux_offset. exact Hz.
  - intros d z Hz. exists (offset d z), (offset (d mod 6 + 1) z).
    rewrite !sa2hex_aux_offset
      by (pose proof (next_symbol_range d); lia).
    repeat split.
Qed.

Lemma sa2hex_address_offset_witness :
  sa2hex 2051 = Ret (Some (address_offset 2051)).
Proof.
  apply (sa2hex_address_offset 2051). reflexivity.
Defined.

End Geometry.

(** ** Spiral addition *)

Section Lists.

Lemma getitem_app {A : Type} (pa l : list A) (x : A) :
  getitem (pa ++ x :: l) (length pa) = Ret x.
Proof.
  unfold getitem. rewrite nth_error_app2 by lia.
  rewrite Nat.sub_diag. reflexivity.
Qed.

Lemma getitem_app_S {A : Type} (pa l : list A) (x y : A) :
  getitem (pa ++ x :: y :: l) (S (length pa)) = Ret y.
Proof.
  unfold getitem. rewrite nth_error_app2 by lia.
  replace (S (length pa) - length pa)%nat with 1%nat by lia. reflexivity.
Qed.

Lemma setitem_app_S {A : Type} (pa l : list A) (x y c : A) :
  setitem (pa ++ x :: y :: l) (S (length pa)) c = Ret (pa ++ x :: c :: l).
Proof.
  induction pa as [|p pa IH]; [reflexivity|].
  cbn [app length setitem]. rewrite IH. reflexivity.
Qed.

Lemma nth_resize (l : list Z) (n i : nat) : nth i (resize l n) 0 = nth i l 0.
Proof.
  unfold resize. destruct (Nat.lt_ge_cases i (length l)) as [Hlt|Hge].
  - apply app_nth1. exact Hlt.
  - rewrite app_nth2 by exact Hge. rewrite (nth_overflow l) by exact Hge.
    apply nth_repeat.
Qed.

Lemma length_resize (l : list Z) (n : nat) :
  (length l <= n)%nat -> length (resize l n) = n.
Proof.
  intros H. unfold resize. rewrite length_app, repeat_length. lia.
Qed.

Lemma Forall2_of_nth (R : Z -> Z -> Prop) (la : list Z) :
  forall lb : list Z,
    length la = length lb ->
    (forall i, (i < length la)%nat -> R (nth i la 0) (nth i lb 0)) ->
    Forall2 R la lb.
Proof.
  induction la as [|a la IH]; intros [|b lb] Hlen Hn; try discriminate Hlen.
  - constructor.
  - constructor.
    + apply (Hn 0%nat). cbn. lia.
    + apply IH; [cbn in Hlen; lia|].
      intros i Hi. apply (Hn (S i)). cbn. lia.
Qed.

End Lists.

Section DigitFunction.

Lemma digit_0 (x : Z) : digit x 0 = x mod 10.
Proof. unfold digit. change (10 ^ Z.of_nat 0) with 1. rewrite Z.div_1_r. reflexivity. Qed.

Lemma digit_S (x : Z) (i : nat) : digit x (S i) = digit (x / 10) i.
Proof.
  unfold digit. rewrite Nat2Z.inj_succ, Z.pow_succ_r by lia.
  rewrite Z.div_div by (try apply Z.pow_pos_nonneg; lia). reflexivity.
Qed.

Lemma digit_zero (i : nat) : digit 0 i = 0.
Proof. unfold digit. rewrite Z.div_0_l; [reflexivity|]. apply Z.pow_nonzero; lia. Qed.

(** The list [digits x] holds the digits of [x] in the sense of [digit]. *)
Lemma nth_digits (x : Z) :
  0 <= x -> forall i, nth i (digits x) 0 = digit x i.
Proof.
  intros Hx. pattern x. apply digits_ind; [| |exact Hx]; clear x Hx.
  - intros x Hx i. rewrite digits_small by exact Hx. destruct i as [|i].
    + rewrite digit_0, Z.mod_small by lia. reflexivity.
    + rewrite digit_S, Z.div_small, digit_zero by lia. destruct i; reflexivity.
  - intros x Hx IH i. rewrite digits_large by exact Hx. destruct i as [|i].
    + rewrite digit_0. reflexivity.
    + rewrite digit_S. cbn [nth]. apply IH.
Qed.

Lemma val_nonneg (b : Z) (p : list Z) :
  0 <= b -> Forall (fun d => 0 <= d <= 9) p -> 0 <= val b p.
Proof.
  intros Hb Hp. induction Hp as [|d p Hd _ IH]; cbn [val]; [lia|nia].
Qed.

Lemma digit_val (p : list Z) :
  Forall (fun d => 0 <= d <= 9) p ->
  forall i, digit (val 10 p) i = nth i p 0.
Proof.
  intros Hp. induction Hp as [|d p Hd Hp IH]; intros i.
  - cbn [val]. rewrite digit_zero. destruct i; reflexivity.
  - cbn [val]. pose proof (val_nonneg 10 p ltac:(lia) Hp) as Hv.
    destruct i as [|i].
    + rewrite digit_0. cbn [nth].
      rewrite (Z.mul_comm 10), Z.mod_add by lia.
      apply Z.mod_small. lia.
    + rewrite digit_S. cbn [nth]. rewrite <- IH. f_equal.
      rewrite (Z.mul_comm 10), Z.div_add by lia.
      rewrite (Z.div_small d) by lia. lia.
Qed.

(** A natural number is a spiral address when each digit is at most 6. *)
Lemma is_address_digit (x : Z) :
  is_address x = true <-> 0 <= x /\ forall i, digit x i <= 6.
Proof.
  rewrite is_address_spec. split; intros [Hx Hd]; (split; [exact Hx|]).
  - intros i. rewrite <- nth_digits by exact Hx.
    destruct (Nat.lt_ge_cases i (length (digits x))) as [Hlt|Hge].
    + rewrite Forall_forall in Hd. apply (Hd (nth i (digits x) 0)).
      apply nth_In. exact Hlt.
    + rewrite nth_overflow by exact Hge. lia.
  - pose proof (digits_range x Hx) as Hr. rewrite Forall_forall in *.
    intros d Hin. specialize (Hr d Hin).
    destruct (In_nth _ _ 0 Hin) as [i [_ Hi]].
    specialize (Hd i). rewrite <- nth_digits, Hi in Hd by exact Hx. lia.
Qed.

Lemma val_repeat_0 (b : Z) (m : nat) : val b (repeat 0 m) = 0.
Proof.
  induction m as [|m IH]; [reflexivity|]. cbn [repeat val]. rewrite IH. lia.
Qed.

Lemma val_app (b : Z) (l l' : list Z) :
  val b (l ++ l') = val b l + b ^ Z.of_nat (length l) * val b l'.
Proof.
  induction l as [|d l IH].
  - cbn [app length val]. change (b ^ Z.of_nat 0) with 1. lia.
  - cbn [app length val]. rewrite IH, Nat2Z.inj_succ, Z.pow_succ_r by lia.
    lia.
Qed.

Lemma val_resize (l : list Z) (n : nat) : val 10 (resize l n) = val 10 l.
Proof. unfold resize. rewrite val_app, val_repeat_0. lia. Qed.

End DigitFunction.

Section Addition.

(** The indexed loop of [spiral_add] computes [add_digits] on the digits
    from the current position on. *)
Lemma spiral_add_loop_digits (rec : Z -> Z -> outcome (option Z)) (n : nat) :
  forall (la lb pa pb : list Z) (res : Z),
    length la = n -> length lb = n -> length pb = length pa ->
    spiral_add_loop rec n (length pa) (pa ++ la) (pb ++ lb) res =
    add_digits rec la lb (length pa) res.
Proof.
  induction n as [|n IH]; intros la lb pa pb res Hla Hlb Hp.
  - destruct la; [|discriminate Hla]. destruct lb; [|discriminate Hlb].
    reflexivity.
  - destruct la as [|ai la]; [discriminate Hla|].
    destruct lb as [|bi lb]; [discriminate Hlb|].
    cbn [spiral_add_loop]. rewrite getitem_app.
    assert (getitem (pb ++ bi :: lb) (length pa) = Ret bi) as ->
      by (rewrite <- Hp; apply getitem_app).
    cbn [bind].
    destruct la as [|ai1 la].
    + cbn [length] in Hla, Hlb.
      destruct n; [|discriminate Hla].
      destruct lb; [|discriminate Hlb].
      assert ((length pa =? length (pa ++ [ai]) - 1)%nat = true) as ->.
      { apply Nat.eqb_eq. rewrite length_app. cbn [length]. lia. }
      reflexivity.
    + assert ((length pa =? length (pa ++ ai :: ai1 :: la) - 1)%nat = false)
        as ->.
      { apply Nat.eqb_neq. rewrite length_app. cbn [length]. lia. }
      cbn [add_digits].
      destruct (rec ai bi) as [[temp|]| |]; cbn [bind]; try reflexivity.
      rewrite getitem_app_S. cbn [bind].
      destruct (rec ai1 ((temp - temp mod 10) / 10)) as [[carry_on|]| |];
        cbn [bind]; try reflexivity.
      rewrite setitem_app_S. cbn [bind].
      replace (pa ++ ai :: carry_on :: la)
        with ((pa ++ [ai]) ++ carry_on :: la)
        by (rewrite <- app_assoc; reflexivity).
      replace (pb ++ bi :: lb) with ((pb ++ [bi]) ++ lb)
        by (rewrite <- app_assoc; reflexivity).
      replace (S (length pa)) with (length (pa ++ [ai]))
        by (rewrite length_app; cbn [length]; lia).
      apply IH.
      * cbn [length] in *. lia.
      * cbn [length] in *. lia.
      * rewrite !length_app. cbn [length]. lia.
Qed.

Lemma add_digits_last (rec : Z -> Z -> outcome (option Z)) (ai bi : Z)
    (lb : list Z) (i : nat) (res : Z) :
  add_digits rec [ai] (bi :: lb) i res =
  (last <- rec ai bi ;;
   match last with
   | None => Raise TypeError
   | Some v => Ret (res + v * 10 ^ Z.of_nat i)
   end).
Proof. reflexivity. Qed.

Lemma add_digits_step (rec : Z -> Z -> outcome (option Z)) (ai ai1 bi : Z)
    (la lb : list Z) (i : nat) (res : Z) :
  add_digits rec (ai :: ai1 :: la) (bi :: lb) i res =
  (t <- rec ai bi ;;
   match t with
   | None => Raise TypeError
   | Some temp =>
       c <- rec ai1 ((temp - temp mod 10) / 10) ;;
       match c with
       | None => Raise ValueError
       | Some carry_on =>
           add_digits rec (carry_on :: la) lb (S i)
             (res + (temp mod 10) * 10 ^ Z.of_nat i)
       end
   end).
Proof. reflexivity. Qed.

Lemma spiral_add_rec_one_is_zero (k : nat) (a b : Z) :
  one_is_zero a b -> spiral_add_rec (S k) a b 0 = Ret (Some (a + b)).
Proof.
  intros [[-> Hb]|[-> Ha]].
  - symbol_cases b; reflexivity.
  - symbol_cases a; reflexivity.
Qed.

(** Where at each position one of the two digits is 0, no carry arises and
    the loop adds the operands as numbers. *)
Lemma add_digits_one_is_zero (k : nat) (la lb : list Z) :
  Forall2 one_is_zero la lb ->
  forall (i : nat) (res : Z),
    add_digits (fun x y => spiral_add_rec (S k) x y 0) la lb i res =
    Ret (res + 10 ^ Z.of_nat i * (val 10 la + val 10 lb)).
Proof.
  intros HF. induction HF as [|a b la lb Hab HF IH]; intros i res.
  - cbn [add_digits val]. f_equal. lia.
  - destruct HF as [|a1 b1 la lb Hab1 HF].
    + rewrite add_digits_last, spiral_add_rec_one_is_zero by exact Hab.
      cbn [bind val]. f_equal. lia.
    + rewrite add_digits_step, spiral_add_rec_one_is_zero by exact Hab.
      cbn [bind].
      assert (0 <= a + b <= 6) as Hs by (destruct Hab as [[? ?]|[? ?]]; lia).
      rewrite (Z.mod_small (a + b)) by lia.
      rewrite Z.sub_diag, Z.div_0_l by lia.
      rewrite spiral_add_rec_one_is_zero
        by (right; split; [reflexivity|destruct Hab1 as [[? ?]|[? ?]]; lia]).
      cbn [bind]. rewrite Z.add_0_r. rewrite IH. f_equal.
      cbn [val]. rewrite Nat2Z.inj_succ, Z.pow_succ_r by lia. lia.
Qed.

Lemma resize_nop (l : list Z) (n : nat) :
  (n <= length l)%nat -> resize l n = l.
Proof.
  intros Hn. unfold resize. replace (n - length l)%nat with 0%nat by lia.
  apply app_nil_r.
Qed.

(** Both vectors end up with the length of the longer. *)
Lemma resized_max (dig_a dig_b : list Z) :
  resized dig_a dig_b =
  (resize dig_a (Nat.max (length dig_a) (length dig_b)),
   resize dig_b (Nat.max (length dig_a) (length dig_b))).
Proof.
  unfold resized.
  destruct (length dig_a <? length dig_b)%nat eqn:E1.
  - apply Nat.ltb_lt in E1. rewrite Nat.max_r by lia.
    rewrite (resize_nop dig_b) by lia. reflexivity.
  - apply Nat.ltb_ge in E1. rewrite Nat.max_l by lia.
    rewrite (resize_nop dig_a) by lia.
    destruct (length dig_b <? length dig_a)%nat eqn:E2; [reflexivity|].
    apply Nat.ltb_ge in E2. rewrite (resize_nop dig_b) by lia. reflexivity.
Qed.

Lemma spiral_add_rec_S (depth : nat) (a b mod_ : Z) :
  spiral_add_rec (S depth) a b mod_ =
  (dig_a <- int2intvec a ;;
   dig_b <- int2intvec b ;;
   if out_of_range dig_a || out_of_range dig_b then Ret None
   else if (length dig_a =? 1)%nat && (length dig_b =? 1)%nat then
     v <- table_lookup addition_table a b ;; Ret (Some v)
   else
     let n := Nat.max (length dig_a) (length dig_b) in
     let dig_a := resize dig_a n in
     let dig_b := resize dig_b n in
     res <- spiral_add_loop (fun x y => spiral_add_rec depth x y 0)
              (length dig_a) 0 dig_a dig_b 0 ;;
     if negb (mod_ =? 0) then Ret (Some (res mod mod_)) else Ret (Some res)).
Proof.
  cbn [spiral_add_rec].
  destruct (int2intvec a) as [da| |]; [|reflexivity..].
  destruct (int2intvec b) as [db| |]; [|reflexivity..].
  cbn [bind]. rewrite resized_max. reflexivity.
Qed.

Lemma out_of_range_false (l : list Z) :
  Forall (fun d => 0 <= d <= 7) l -> out_of_range l = false.
Proof.
  intros Hl. unfold out_of_range. apply orb_false_iff.
  split; apply not_true_is_false; intros Hex;
    apply existsb_exists in Hex; destruct Hex as [d [Hin Hd]];
    rewrite Forall_forall in Hl; specialize (Hl d Hin).
  - apply Z.ltb_lt in Hd. lia.
  - rewrite Z.gtb_ltb in Hd. apply Z.ltb_lt in Hd. lia.
Qed.

Lemma digits_length_large (a : Z) :
  10 <= a -> (2 <= length (digits a))%nat.
Proof.
  intros Ha. rewrite digits_large by exact Ha. cbn [length].
  pose proof (digits_nonempty (a / 10)) as Hne.
  destruct (digits (a / 10)).
  - exfalso. apply Hne; [apply Z.div_pos; lia|reflexivity].
  - cbn [length]. lia.
Qed.

Lemma single_digit_test (x y : Z) :
  0 <= x -> 0 <= y -> 10 <= x \/ 10 <= y ->
  (length (digits x) =? 1)%nat && (length (digits y) =? 1)%nat = false.
Proof.
  intros Hx Hy [H|H]; apply andb_false_iff; [left|right];
    apply Nat.eqb_neq; pose proof (digits_length_large _ H); lia.
Qed.

(** The loop of [spiral_add] on two naturals of which one has two digits or
    more. *)
Lemma spiral_add_rec_long (depth : nat) (x y mod_ : Z) :
  0 <= x -> 0 <= y -> 10 <= x \/ 10 <= y ->
  Forall (fun d => 0 <= d <= 7) (digits x) ->
  Forall (fun d => 0 <= d <= 7) (digits y) ->
  spiral_add_rec (S depth) x y mod_ =
  (let n := Nat.max (length (digits x)) (length (digits y)) in
   res <- add_digits (fun x y => spiral_add_rec depth x y 0)
            (resize (digits x) n) (resize (digits y) n) 0 0 ;;
   if negb (mod_ =? 0) then Ret (Some (res mod mod_)) else Ret (Some res)).
Proof.
  intros Hx Hy Hl Hdx Hdy. rewrite spiral_add_rec_S.
  rewrite !int2intvec_digits by assumption. cbn [bind].
  rewrite !out_of_range_false by assumption. cbn [orb].
  rewrite single_digit_test by assumption. cbv zeta.
  set (n := Nat.max (length (digits x)) (length (digits y))).
  rewrite (spiral_add_loop_digits _ (length (resize (digits x) n))
             (resize (digits x) n) (resize (digits y) n) [] []);
    [reflexivity|reflexivity| |reflexivity].
  rewrite !length_resize by lia. reflexivity.
Qed.

Lemma address_digits_7 (x : Z) :
  is_address x = true -> Forall (fun d => 0 <= d <= 7) (digits x).
Proof.
  intros H. apply is_address_spec in H. destruct H as [_ H].
  eapply Forall_impl; [|exact H]. cbv beta. intros. lia.
Qed.

Lemma address_nonneg (x : Z) : is_address x = true -> 0 <= x.
Proof. intros H. apply is_address_spec in H. tauto. Qed.

(** Two spiral addresses that nowhere have a nonzero digit at the same
    position add as numbers. *)
Lemma spiral_add_rec_disjoint (k : nat) (x y : Z) :
  is_address x = true -> is_address y = true ->
  (forall i, digit x i = 0 \/ digit y i = 0) ->
  spiral_add_rec (S (S k)) x y 0 = Ret (Some (x + y)).
Proof.
  intros Hax Hay Hd.
  pose proof (address_nonneg x Hax) as Hx.
  pose proof (address_nonneg y Hay) as Hy.
  assert (forall i, one_is_zero (digit x i) (digit y i)) as Hone.
  { intros i. apply is_address_digit in Hax, Hay.
    destruct Hax as [_ Hax], Hay as [_ Hay].
    specialize (Hax i). specialize (Hay i).
    assert (0 <= digit x i /\ 0 <= digit y i) as [? ?].
    { unfold digit. split; apply Z.mod_pos_bound; lia. }
    destruct (Hd i); [left|right]; lia. }
  destruct (Z_lt_le_dec x 10) as [Hx10|Hx10];
    [destruct (Z_lt_le_dec y 10) as [Hy10|Hy10]|].
  - apply spiral_add_rec_one_is_zero.
    specialize (Hone 0%nat). rewrite !digit_0, !Z.mod_small in Hone by lia.
    exact Hone.
  - rewrite spiral_add_rec_long; auto using address_digits_7.
    cbv zeta. rewrite add_digits_one_is_zero.
    + cbn [bind]. rewrite !val_resize, !val_digits by assumption.
      change (negb (0 =? 0)) with false. cbv iota. f_equal. f_equal.
      change (10 ^ Z.of_nat 0) with 1. lia.
    + apply Forall2_of_nth.
      * rewrite !length_resize by lia. reflexivity.
      * intros i _. rewrite !nth_resize, !nth_digits by assumption.
        apply Hone.
  - rewrite spiral_add_rec_long; auto using address_digits_7.
    cbv zeta. rewrite add_digits_one_is_zero.
    + cbn [bind]. rewrite !val_resize, !val_digits by assumption.
      change (negb (0 =? 0)) with false. cbv iota. f_equal. f_equal.
      change (10 ^ Z.of_nat 0) with 1. lia.
    + apply Forall2_of_nth.
      * rewrite !length_resize by lia. reflexivity.
      * intros i _. rewrite !nth_resize, !nth_digits by assumption.
        apply Hone.
Qed.

End Addition.

(** ** Spiral multiplication *)

Section Multiplication.

Lemma nth_le_6 (l : list Z) (i : nat) :
  Forall (fun d => 0 <= d <= 6) l -> 0 <= nth i l 0 <= 6.
Proof.
  intros Hl. destruct (Nat.lt_ge_cases i (length l)) as [Hlt|Hge].
  - rewrite Forall_forall in Hl. apply Hl. apply nth_In. exact Hlt.
  - rewrite nth_overflow by exact Hge. lia.
Qed.

Lemma Forall_6_9 (l : list Z) :
  Forall (fun d => 0 <= d <= 6) l -> Forall (fun d => 0 <= d <= 9) l.
Proof. intros H. eapply Forall_impl; [|exact H]. cbv beta. intros. lia. Qed.

(** The number written by digits in 0..6 is a spiral address. *)
Lemma is_address_val (l : list Z) :
  Forall (fun d => 0 <= d <= 6) l -> is_address (val 10 l) = true.
Proof.
  intros Hl. apply is_address_digit. split.
  - apply val_nonneg; [lia|]. apply Forall_6_9. exact Hl.
  - intros i. rewrite digit_val by (apply Forall_6_9; exact Hl).
    apply nth_le_6. exact Hl.
Qed.

Lemma val_shift (d : Z) (j : nat) :
  val 10 (repeat 0 j ++ [d]) = d * 10 ^ Z.of_nat j.
Proof.
  rewrite val_app, val_repeat_0, repeat_length. cbn [val]. lia.
Qed.

Lemma Forall_shift (d : Z) (j : nat) :
  0 <= d <= 6 -> Forall (fun d => 0 <= d <= 6) (repeat 0 j ++ [d]).
Proof.
  intros Hd. apply Forall_app. split.
  - apply Forall_forall. intros e He. apply repeat_spec in He. lia.
  - constructor; [exact Hd|constructor].
Qed.

(** Adding the digit [d] at the position after the digits [pre]. *)
Lemma spiral_add_next_digit (pre : list Z) (d : Z) :
  Forall (fun d => 0 <= d <= 6) pre -> 0 <= d <= 6 ->
  spiral_add (val 10 pre) (d * 10 ^ Z.of_nat (length pre)) 0 =
  Ret (Some (val 10 (pre ++ [d]))).
Proof.
  intros Hpre Hd. unfold spiral_add.
  rewrite <- val_shift. rewrite spiral_add_rec_disjoint.
  - rewrite val_shift, val_app. cbn [val]. do 2 f_equal. lia.
  - apply is_address_val. exact Hpre.
  - apply is_address_val. apply Forall_shift. exact Hd.
  - intros i.
    rewrite !digit_val
      by (apply Forall_6_9; try apply Forall_shift; assumption).
    destruct (Nat.lt_ge_cases i (length pre)) as [Hlt|Hge].
    + right. rewrite app_nth1 by (rewrite repeat_length; exact Hlt).
      apply nth_repeat.
    + left. apply nth_overflow. exact Hge.
Qed.

Lemma mult_by_one (d : Z) :
  0 <= d <= 6 -> table_lookup multiplication_table d 1 = Ret d.
Proof.
  intros Hd.
  symbol_cases d; reflexivity.
Qed.

Lemma mult_by_zero (d : Z) :
  0 <= d <= 6 ->
  table_lookup multiplication_table d 0 = Ret 0 /\
  table_lookup multiplication_table 0 d = Ret 0.
Proof.
  intros Hd.
  symbol_cases d; split; reflexivity.
Qed.

(** Multiplying by 1 copies the digits one after the other. *)
Lemma spiral_mult_inner_one (post : list Z) :
  forall pre : list Z,
    Forall (fun d => 0 <= d <= 6) pre ->
    Forall (fun d => 0 <= d <= 6) post ->
    spiral_mult_inner post 1 0 (length pre) (Some (val 10 pre)) =
    Ret (Some (val 10 (pre ++ post))).
Proof.
  induction post as [|d post IH]; intros pre Hpre Hpost.
  - rewrite app_nil_r. reflexivity.
  - inversion Hpost as [|? ? Hd Hpost']; subst.
    cbn [spiral_mult_inner]. rewrite mult_by_one by exact Hd.
    cbn [bind Nat.add]. rewrite spiral_add_next_digit by assumption.
    cbn [bind].
    replace (S (length pre)) with (length (pre ++ [d]))
      by (rewrite length_app; cbn [length]; lia).
    rewrite IH.
    + rewrite <- app_assoc. reflexivity.
    + apply Forall_app. split; [exact Hpre|]. constructor; [exact Hd|constructor].
    + exact Hpost'.
Qed.

(** Multiplying by the symbol 0 leaves the accumulator at 0. *)
Lemma spiral_mult_inner_zero (dig_a : list Z) :
  forall i j : nat,
    Forall (fun d => 0 <= d <= 6) dig_a ->
    spiral_mult_inner dig_a 0 i j (Some 0) = Ret (Some 0).
Proof.
  induction dig_a as [|d dig_a IH]; intros i j Hl; [reflexivity|].
  inversion Hl as [|? ? Hd Hl']; subst.
  cbn [spiral_mult_inner].
  rewrite (proj1 (mult_by_zero d Hd)). cbn [bind].
  rewrite Z.mul_0_l. change (spiral_add 0 0 0) with (Ret (Some 0)).
  cbn [bind]. apply IH. exact Hl'.
Qed.

Lemma spiral_mult_outer_zero (dig_b : list Z) :
  forall i : nat,
    Forall (fun d => 0 <= d <= 6) dig_b ->
    spiral_mult_outer [0] dig_b i (Some 0) = Ret (Some 0).
Proof.
  induction dig_b as [|d dig_b IH]; intros i Hl; [reflexivity|].
  inversion Hl as [|? ? Hd Hl']; subst.
  cbn [spiral_mult_outer spiral_mult_inner].
  rewrite (proj2 (mult_by_zero d Hd)). cbn [bind].
  rewrite Z.mul_0_l. change (spiral_add 0 0 0) with (Ret (Some 0)).
  cbn [bind]. apply IH. exact Hl'.
Qed.

Lemma spiral_mult_unfold (a b : Z) :
  is_address a = true -> is_address b = true ->
  spiral_mult a b 0 = spiral_mult_outer (digits a) (digits b) 0 (Some 0).
Proof.
  intros Ha Hb. unfold spiral_mult.
  rewrite !int2intvec_digits by (apply address_nonneg; assumption).
  cbn [bind]. rewrite !out_of_range_false by (apply address_digits_7; assumption).
  cbn [orb]. change (negb (0 =? 0)) with false. cbv iota.
  destruct (spiral_mult_outer (digits a) (digits b) 0 (Some 0)); reflexivity.
Qed.

(** C8. For every spiral address [a], [spiral_mult(a, 1)] is [a] and
    [spiral_mult(a, 0)] is 0; the second holds with the operands in either
    order: [spiral_mult(0, a)] is 0 as well. *)
Theorem spiral_mult_identity (a : Z) (Ha : is_address a = true) :
  spiral_mult a 1 0 = Ret (Some a) /\
  spiral_mult a 0 0 = Ret (Some 0) /\
  spiral_mult 0 a 0 = Ret (Some 0).
Proof.
  pose proof Ha as Hs. apply is_address_spec in Hs. destruct Hs as [H0 Hd].
  split; [|split].
  - rewrite spiral_mult_unfold by (exact Ha || reflexivity).
    change (digits 1) with [1]. cbn [spiral_mult_outer].
    pose proof (spiral_mult_inner_one (digits a) [] (Forall_nil _) Hd) as Hi.
    cbn [length val app] in Hi. rewrite Hi.
    cbn [bind]. rewrite val_digits by exact H0. reflexivity.
  - rewrite spiral_mult_unfold by (exact Ha || reflexivity).
    change (digits 0) with [0]. cbn [spiral_mult_outer].
    rewrite spiral_mult_inner_zero by exact Hd. reflexivity.
  - rewrite spiral_mult_unfold by (exact Ha || reflexivity).
    change (digits 0) with [0]. apply spiral_mult_outer_zero. exact Hd.
Qed.

Lemma spiral_mult_identity_witness :
  spiral_mult 2051 1 0 = Ret (Some 2051) /\
  spiral_mult 2051 0 0 = Ret (Some 0) /\
  spiral_mult 0 2051 0 = Ret (Some 0).
Proof.
  apply (spiral_mult_identity 2051). reflexivity.
Defined.

End Multiplication.

(** ** The nesting of the recursive calls of [spiral_add] *)

Section Depth.

(** Adding a symbol to an entry of the addition table takes one nested
    call and gives an address of at most two digits. *)
Lemma small_sums (k : nat) :
  forallb (fun x =>
    forallb (fun y => small_sum (spiral_add_rec (S (S k)) x y 0))
      (symbols_upto 6))
    table_entries = true.
Proof. vm_compute. reflexivity. Qed.

Lemma entry_sums (k : nat) :
  forallb (fun x =>
    forallb (fun y => entry_result (spiral_add_rec (S k) x y 0))
      (symbols_upto 6))
    (symbols_upto 6) = true.
Proof. vm_compute. reflexivity. Qed.

(** With the digit 7, which the guard of [spiral_add] lets through, the
    same holds or the table is indexed out of its range; the outcome is
    that of the call nested twice. *)
Lemma small_sums_7 (k : nat) :
  forallb (fun x =>
    forallb (fun y =>
      small_sum_or_index_error (spiral_add_rec (S (S k)) x y 0) &&
      outcome_eqb (spiral_add_rec (S (S k)) x y 0) (spiral_add_rec 2 x y 0))
      (symbols_upto 7))
    (7 :: table_entries) = true.
Proof. vm_compute. reflexivity. Qed.

Lemma entry_sums_7 (k : nat) :
  forallb (fun x =>
    forallb (fun y =>
      entry_result_or_index_error (spiral_add_rec (S (S k)) x y 0) &&
      outcome_eqb (spiral_add_rec (S (S k)) x y 0) (spiral_add_rec 2 x y 0))
      (symbols_upto 6))
    (symbols_upto 7) = true.
Proof. vm_compute. reflexivity. Qed.

Lemma in_symbols_upto (top : nat) (y : Z) :
  0 <= y <= Z.of_nat top -> In y (symbols_upto top).
Proof.
  intros Hy. unfold symbols_upto. rewrite <- (Z2Nat.id y) by lia.
  apply in_map. apply in_seq. lia.
Qed.

Lemma outcome_eqb_eq (r1 r2 : outcome (option Z)) :
  outcome_eqb r1 r2 = true -> r1 = r2.
Proof.
  destruct r1 as [[x|]|e1|], r2 as [[y|]|e2|]; cbn; try discriminate.
  - intros H. apply Z.eqb_eq in H. subst. reflexivity.
  - reflexivity.
  - destruct e1, e2; cbn; try discriminate; reflexivity.
  - reflexivity.
Qed.

Lemma is_entry_In (t : Z) : is_entry t = true -> In t table_entries.
Proof.
  unfold is_entry. intros H. apply existsb_exists in H.
  destruct H as [x [Hin Hx]]. apply Z.eqb_eq in Hx. subst. exact Hin.
Qed.

Lemma symbol_is_entry (d : Z) : 0 <= d <= 6 -> In d table_entries.
Proof.
  intros Hd. apply is_entry_In.
  symbol_cases d; reflexivity.
Qed.

Lemma small_sum_spec (k : nat) (x y : Z) :
  In x table_entries -> 0 <= y <= 6 ->
  exists t, spiral_add_rec (S (S k)) x y 0 = Ret (Some t) /\
            0 <= t <= 66 /\ 0 <= t mod 10 <= 6.
Proof.
  intros Hx Hy. pose proof (small_sums k) as H.
  rewrite forallb_forall in H. specialize (H x Hx).
  rewrite forallb_forall in H.
  specialize (H y (in_symbols_upto 6 y ltac:(lia))).
  destruct (spiral_add_rec (S (S k)) x y 0) as [[t|]| |]; try discriminate H.
  exists t. cbn [small_sum] in H.
  apply andb_true_iff in H. destruct H as [H H3].
  apply andb_true_iff in H. destruct H as [H1 H2].
  apply Z.leb_le in H1, H2, H3. pose proof (Z.mod_pos_bound t 10).
  split; [reflexivity|lia].
Qed.

Lemma entry_sum_spec (k : nat) (x y : Z) :
  0 <= x <= 6 -> 0 <= y <= 6 ->
  exists t, spiral_add_rec (S k) x y 0 = Ret (Some t) /\ In t table_entries.
Proof.
  intros Hx Hy. pose proof (entry_sums k) as H.
  rewrite forallb_forall in H.
  specialize (H x (in_symbols_upto 6 x ltac:(lia))).
  rewrite forallb_forall in H.
  specialize (H y (in_symbols_upto 6 y ltac:(lia))).
  destruct (spiral_add_rec (S k) x y 0) as [[t|]| |]; try discriminate H.
  exists t. split; [reflexivity|]. apply is_entry_In. exact H.
Qed.

Lemma carry_range (t : Z) :
  0 <= t <= 66 -> 0 <= (t - t mod 10) / 10 <= 6.
Proof.
  intros Ht. rewrite div10_sub.
  assert (0 <= t / 10) by (apply Z.div_pos; lia).
  assert (t / 10 < 7) by (apply Z.div_lt_upper_bound; lia).
  lia.
Qed.

Lemma val10_bound (l : list Z) :
  Forall (fun d => 0 <= d <= 6) l ->
  0 <= val 10 l < 10 ^ Z.of_nat (length l).
Proof.
  intros Hl. induction Hl as [|d l Hd _ IH].
  - cbn. lia.
  - cbn [val length]. rewrite Nat2Z.inj_succ, Z.pow_succ_r by lia. lia.
Qed.

(** The two digits of an address below 67. *)
Lemma small_sum_digits (t : Z) :
  0 <= t <= 66 -> 0 <= t mod 10 <= 6 ->
  Forall (fun d => 0 <= d <= 6) [t mod 10; t / 10] /\
  val 10 [t mod 10; t / 10] = t.
Proof.
  intros Ht Hm. pose proof (carry_range t Ht) as Hc. rewrite div10_sub in Hc.
  split.
  - repeat constructor; lia.
  - cbn [val]. pose proof (Z.div_mod t 10). lia.
Qed.

(** On spiral addresses the loop of [spiral_add] ends, having written a
    digit in 0..6 at each weight from [10^i] up to one weight above the top
    position. *)
Lemma add_digits_address (k : nat) (lb : list Z) :
  forall (la : list Z) (a : Z) (i : nat) (res : Z) (m : nat),
    In a table_entries ->
    Forall (fun d => 0 <= d <= 6) la ->
    Forall (fun d => 0 <= d <= 6) lb ->
    length la = m -> length lb = S m ->
    exists ds,
      Forall (fun d => 0 <= d <= 6) ds /\
      length ds = S (S m) /\
      add_digits (fun x y => spiral_add_rec (S (S k)) x y 0) (a :: la) lb i res
      = Ret (res + 10 ^ Z.of_nat i * val 10 ds).
Proof.
  induction lb as [|b lb IH]; intros la a i res m Ha Hla Hlb Hm Hn;
    [discriminate Hn|].
  inversion Hlb as [|? ? Hb Hlb']; subst.
  destruct la as [|a1 la].
  - rewrite add_digits_last.
    destruct (small_sum_spec k a b Ha Hb) as [t [-> [Ht Htm]]].
    cbn [bind length]. destruct (small_sum_digits t Ht Htm) as [Hds Hv].
    exists [t mod 10; t / 10]. split; [exact Hds|]. split; [reflexivity|].
    rewrite Hv. f_equal. lia.
  - inversion Hla as [|? ? Ha1 Hla']; subst.
    rewrite add_digits_step.
    destruct (small_sum_spec k a b Ha Hb) as [t [-> [Ht Htm]]].
    cbn [bind].
    destruct (entry_sum_spec (S k) a1 _ Ha1 (carry_range t Ht))
      as [c [-> Hc]].
    cbn [bind].
    destruct (IH la c (S i) (res + t mod 10 * 10 ^ Z.of_nat i) (length la)
                Hc Hla' Hlb' eq_refl) as [ds [Hds [Hlen Hr]]].
    { cbn [length] in Hn. lia. }
    exists (t mod 10 :: ds). split; [constructor; assumption|].
    split; [cbn [length]; lia|].
    rewrite Hr. f_equal. cbn [val].
    rewrite Nat2Z.inj_succ, Z.pow_succ_r by lia. lia.
Qed.

Lemma in_entries_7 (d : Z) : 0 <= d <= 7 -> In d (7 :: table_entries).
Proof.
  intros Hd. destruct (Z.eq_dec d 7) as [->|Hn]; [left; reflexivity|].
  right. apply symbol_is_entry. lia.
Qed.

Lemma small_sum_7_spec (k : nat) (x y : Z) :
  In x (7 :: table_entries) -> 0 <= y <= 7 ->
  spiral_add_rec (S (S k)) x y 0 = spiral_add_rec 2 x y 0 /\
  (spiral_add_rec 2 x y 0 = Raise IndexError \/
   exists t, spiral_add_rec 2 x y 0 = Ret (Some t) /\ 0 <= t <= 66).
Proof.
  intros Hx Hy. pose proof (small_sums_7 k) as H.
  rewrite forallb_forall in H. specialize (H x Hx).
  rewrite forallb_forall in H.
  specialize (H y (in_symbols_upto 7 y ltac:(lia))).
  apply andb_true_iff in H. destruct H as [H1 H2].
  apply outcome_eqb_eq in H2. rewrite H2 in *. split; [reflexivity|].
  destruct (spiral_add_rec 2 x y 0) as [[t|]|e|]; try discriminate H1.
  - right. exists t. split; [reflexivity|]. cbn in H1.
    apply andb_true_iff in H1. destruct H1 as [H1 _].
    apply andb_true_iff in H1. destruct H1 as [H1 H3].
    apply Z.leb_le in H1, H3. lia.
  - left. destruct e; try discriminate H1. reflexivity.
Qed.

Lemma entry_sum_7_spec (k : nat) (x y : Z) :
  0 <= x <= 7 -> 0 <= y <= 6 ->
  spiral_add_rec (S (S k)) x y 0 = spiral_add_rec 2 x y 0 /\
  (spiral_add_rec 2 x y 0 = Raise IndexError \/
   exists t, spiral_add_rec 2 x y 0 = Ret (Some t) /\ In t table_entries).
Proof.
  intros Hx Hy. pose proof (entry_sums_7 k) as H.
  rewrite forallb_forall in H.
  specialize (H x (in_symbols_upto 7 x ltac:(lia))).
  rewrite forallb_forall in H.
  specialize (H y (in_symbols_upto 6 y ltac:(lia))).
  apply andb_true_iff in H. destruct H as [H1 H2].
  apply outcome_eqb_eq in H2. rewrite H2 in *. split; [reflexivity|].
  destruct (spiral_add_rec 2 x y 0) as [[t|]|e|]; try discriminate H1.
  - right. exists t. split; [reflexivity|]. apply is_entry_In. exact H1.
  - left. destruct e; try discriminate H1. reflexivity.
Qed.

(** Whatever digits the guard lets through, nesting the calls deeper than
    twice inside the loop changes nothing. *)
Lemma add_digits_depth (k : nat) (lb : list Z) :
  forall (la : list Z) (a : Z) (i : nat) (res : Z),
    In a (7 :: table_entries) ->
    Forall (fun d => 0 <= d <= 7) la ->
    Forall (fun d => 0 <= d <= 7) lb ->
    add_digits (fun x y => spiral_add_rec (S (S k)) x y 0) (a :: la) lb i res =
    add_digits (fun x y => spiral_add_rec 2 x y 0) (a :: la) lb i res.
Proof.
  induction lb as [|b lb IH]; intros la a i res Ha Hla Hlb.
  - destruct la; reflexivity.
  - inversion Hlb as [|? ? Hb Hlb']; subst.
    destruct (small_sum_7_spec k a b Ha Hb) as [Heq Hres].
    destruct la as [|a1 la].
    + rewrite !add_digits_last, Heq. reflexivity.
    + inversion Hla as [|? ? Ha1 Hla']; subst.
      rewrite !add_digits_step, Heq.
      destruct Hres as [->|[t [-> Ht]]]; [reflexivity|].
      cbn [bind].
      destruct (entry_sum_7_spec k a1 _ Ha1 (carry_range t Ht))
        as [Heq1 Hres1].
      rewrite Heq1.
      destruct Hres1 as [->|[c [-> Hc]]]; [reflexivity|].
      cbn [bind]. apply IH; [right; exact Hc|exact Hla'|exact Hlb'].
Qed.

Lemma out_of_range_Forall (l : list Z) :
  out_of_range l = false -> Forall (fun d => 0 <= d <= 7) l.
Proof.
  unfold out_of_range. intros H. apply orb_false_iff in H.
  destruct H as [H1 H2]. apply Forall_forall. intros d Hd. split.
  - destruct (Z_lt_le_dec d 0) as [Hlt|Hge]; [|exact Hge].
    assert (existsb (fun d => d <? 0) l = true) as Hex.
    { apply existsb_exists. exists d. split; [exact Hd|].
      apply Z.ltb_lt. exact Hlt. }
    rewrite Hex in H1. discriminate H1.
  - destruct (Z_lt_le_dec 7 d) as [Hlt|Hge]; [|exact Hge].
    assert (existsb (fun d => d >? 7) l = true) as Hex.
    { apply existsb_exists. exists d. split; [exact Hd|].
      rewrite Z.gtb_ltb. apply Z.ltb_lt. exact Hlt. }
    rewrite Hex in H2. discriminate H2.
Qed.

Lemma Forall_resize (P : Z -> Prop) (l : list Z) (n : nat) :
  P 0 -> Forall P l -> Forall P (resize l n).
Proof.
  intros H0 Hl. unfold resize. apply Forall_app. split; [exact Hl|].
  apply Forall_forall. intros d Hd. apply repeat_spec in Hd. subst. exact H0.
Qed.

(** The outcome of [spiral_add] does not depend on how deep its calls may
    nest, from three levels on: the call itself, a call on a digit that
    holds a carry, and the table lookups of that call. *)
Theorem spiral_add_rec_depth (k : nat) (a b mod_ : Z) :
  spiral_add_rec (3 + k) a b mod_ = spiral_add_rec 3 a b mod_.
Proof.
  change (3 + k)%nat with (S (S (S k))). rewrite !spiral_add_rec_S.
  destruct (int2intvec a) as [da| |]; try reflexivity.
  destruct (int2intvec b) as [db| |]; try reflexivity.
  cbn [bind].
  destruct (out_of_range da) eqn:Ea; [reflexivity|].
  destruct (out_of_range db) eqn:Eb; [reflexivity|].
  cbn [orb].
  destruct ((length da =? 1)%nat && (length db =? 1)%nat); [reflexivity|].
  cbv zeta. set (n := Nat.max (length da) (length db)).
  apply out_of_range_Forall in Ea, Eb.
  assert (length (resize da n) = n) as Hla by (apply length_resize; lia).
  assert (length (resize db n) = n) as Hlb by (apply length_resize; lia).
  pose proof (Forall_resize (fun d => 0 <= d <= 7) da n ltac:(cbv beta; lia) Ea) as Fa.
  pose proof (Forall_resize (fun d => 0 <= d <= 7) db n ltac:(cbv beta; lia) Eb) as Fb.
  rewrite Hla.
  rewrite !(spiral_add_loop_digits _ n (resize da n) (resize db n) [] [])
    by (assumption || reflexivity).
  destruct (resize da n) as [|a0 la];
    [destruct (resize db n); reflexivity|].
  inversion Fa as [|? ? Ha0 Fa']; subst.
  rewrite add_digits_depth; [reflexivity| |exact Fa'|exact Fb].
  apply in_entries_7. exact Ha0.
Qed.

End Depth.

(** ** Properties of the spiral algebra *)

Section AlgebraClaims.

Lemma spiral_add_symbols (k : nat) (x y : Z) :
  0 <= x <= 6 -> 0 <= y <= 6 ->
  spiral_add_rec (S k) x y 0 = Ret (Some (add_entry x y)).
Proof.
  intros Hx Hy.
  symbol_cases x; symbol_cases y; reflexivity.
Qed.

(** A position where both digits are 0 adds nothing and carries nothing. *)
Lemma add_digits_zero_step (k : nat) (a1 : Z) (la lb : list Z) (i : nat)
    (res : Z) :
  0 <= a1 <= 6 ->
  add_digits (fun x y => spiral_add_rec (S k) x y 0)
    (0 :: a1 :: la) (0 :: lb) i res =
  add_digits (fun x y => spiral_add_rec (S k) x y 0) (a1 :: la) lb (S i) res.
Proof.
  intros Ha1. rewrite add_digits_step.
  rewrite spiral_add_rec_one_is_zero by (left; split; [reflexivity|lia]).
  cbn [bind]. change ((0 + 0 - (0 + 0) mod 10) / 10) with 0.
  rewrite spiral_add_rec_one_is_zero by (right; split; [reflexivity|lia]).
  cbn [bind]. change ((0 + 0) mod 10) with 0.
  rewrite Z.mul_0_l, !Z.add_0_r. reflexivity.
Qed.

(** Below the top position nothing but zeros: the entry of the table for
    the two top digits is added whole at the top weight. *)
Lemma add_digits_top (k : nat) (x y : Z) (j : nat) :
  forall (i : nat) (res : Z),
    0 <= x <= 6 -> 0 <= y <= 6 ->
    add_digits (fun x y => spiral_add_rec (S k) x y 0)
      (repeat 0 j ++ [x]) (repeat 0 j ++ [y]) i res =
    Ret (res + add_entry x y * 10 ^ Z.of_nat (i + j)).
Proof.
  induction j as [|j IH]; intros i res Hx Hy.
  - cbn [repeat app]. rewrite add_digits_last, spiral_add_symbols by lia.
    cbn [bind]. rewrite Nat.add_0_r. reflexivity.
  - cbn [repeat app]. destruct j as [|j].
    + cbn [repeat app]. rewrite add_digits_zero_step by lia.
      rewrite add_digits_last, spiral_add_symbols by lia.
      cbn [bind]. replace (i + 1)%nat with (S i) by lia. reflexivity.
    + cbn [repeat app] in *. rewrite add_digits_zero_step by lia.
      rewrite IH by assumption.
      replace (S i + S j)%nat with (i + S (S j))%nat by lia. reflexivity.
Qed.

Lemma digits_shift (d : Z) (j : nat) :
  1 <= d <= 9 -> digits (d * 10 ^ Z.of_nat j) = repeat 0 j ++ [d].
Proof.
  intros Hd. induction j as [|j IH].
  - change (10 ^ Z.of_nat 0) with 1. rewrite Z.mul_1_r.
    apply digits_small. lia.
  - rewrite Nat2Z.inj_succ, Z.pow_succ_r by lia.
    assert (0 < 10 ^ Z.of_nat j) by (apply Z.pow_pos_nonneg; lia).
    replace (d * (10 * 10 ^ Z.of_nat j)) with (d * 10 ^ Z.of_nat j * 10)
      by lia.
    rewrite digits_large by nia.
    rewrite Z.mod_mul, Z.div_mul, IH by lia. reflexivity.
Qed.

Lemma resize_length (l : list Z) : resize l (length l) = l.
Proof. unfold resize. rewrite Nat.sub_diag. apply app_nil_r. Qed.

(** The sum of two addresses of [j+1] digits that are zero below the top
    digit: the table entry for the top digits, at weight [10^j]. *)
Lemma spiral_add_top (x y : Z) (j : nat) :
  1 <= x <= 6 -> 1 <= y <= 6 ->
  spiral_add (x * 10 ^ Z.of_nat j) (y * 10 ^ Z.of_nat j) 0 =
  Ret (Some (add_entry x y * 10 ^ Z.of_nat j)).
Proof.
  intros Hx Hy. unfold spiral_add. destruct j as [|j].
  - change (10 ^ Z.of_nat 0) with 1. rewrite !Z.mul_1_r.
    apply spiral_add_symbols; lia.
  - assert (0 < 10 ^ Z.of_nat j) by (apply Z.pow_pos_nonneg; lia).
    assert (10 <= x * 10 ^ Z.of_nat (S j)) as Hx10
      by (rewrite Nat2Z.inj_succ, Z.pow_succ_r by lia; nia).
    assert (10 <= y * 10 ^ Z.of_nat (S j)) as Hy10
      by (rewrite Nat2Z.inj_succ, Z.pow_succ_r by lia; nia).
    rewrite spiral_add_rec_long; try lia.
    + rewrite !digits_shift by lia. cbv zeta.
      rewrite !length_app, !repeat_length. cbn [length].
      rewrite Nat.max_id.
      replace (S j + 1)%nat with (length (repeat 0 (S j) ++ [x]))
        by (rewrite length_app, repeat_length; reflexivity).
      rewrite resize_length.
      replace (length (repeat 0 (S j) ++ [x]))
        with (length (repeat 0 (S j) ++ [y]))
        by (rewrite !length_app, !repeat_length; reflexivity).
      rewrite resize_length.
      rewrite add_digits_top by lia. cbn [bind].
      change (negb (0 =? 0)) with false. cbv iota. reflexivity.
    + rewrite digits_shift by lia. apply Forall_app. split.
      * apply Forall_forall. intros e He. apply repeat_spec in He. lia.
      * constructor; [lia|constructor].
    + rewrite digits_shift by lia. apply Forall_app. split.
      * apply Forall_forall. intros e He. apply repeat_spec in He. lia.
      * constructor; [lia|constructor].
Qed.

Lemma digits_length_pos (a : Z) : 0 <= a -> (1 <= length (digits a))%nat.
Proof.
  intros Ha. pose proof (digits_nonempty a Ha).
  destruct (digits a); [contradiction|cbn [length]; lia].
Qed.

(** [spiral_add] is closed on spiral addresses: where the longer operand
    has [n] digits it returns the address written by [n+1] digits. *)
Lemma spiral_add_address (a b : Z) :
  is_address a = true -> is_address b = true ->
  exists ds,
    Forall (fun d => 0 <= d <= 6) ds /\
    length ds = S (Nat.max (length (digits a)) (length (digits b))) /\
    spiral_add a b 0 = Ret (Some (val 10 ds)).
Proof.
  intros Ha Hb.
  pose proof (address_nonneg a Ha) as Ha0.
  pose proof (address_nonneg b Hb) as Hb0.
  remember (Nat.max (length (digits a)) (length (digits b))) as n eqn:Hn.
  destruct (Z_lt_le_dec a 10) as [Ha10|Ha10].
  1: destruct (Z_lt_le_dec b 10) as [Hb10|Hb10].
  1: { pose proof (is_address_small a ltac:(lia) Ha) as Ha6.
       pose proof (is_address_small b ltac:(lia) Hb) as Hb6.
       destruct (small_sum_spec 1 a b) as [t [Ht [Hr Hm]]];
         [apply symbol_is_entry; lia|lia|].
       destruct (small_sum_digits t Hr Hm) as [Hds Hv].
       exists [t mod 10; t / 10]. split; [exact Hds|].
       rewrite !digits_small in Hn by lia. subst n.
       split; [reflexivity|]. rewrite Hv. exact Ht. }
  all: unfold spiral_add; rewrite spiral_add_rec_long;
    auto using address_digits_7; cbv zeta; rewrite <- Hn.
  all: apply is_address_spec in Ha, Hb; destruct Ha as [_ Fa], Hb as [_ Fb].
  all: pose proof (digits_length_pos a Ha0); pose proof (digits_length_pos b Hb0).
  all: assert (length (resize (digits a) n) = n) as Hla
         by (apply length_resize; lia).
  all: assert (length (resize (digits b) n) = n) as Hlb
         by (apply length_resize; lia).
  all: pose proof (Forall_resize (fun d => 0 <= d <= 6) (digits a) n
                     ltac:(cbv beta; lia) Fa) as Ra.
  all: pose proof (Forall_resize (fun d => 0 <= d <= 6) (digits b) n
                     ltac:(cbv beta; lia) Fb) as Rb.
  all: destruct (resize (digits a) n) as [|a0 la]; [cbn in Hla; lia|].
  all: apply Forall_cons_iff in Ra; destruct Ra as [Ha0' Ra'].
  all: destruct (add_digits_address 0 (resize (digits b) n) la a0 0 0
                   (length la))
         as [ds [Hds [Hlen Hr]]];
    [apply symbol_is_entry; assumption|assumption|assumption|reflexivity
    |cbn [length] in Hla; lia|].
  all: rewrite Hr; cbn [bind]; exists ds; split; [exact Hds|].
  all: cbn [length] in Hla; split; [lia|].
  all: change (10 ^ Z.of_nat 0) with 1.
  all: change (negb (0 =? 0)) with false; cbv iota; do 2 f_equal; lia.
Qed.

Lemma mult_lookup_range (x y : Z) :
  0 <= x <= 6 -> 0 <= y <= 6 ->
  exists m, table_lookup multiplication_table x y = Ret m /\ 0 <= m <= 6.
Proof.
  intros Hx Hy. symbol_cases x; symbol_cases y;
    (eexists; split; [reflexivity|lia]).
Qed.

Lemma is_address_shift (d : Z) (k : nat) :
  0 <= d <= 6 -> is_address (d * 10 ^ Z.of_nat k) = true.
Proof.
  intros Hd. rewrite <- val_shift. apply is_address_val.
  apply Forall_shift. exact Hd.
Qed.

Lemma spiral_mult_inner_address (dig_a : list Z) :
  forall (bi : Z) (i j : nat) (acc : Z),
    Forall (fun d => 0 <= d <= 6) dig_a -> 0 <= bi <= 6 ->
    is_address acc = true ->
    exists r, spiral_mult_inner dig_a bi i j (Some acc) = Ret (Some r) /\
              is_address r = true.
Proof.
  induction dig_a as [|aj dig_a IH]; intros bi i j acc Hl Hb Hacc.
  - exists acc. split; [reflexivity|exact Hacc].
  - inversion Hl as [|? ? Ha Hl']; subst.
    cbn [spiral_mult_inner].
    destruct (mult_lookup_range aj bi Ha Hb) as [m [-> Hm]]. cbn [bind].
    destruct (spiral_add_address acc (m * 10 ^ Z.of_nat (i + j)) Hacc
                (is_address_shift m (i + j) Hm)) as [ds [Hds [_ ->]]].
    cbn [bind]. apply IH; [exact Hl'|exact Hb|].
    apply is_address_val. exact Hds.
Qed.

Lemma spiral_mult_outer_address (dig_a dig_b : list Z) :
  forall (i : nat) (acc : Z),
    Forall (fun d => 0 <= d <= 6) dig_a ->
    Forall (fun d => 0 <= d <= 6) dig_b ->
    is_address acc = true ->
    exists r, spiral_mult_outer dig_a dig_b i (Some acc) = Ret (Some r) /\
              is_address r = true.
Proof.
  induction dig_b as [|bi dig_b IH]; intros i acc Ha Hb Hacc.
  - exists acc. split; [reflexivity|exact Hacc].
  - inversion Hb as [|? ? Hbi Hb']; subst.
    cbn [spiral_mult_outer].
    destruct (spiral_mult_inner_address dig_a bi i 0 acc Ha Hbi Hacc)
      as [r [-> Hr]].
    cbn [bind]. apply IH; assumption.
Qed.

(** The spiral addresses are closed under [spiral_add] and [spiral_mult]:
    on them both operations return, and return a spiral address. *)
Theorem spiral_algebra_closed (a b : Z) :
  is_address a = true -> is_address b = true ->
  (exists r, spiral_add a b 0 = Ret (Some r) /\ is_address r = true) /\
  (exists r, spiral_mult a b 0 = Ret (Some r) /\ is_address r = true).
Proof.
  intros Ha Hb. split.
  - destruct (spiral_add_address a b Ha Hb) as [ds [Hds [_ Hr]]].
    exists (val 10 ds). split; [exact Hr|apply is_address_val; exact Hds].
  - rewrite spiral_mult_unfold by assumption.
    apply is_address_spec in Ha, Hb.
    apply spiral_mult_outer_address; tauto || reflexivity.
Qed.

Lemma invalid_digit_refused (l : list Z) :
  Forall (fun d => 0 <= d <= 9) l -> Exists (fun d => 7 < d) l ->
  out_of_range l = true.
Proof.
  intros _ Hex. unfold out_of_range. apply orb_true_iff. right.
  apply existsb_exists. apply Exists_exists in Hex.
  destruct Hex as [d [Hin Hd]]. exists d. split; [exact Hin|].
  rewrite Z.gtb_ltb. apply Z.ltb_lt. exact Hd.
Qed.

(** What the guard of [spiral_add] and [spiral_mult] does refuse: an
    operand with a digit 8 or 9. *)
Lemma digit_8_9_refused (a b mod_ : Z) :
  0 <= a -> 0 <= b ->
  Exists (fun d => 7 < d) (digits a) \/ Exists (fun d => 7 < d) (digits b) ->
  refused (spiral_add a b mod_) /\ refused (spiral_mult a b mod_).
Proof.
  intros Ha Hb Hex. unfold refused, spiral_add, spiral_mult.
  rewrite spiral_add_rec_S, !int2intvec_digits by assumption. cbn [bind].
  assert (out_of_range (digits a) || out_of_range (digits b) = true) as ->.
  { apply orb_true_iff.
    destruct Hex as [Hex|Hex]; [left|right];
      (apply invalid_digit_refused; [apply digits_range; assumption|exact Hex]). }
  split; reflexivity.
Qed.

(** C2 fails on the code at the digit 7.  The guard of [spiral_add] and
    [spiral_mult] tests [> 7] where the tables have the indices 0..6: an
    operand with the digit 7 passes it and the table lookup raises
    IndexError, where the digits 8 and 9 are refused as the specification
    says. *)
Theorem digit_7_not_refused :
  (forall d, 0 <= d <= 6 ->
     spiral_add 7 d 0 = Raise IndexError /\
     spiral_add d 7 0 = Raise IndexError /\
     spiral_mult 7 d 0 = Raise IndexError /\
     spiral_mult d 7 0 = Raise IndexError) /\
  spiral_add 7 0 0 = Raise IndexError /\
  spiral_add 0 7 0 = Raise IndexError /\
  spiral_add 17 0 0 = Raise IndexError /\
  spiral_mult 7 1 0 = Raise IndexError /\
  spiral_mult 1 7 0 = Raise IndexError /\
  ~ refused (spiral_add 7 0 0) /\ ~ refused (spiral_mult 7 1 0) /\
  refused (spiral_add 8 0 0) /\ refused (spiral_mult 8 1 0).
Proof.
  split; [intros d Hd; symbol_cases d; repeat split|].
  repeat split; try reflexivity; intros H; discriminate H.
Qed.

Lemma digit_7_not_refused_witness :
  spiral_add 7 3 0 = Raise IndexError /\ spiral_mult 3 7 0 = Raise IndexError.
Proof.
  pose proof (proj1 digit_7_not_refused 3 ltac:(lia)) as [H1 [_ [_ H4]]].
  split; [exact H1|exact H4].
Defined.

(** C10. On the symbols 0..6 [spiral_add] and [spiral_mult] return the
    entries of their tables, and both tables are symmetric: the two
    operations are commutative on single digits. *)
Theorem single_digit_commutative (a b : Z)
    (Ha : 0 <= a <= 6) (Hb : 0 <= b <= 6) :
  spiral_add a b 0 = spiral_add b a 0 /\
  spiral_mult a b 0 = spiral_mult b a 0 /\
  spiral_add a b 0 = Ret (Some (add_entry a b)) /\
  spiral_mult a b 0 = Ret (Some (mult_entry a b)) /\
  add_entry a b = add_entry b a /\
  mult_entry a b = mult_entry b a.
Proof.
  symbol_cases a; symbol_cases b; vm_compute; repeat split.
Qed.

Lemma single_digit_commutative_witness :
  spiral_add 2 5 0 = spiral_add 5 2 0 /\
  spiral_mult 2 5 0 = spiral_mult 5 2 0.
Proof.
  pose proof (single_digit_commutative 2 5 ltac:(lia) ltac:(lia)) as H.
  split; [exact (proj1 H)|exact (proj1 (proj2 H))].
Defined.

End AlgebraClaims.

(** ** Sampling a hyperpel *)

Section Sampling.

Context {C : Type} {SC : Scalar C}.

Lemma axis_index_in_bounds (i n : Z) : 0 <= i < n -> axis_index i n = Ret i.
Proof.
  intros Hi. unfold axis_index.
  assert ((0 <=? i) && (i <? n) = true) as ->; [|reflexivity].
  apply andb_true_iff. split; [apply Z.leb_le|apply Z.ltb_lt]; lia.
Qed.

(** On cells that all hold [c] the loop of [sa_value] adds [c] once per
    round. *)
Lemma sa_value_loop_constant (g : grid C) (hp : list vec2) (c : C) :
  (forall p, In p hp -> grid_getitem g (fst p) (snd p) = Ret c) ->
  forall (todo i k : nat),
    (i + todo <= length hp)%nat ->
    sa_value_loop g hp todo i (nsum k c) = Ret (nsum (k + todo) c).
Proof.
  intros Hc todo. induction todo as [|todo IH]; intros i k Hi.
  - rewrite Nat.add_0_r. reflexivity.
  - cbn [sa_value_loop]. unfold getitem.
    destruct (nth_error hp i) as [p|] eqn:E.
    + cbn [bind]. rewrite (Hc p) by (eapply nth_error_In; exact E).
      cbn [bind]. change (cadd (nsum k c) c) with (nsum (S k) c).
      rewrite IH by lia. rewrite Nat.add_succ_r. reflexivity.
    + apply nth_error_None in E. lia.
Qed.

Lemma footprint_getitem (g : grid C) (c : C) (addr : Z) :
  footprint_in_bounds g addr = true ->
  (forall r col, 0 <= r < nrows g -> 0 <= col < ncols g -> cell g r col = c) ->
  forall p,
    In p (map (fun p => vadd p (address_offset addr)) hyperpel_sa) ->
    grid_getitem g (fst p) (snd p) = Ret c.
Proof.
  intros Hb Hc p Hp. apply in_map_iff in Hp. destruct Hp as [q [<- Hq]].
  unfold footprint_in_bounds in Hb. rewrite forallb_forall in Hb.
  specialize (Hb q Hq). cbv zeta in Hb.
  apply andb_true_iff in Hb. destruct Hb as [Hb H4].
  apply andb_true_iff in Hb. destruct Hb as [Hb H3].
  apply andb_true_iff in Hb. destruct Hb as [H1 H2].
  apply Z.leb_le in H1, H3. apply Z.ltb_lt in H2, H4.
  unfold grid_getitem. rewrite !axis_index_in_bounds by lia.
  cbn [bind]. f_equal. apply Hc; lia.
Qed.

(** The mean that [sa_value] computes on a constant grid: 56 additions of
    the constant, from zero, and a division by 56. *)
Lemma sa_value_mean (g : grid C) (c : C) (addr : Z) :
  is_address addr = true ->
  footprint_in_bounds g addr = true ->
  (forall r col, 0 <= r < nrows g -> 0 <= col < ncols g -> cell g r col = c) ->
  sa_value g addr = Ret (cdiv_int (nsum 56 c) 56).
Proof.
  intros Ha Hb Hc. unfold sa_value.
  rewrite sa2hex_offset_sum by exact Ha. cbn [bind].
  change czero with (nsum 0 c).
  rewrite (sa_value_loop_constant g _ c (footprint_getitem g c addr Hb Hc)).
  - reflexivity.
  - rewrite length_map. cbn. lia.
Qed.

Section Exact.

Variables (cone : C) (csub : C -> C -> C) (copp : C -> C)
          (cdiv : C -> C -> C) (cinv : C -> C).
Hypothesis Cfield : field_theory czero cone cadd cmul csub copp cdiv cinv eq.
Hypothesis cdiv_int_def :
  forall x n, cdiv_int x (Z.of_nat n) = cdiv x (nsum n cone).

Lemma nsum_mul (n : nat) (x : C) : nsum n x = cmul x (nsum n cone).
Proof.
  destruct Cfield as [CR _ _ _].
  induction n as [|n IH]; cbn [nsum].
  - rewrite (Rmul_comm CR x czero). symmetry.
    apply (ARmul_0_l (Rth_ARth (Eqsth C) (Eq_ext cadd cmul copp) CR)).
  - rewrite IH.
    rewrite (Rmul_comm CR x (cadd (nsum n cone) cone)).
    rewrite (Rdistr_l CR).
    rewrite (Rmul_comm CR (nsum n cone) x).
    rewrite (Rmul_1_l CR). reflexivity.
Qed.

(** In exact arithmetic the mean of [n] copies of [x] is [x]. *)
Lemma mean_exact (n : nat) (x : C) :
  nsum n cone <> czero -> cdiv_int (nsum n x) (Z.of_nat n) = x.
Proof.
  intros Hn. rewrite cdiv_int_def, nsum_mul.
  destruct Cfield as [CR _ Hdiv Hinv].
  rewrite Hdiv. rewrite <- (Rmul_assoc CR).
  rewrite (Rmul_comm CR (nsum n cone)). rewrite Hinv by exact Hn.
  rewrite (Rmul_comm CR). apply (Rmul_1_l CR).
Qed.

End Exact.

(** C9, as the code has it.  On a grid that holds [c] everywhere and at a
    spiral address whose hyperpel lies within the grid, [sa_value] returns
    the mean as the arithmetic of the grid computes it: [c] added 56 times
    from zero, divided by 56.  Where that arithmetic is exact (a field in
    which 56 is not zero) this is [c] itself. *)
Theorem sa_value_constant (g : grid C) (c : C) (addr : Z)
    (Ha : is_address addr = true)
    (Hb : footprint_in_bounds g addr = true)
    (Hc : forall r col, 0 <= r < nrows g -> 0 <= col < ncols g ->
                        cell g r col = c) :
  sa_value g addr = Ret (cdiv_int (nsum 56 c) 56) /\
  (forall (cone : C) (csub : C -> C -> C) (copp : C -> C)
          (cdiv : C -> C -> C) (cinv : C -> C),
     field_theory czero cone cadd cmul csub copp cdiv cinv eq ->
     (forall x n, cdiv_int x (Z.of_nat n) = cdiv x (nsum n cone)) ->
     nsum 56 cone <> czero ->
     mean_is_constant g c addr).
Proof.
  split; [apply sa_value_mean; assumption|].
  intros cone csub copp cdiv cinv F Hdiv H56. unfold mean_is_constant.
  rewrite (sa_value_mean g c addr) by assumption. f_equal.
  apply (mean_exact cone csub copp cdiv cinv F Hdiv 56 c H56).
Qed.

End Sampling.

Section SamplingInstances.

Lemma nsum_real (n : nat) : nsum n 1%R = IZR (Z.of_nat n).
Proof.
  induction n as [|n IH]; [reflexivity|].
  cbn [nsum]. rewrite IH, Nat2Z.inj_succ, succ_IZR. reflexivity.
Qed.

Lemma sa_value_constant_witness :
  mean_is_constant (constant_grid 64 64 (1 / 10)%R) (1 / 10)%R 6.
Proof.
  refine (proj2 (sa_value_constant (constant_grid 64 64 (1 / 10)%R)
                   (1 / 10)%R 6 _ _ _)
            1%R Rminus Ropp Rdiv Rinv Rfield _ _).
  - reflexivity.
  - vm_compute. reflexivity.
  - intros r col _ _. reflexivity.
  - intros x n. cbn [cdiv_int exact_real]. rewrite nsum_real. reflexivity.
  - rewrite nsum_real. apply eq_IZR_contrapositive. discriminate.
Defined.

(** C9 as the specification states it fails in floating point: on a
    [float64] grid that holds 0.1 everywhere, at the address 6 whose
    hyperpel lies within the grid, the 56 additions round and [sa_value]
    returns a number below 0.1. *)
Lemma sa_value_float_mean :
  is_address 6 = true /\
  footprint_in_bounds (constant_grid 64 64 0x1.999999999999ap-4%float) 6 = true /\
  ~ mean_is_constant (constant_grid 64 64 0x1.999999999999ap-4%float)
      0x1.999999999999ap-4%float 6.
Proof.
  split; [reflexivity|]. split; [vm_compute; reflexivity|].
  unfold mean_is_constant. intros H.
  assert (forall x y : float, Ret x = Ret y -> PrimFloat.eqb x y = PrimFloat.eqb y y)
    as Heq by (intros x y E; injection E as ->; reflexivity).
  vm_compute in H. apply Heq in H. vm_compute in H. discriminate H.
Qed.

(** On a [float64] grid that holds 1.0 the sums are exact and the mean is
    1.0. *)
Lemma sa_value_float_one :
  sa_value (constant_grid 64 64 1%float) 6 = Ret 1%float.
Proof. vm_compute. reflexivity. Qed.

End SamplingInstances.

(** ** The dot product in exact arithmetic *)

Section DotProduct.

Context {C : Type} {SC : Scalar C}.

Lemma sum_of_nonempty (l : list C) (v : C) : sum_of l v -> l <> [].
Proof.
  intros H. induction H as [x|l1 l2 l a b H1 IH1 H2 IH2 Hp].
  - discriminate.
  - intros ->. apply Permutation_sym, Permutation_nil in Hp.
    apply app_eq_nil in Hp. destruct Hp as [Hp _]. contradiction.
Qed.

(** The sum in index order is one of the sums of zero and the products. *)
Lemma fold_left_sum_of (ps : list C) :
  forall (l0 : list C) (acc : C),
    sum_of l0 acc -> sum_of (l0 ++ ps) (fold_left cadd ps acc).
Proof.
  induction ps as [|p ps IH]; intros l0 acc H0; cbn [fold_left].
  - rewrite app_nil_r. exact H0.
  - replace (l0 ++ p :: ps) with ((l0 ++ [p]) ++ ps)
      by (rewrite <- app_assoc; reflexivity).
    apply IH. apply (sum_of_add l0 [p]); [exact H0|constructor|].
    apply Permutation_refl.
Qed.

Lemma dot_sum_adds_products : adds_products dot_sum.
Proof.
  intros x y. unfold dot_sum.
  apply (fold_left_sum_of (products x y) [czero] czero). constructor.
Qed.

Section ExactAddition.

Hypothesis cadd_comm : forall x y : C, cadd x y = cadd y x.
Hypothesis cadd_assoc : forall x y z : C, cadd (cadd x y) z = cadd x (cadd y z).

Lemma fold_left_cadd_acc (l : list C) :
  forall acc t, fold_left cadd l (cadd acc t) = cadd (fold_left cadd l acc) t.
Proof.
  induction l as [|x l IH]; intros acc t; [reflexivity|].
  cbn [fold_left]. rewrite <- IH. f_equal.
  rewrite !cadd_assoc. f_equal. apply cadd_comm.
Qed.

Lemma fold_left_app_comm (l1 l2 : list C) :
  forall acc,
    fold_left cadd (l1 ++ l2) acc = fold_left cadd (l2 ++ l1) acc.
Proof.
  intros acc. rewrite !fold_left_app. revert acc.
  induction l1 as [|x l1 IH]; intros acc; [reflexivity|].
  cbn [fold_left]. rewrite IH, fold_left_cadd_acc. reflexivity.
Qed.

Lemma fold_left_cadd_head (l : list C) :
  forall a b, fold_left cadd l (cadd a b) = cadd a (fold_left cadd l b).
Proof.
  induction l as [|x l IH]; intros a b; [reflexivity|].
  cbn [fold_left]. rewrite cadd_assoc. apply IH.
Qed.

Lemma fold_left_perm (l l' : list C) :
  Permutation l l' ->
  forall acc, fold_left cadd l acc = fold_left cadd l' acc.
Proof.
  intros Hp. induction Hp as [|x l l' _ IH|x y l|l l' l'' _ IH1 _ IH2];
    intros acc; cbn [fold_left].
  - reflexivity.
  - apply IH.
  - f_equal. rewrite !cadd_assoc. f_equal. apply cadd_comm.
  - rewrite IH1. apply IH2.
Qed.

Lemma total_perm (l l' : list C) : Permutation l l' -> total l = total l'.
Proof.
  intros Hp. induction Hp as [|x l l' Hp _|x y l|l l' l'' _ IH1 _ IH2];
    cbn [total].
  - reflexivity.
  - apply fold_left_perm. exact Hp.
  - cbn [fold_left]. f_equal. apply cadd_comm.
  - rewrite IH1. exact IH2.
Qed.

Lemma total_app (l1 l2 : list C) :
  l1 <> [] -> l2 <> [] -> total (l1 ++ l2) = cadd (total l1) (total l2).
Proof.
  intros H1 H2. destruct l1 as [|x1 l1]; [contradiction|].
  destruct l2 as [|x2 l2]; [contradiction|].
  cbn [app total]. rewrite fold_left_app. cbn [fold_left].
  apply fold_left_cadd_head.
Qed.

(** Where the addition is commutative and associative every way of adding
    the elements of a list gives the same sum. *)
Lemma sum_of_total (l : list C) (v : C) : sum_of l v -> v = total l.
Proof.
  intros H. induction H as [x|l1 l2 l a b H1 IH1 H2 IH2 Hp].
  - reflexivity.
  - rewrite <- (total_perm _ _ Hp), total_app, IH1, IH2;
      eauto using sum_of_nonempty.
Qed.

(** So a dot product that adds zero and the products is the sum in index
    order. *)
Lemma adds_products_dot_sum (dot : list C -> list C -> C) :
  adds_products dot -> forall x y, dot x y = dot_sum x y.
Proof. intros Hd x y. apply (sum_of_total _ _ (Hd x y)). Qed.

End ExactAddition.

End DotProduct.

(** ** Invariants and the bispectrum *)

Section Invariants.

Context {C : Type} {SC : Scalar C} {DC : Dot C}.

Lemma omegaf_loop_S (fft : grid C) (sa : Z) (todo : nat) (i : Z)
    (omegaf : list C) :
  omegaf_loop fft sa (S todo) i omegaf =
  (v <- omega_component fft sa i ;;
   omegaf' <- setitem omegaf (Z.to_nat (i - 1)) v ;;
   omegaf_loop fft sa todo (i + 1) omegaf').
Proof.
  cbn [omegaf_loop]. unfold omega_component.
  destruct (spiral_mult sa i 0) as [[addr|]| |]; reflexivity.
Qed.

(** The frequency vector: its six components in order, up to the first
    that fails. *)
Lemma omegaf_sequence (fft : grid C) (sa : Z) :
  omegaf fft sa =
  sequence (map (omega_component fft sa) [1; 2; 3; 4; 5; 6]).
Proof.
  unfold omegaf. cbn [map sequence repeat].
  rewrite omegaf_loop_S.
  destruct (omega_component fft sa 1) as [v1| |]; [|reflexivity..].
  cbn [bind]. change (Z.to_nat (1 - 1)) with 0%nat. cbn [setitem bind].
  rewrite omegaf_loop_S. change (1 + 1) with 2.
  destruct (omega_component fft sa 2) as [v2| |]; [|reflexivity..].
  cbn [bind]. change (Z.to_nat (2 - 1)) with 1%nat. cbn [setitem bind].
  rewrite omegaf_loop_S. change (2 + 1) with 3.
  destruct (omega_component fft sa 3) as [v3| |]; [|reflexivity..].
  cbn [bind]. change (Z.to_nat (3 - 1)) with 2%nat. cbn [setitem bind].
  rewrite omegaf_loop_S. change (3 + 1) with 4.
  destruct (omega_component fft sa 4) as [v4| |]; [|reflexivity..].
  cbn [bind]. change (Z.to_nat (4 - 1)) with 3%nat. cbn [setitem bind].
  rewrite omegaf_loop_S. change (4 + 1) with 5.
  destruct (omega_component fft sa 5) as [v5| |]; [|reflexivity..].
  cbn [bind]. change (Z.to_nat (5 - 1)) with 4%nat. cbn [setitem bind].
  rewrite omegaf_loop_S. change (5 + 1) with 6.
  destruct (omega_component fft sa 6) as [v6| |]; [|reflexivity..].
  cbn [bind]. change (Z.to_nat (6 - 1)) with 5%nat. cbn [setitem bind].
  reflexivity.
Qed.

Lemma sequence_length {A : Type} (l : list (outcome A)) :
  forall vs, sequence l = Ret vs -> length vs = length l.
Proof.
  induction l as [|m l IH]; intros vs H.
  - injection H as <-. reflexivity.
  - cbn [sequence] in H. destruct m as [v| |]; try discriminate H.
    cbn [bind] in H. destruct (sequence l) as [vs'| |]; try discriminate H.
    injection H as <-. cbn [length]. f_equal. apply IH. reflexivity.
Qed.

Lemma sequence_nth {A : Type} (l : list (outcome A)) (d : A) :
  forall vs j,
    sequence l = Ret vs -> (j < length l)%nat ->
    nth j l Diverge = Ret (nth j vs d).
Proof.
  induction l as [|m l IH]; intros vs j H Hj; [cbn in Hj; lia|].
  cbn [sequence] in H. destruct m as [v| |]; try discriminate H.
  cbn [bind] in H. destruct (sequence l) as [vs'| |]; try discriminate H.
  injection H as <-. destruct j as [|j]; [reflexivity|].
  cbn [nth]. apply IH; [reflexivity|cbn in Hj; lia].
Qed.

Lemma sequence_returns {A : Type} (l : list (outcome A)) :
  Forall (fun m => exists v, m = Ret v) l -> exists vs, sequence l = Ret vs.
Proof.
  intros Hl. induction Hl as [|m l [v ->] _ [vs IH]].
  - exists []. reflexivity.
  - exists (v :: vs). cbn [sequence bind]. rewrite IH. reflexivity.
Qed.





Lemma setitem_app {A : Type} (pre rest : list A) (x v : A) :
  setitem (pre ++ x :: rest) (length pre) v = Ret (pre ++ v :: rest).
Proof.
  induction pre as [|p pre IH]; [reflexivity|].
  cbn [app length setitem]. rewrite IH. reflexivity.
Qed.

Lemma fill_all_app (l1 l2 : list (outcome C)) :
  forall st, fill_all (l1 ++ l2) st = (st' <- fill_all l1 st ;; fill_all l2 st').
Proof.
  induction l1 as [|m l1 IH]; intros st; [reflexivity|].
  cbn [app fill_all]. destruct m as [v| |]; [|reflexivity..].
  cbn [bind]. destruct (setitem (fst st) (snd st) v); [|reflexivity..].
  cbn [bind]. apply IH.
Qed.

(** Filling a vector whose free part has one slot per call writes the
    values of the calls in their order. *)
Lemma fill_all_sequence (ms : list (outcome C)) :
  forall pre rest : list C,
    length rest = length ms ->
    fill_all ms (pre ++ rest, length pre) =
    (vs <- sequence ms ;; Ret (pre ++ vs, (length pre + length ms)%nat)).
Proof.
  induction ms as [|m ms IH]; intros pre rest Hlen.
  - destruct rest; [|discriminate Hlen]. cbn [fill_all sequence bind length].
    rewrite Nat.add_0_r. reflexivity.
  - destruct rest as [|x rest]; [discriminate Hlen|].
    cbn [fill_all sequence fst snd]. destruct m as [v| |]; [|reflexivity..].
    cbn [bind]. rewrite setitem_app. cbn [bind].
    replace (pre ++ v :: rest) with ((pre ++ [v]) ++ rest)
      by (rewrite <- app_assoc; reflexivity).
    replace (S (length pre)) with (length (pre ++ [v]))
      by (rewrite length_app; cbn [length]; lia).
    rewrite IH by (cbn [length] in Hlen; lia).
    destruct (sequence ms) as [vs| |]; [|reflexivity..].
    cbn [bind length]. rewrite <- app_assoc, length_app. cbn [app length].
    do 2 f_equal. lia.
Qed.

Lemma emit_fill (fft : grid C) (sa1 sa2 sa3 : Z) (st : fill) :
  emit fft sa1 sa2 sa3 st = fill_all [invariant fft sa1 sa2 sa3] st.
Proof.
  unfold emit. cbn [fill_all].
  destruct (invariant fft sa1 sa2 sa3); [|reflexivity..].
  cbn [bind]. destruct (setitem (fst st) (snd st) v); reflexivity.
Qed.

Lemma rotation_loop_fill (fft : grid C) (sa1 p1 sa2 : Z) :
  base7to10 sa1 = Ret p1 ->
  forall (todo : nat) (r : Z) (st : fill),
    rotation_loop fft sa1 p1 sa2 todo r st =
    fill_all (map (fun r => rotated_entry fft sa1 sa2 r) (zseq r todo)) st.
Proof.
  intros Hp. induction todo as [|todo IH]; intros r st; [reflexivity|].
  cbn [rotation_loop zseq map fill_all].
  unfold rotated_entry at 1, rotated_sa3. rewrite Hp. cbn [bind].
  destruct (spiral_mult sa2 r 0) as [[s|]| |]; [|reflexivity..].
  cbn [bind]. destruct (base7to10 s) as [p2| |]; [|reflexivity..].
  cbn [bind]. destruct (base10to7 (p1 + p2)) as [sa3| |]; [|reflexivity..].
  cbn [bind]. unfold emit.
  destruct (invariant fft sa1 sa2 sa3) as [v| |]; [|reflexivity..].
  cbn [bind]. destruct (setitem (fst st) (snd st) v); [|reflexivity..].
  cbn [bind]. apply IH.
Qed.

Lemma plain_fill (fft : grid C) (sa1 p1 sa2 : Z) (st : fill) :
  base7to10 sa1 = Ret p1 ->
  (sa2_base10 <- base7to10 sa2 ;;
   sa3 <- base10to7 (p1 + sa2_base10) ;;
   emit fft sa1 sa2 sa3 st) =
  fill_all [plain_entry fft sa1 sa2] st.
Proof.
  intros Hp. cbn [fill_all]. unfold plain_entry, plain_sa3. rewrite Hp.
  cbn [bind]. destruct (base7to10 sa2) as [p2| |]; [|reflexivity..].
  cbn [bind]. destruct (base10to7 (p1 + p2)) as [sa3| |]; [|reflexivity..].
  cbn [bind]. unfold emit.
  destruct (invariant fft sa1 sa2 sa3) as [v| |]; [|reflexivity..].
  cbn [bind]. destruct (setitem (fst st) (snd st) v); reflexivity.
Qed.

Lemma inner_loop_fill (fft : grid C) (rotational : bool) (sa1 p1 : Z) :
  base7to10 sa1 = Ret p1 ->
  forall (rest pre : list Z) (st : fill),
    indexes = pre ++ rest ->
    inner_loop fft rotational sa1 p1 (length rest) (length pre) st =
    fill_all (flat_map (entries_for fft rotational sa1) rest) st.
Proof.
  intros Hp rest. induction rest as [|sa2 rest IH]; intros pre st Hsplit;
    [reflexivity|].
  cbn [length inner_loop flat_map]. rewrite Hsplit at 1.
  rewrite getitem_app. cbn [bind]. rewrite fill_all_app.
  assert ((if rotational
           then rotation_loop fft sa1 p1 sa2 6 0 st
           else
             sa2_base10 <- base7to10 sa2 ;;
             sa3 <- base10to7 (p1 + sa2_base10) ;;
             emit fft sa1 sa2 sa3 st) =
          fill_all (entries_for fft rotational sa1 sa2) st) as ->.
  { destruct rotational.
    - rewrite (rotation_loop_fill fft sa1 p1 sa2 Hp). reflexivity.
    - apply plain_fill. exact Hp. }
  destruct (fill_all (entries_for fft rotational sa1 sa2) st) as [st'| |];
    [|reflexivity..].
  cbn [bind].
  replace (S (length pre)) with (length (pre ++ [sa2]))
    by (rewrite length_app; cbn [length]; lia).
  apply IH. rewrite <- app_assoc. exact Hsplit.
Qed.

Lemma outer_loop_fill (fft : grid C) (rotational : bool) :
  forall (rest pre : list Z) (st : fill),
    indexes = pre ++ rest ->
    outer_loop fft rotational (length rest) (length pre) st =
    fill_all
      (flat_map (fun sa1 => flat_map (entries_for fft rotational sa1) indexes)
         rest) st.
Proof.
  intros rest. induction rest as [|sa1 rest IH]; intros pre st Hsplit;
    [reflexivity|].
  cbn [length outer_loop flat_map]. rewrite Hsplit at 1.
  rewrite getitem_app. cbn [bind]. rewrite fill_all_app.
  assert (0 <= sa1 < 10 ^ 22) as H0.
  { assert (Forall (fun a => 0 <= a < 10 ^ 22) indexes) as Hf
      by (unfold indexes;
          repeat (apply Forall_cons; [split; [lia|reflexivity]|]);
          apply Forall_nil).
    rewrite Hsplit in Hf. apply Forall_app in Hf. destruct Hf as [_ Hf].
    inversion Hf. assumption. }
  pose proof (base7to10_val sa1 (proj1 H0) (proj2 (val7_int64 sa1 H0)))
    as Hb.
  rewrite Hb. cbn [bind].
  pose proof (inner_loop_fill fft rotational sa1 _ Hb
                indexes [] st eq_refl) as Hi.
  change (length indexes) with 9%nat in Hi. cbn [length] in Hi. rewrite Hi.
  destruct (fill_all (flat_map (entries_for fft rotational sa1) indexes) st)
    as [st'| |]; [|reflexivity..].
  cbn [bind].
  replace (S (length pre)) with (length (pre ++ [sa1]))
    by (rewrite length_app; cbn [length]; lia).
  apply IH. rewrite <- app_assoc. exact Hsplit.
Qed.

(** [bispectral_inv] returns the values of its entries in their order, or
    fails as the first entry that fails. *)
Lemma bispectral_inv_sequence (fft : grid C) (rotational : bool) :
  bispectral_inv fft rotational = sequence (all_entries fft rotational).
Proof.
  unfold bispectral_inv.
  set (bispectrum :=
         if rotational then repeat czero (9 ^ 2 * 6) else repeat czero (9 ^ 2)).
  pose proof (outer_loop_fill fft rotational indexes [] (bispectrum, 0%nat)
                eq_refl) as Ho.
  change (length indexes) with 9%nat in Ho. cbn [length] in Ho. rewrite Ho.
  fold (all_entries fft rotational).
  pose proof (fill_all_sequence (all_entries fft rotational) [] bispectrum)
    as Hf.
  cbn [app length] in Hf. rewrite Hf.
  - destruct (sequence (all_entries fft rotational)); reflexivity.
  - unfold bispectrum. destruct rotational; reflexivity.
Qed.

Lemma nth_flat_map_block {A B : Type} (f : A -> list B) (m : nat)
    (d : B) (da : A) (l : list A) :
  (forall x, length (f x) = m) ->
  forall i k,
    (i < length l)%nat -> (k < m)%nat ->
    nth (m * i + k) (flat_map f l) d = nth k (f (nth i l da)) d.
Proof.
  intros Hm. induction l as [|a l IH]; intros i k Hi Hk; [cbn in Hi; lia|].
  cbn [flat_map]. destruct i as [|i].
  - rewrite Nat.mul_0_r, Nat.add_0_l. apply app_nth1. rewrite Hm. exact Hk.
  - rewrite app_nth2 by (rewrite Hm; lia). rewrite Hm.
    replace (m * S i + k - m)%nat with (m * i + k)%nat by lia.
    cbn [nth]. apply IH; [cbn in Hi; lia|exact Hk].
Qed.

Lemma nth_map_in {A B : Type} (g : A -> B) (l : list A) (d : B) (da : A)
    (k : nat) :
  (k < length l)%nat -> nth k (map g l) d = g (nth k l da).
Proof.
  intros Hk. rewrite (nth_indep _ d (g da)) by (rewrite length_map; exact Hk).
  apply map_nth.
Qed.

Lemma plain_entries_all (fft : grid C) :
  plain_entries fft = all_entries fft false.
Proof. reflexivity. Qed.

Lemma rotated_entries_all (fft : grid C) :
  rotated_entries fft = all_entries fft true.
Proof. reflexivity. Qed.

Lemma plain_entries_nth (fft : grid C) (i k : nat) :
  (i < 9)%nat -> (k < 9)%nat ->
  nth (9 * i + k) (plain_entries fft) Diverge =
  plain_entry fft (nth i indexes 0) (nth k indexes 0).
Proof.
  intros Hi Hk. unfold plain_entries.
  rewrite (nth_flat_map_block _ 9 Diverge 0) by (reflexivity || assumption).
  apply nth_map_in. exact Hk.
Qed.

Lemma rotations_nth (r : nat) :
  (r < 6)%nat -> nth r rotations 0 = Z.of_nat r.
Proof.
  intros Hr. do 6 (destruct r as [|r]; [reflexivity|]). lia.
Qed.

Lemma rotated_entries_nth (fft : grid C) (i k r : nat) :
  (i < 9)%nat -> (k < 9)%nat -> (r < 6)%nat ->
  nth (54 * i + 6 * k + r) (rotated_entries fft) Diverge =
  rotated_entry fft (nth i indexes 0) (nth k indexes 0) (Z.of_nat r).
Proof.
  intros Hi Hk Hr. unfold rotated_entries.
  rewrite <- Nat.add_assoc.
  rewrite (nth_flat_map_block _ 54 Diverge 0)
    by (reflexivity || assumption || lia).
  rewrite (nth_flat_map_block _ 6 Diverge 0)
    by (reflexivity || assumption).
  rewrite (nth_map_in _ rotations Diverge 0) by exact Hr.
  rewrite rotations_nth by exact Hr. reflexivity.
Qed.

(** *** Grids on which every entry evaluates *)

Lemma axis_index_returns (i n m : Z) :
  - m <= i < m -> m <= n -> exists j, axis_index i n = Ret j.
Proof.
  intros Hi Hn. unfold axis_index.
  destruct ((0 <=? i) && (i <? n)) eqn:E1; [eexists; reflexivity|].
  destruct ((- n <=? i) && (i <? 0)) eqn:E2; [eexists; reflexivity|].
  exfalso.
  apply andb_false_iff in E1, E2.
  rewrite Z.leb_gt, Z.ltb_ge in E1. rewrite Z.leb_gt, Z.ltb_ge in E2. lia.
Qed.

Lemma sa_value_loop_returns (g : grid C) (hp : list vec2) :
  (forall p, In p hp -> exists x, grid_getitem g (fst p) (snd p) = Ret x) ->
  forall (todo i : nat) (val : C),
    (i + todo <= length hp)%nat ->
    exists v, sa_value_loop g hp todo i val = Ret v.
Proof.
  intros Hp todo. induction todo as [|todo IH]; intros i val Hi.
  - exists val. reflexivity.
  - cbn [sa_value_loop]. unfold getitem.
    destruct (nth_error hp i) as [p|] eqn:E.
    + cbn [bind]. destruct (Hp p) as [x ->]; [eapply nth_error_In; exact E|].
      cbn [bind]. apply IH. lia.
    + apply nth_error_None in E. lia.
Qed.

(** [sa_value] returns on every grid that holds the hyperpel of the
    address. *)
Lemma sa_value_returns (g : grid C) (n addr : Z) :
  n <= nrows g -> n <= ncols g ->
  is_address addr = true -> footprint_within n addr = true ->
  exists v, sa_value g addr = Ret v.
Proof.
  intros Hr Hc Ha Hw. unfold sa_value.
  rewrite sa2hex_offset_sum by exact Ha. cbn [bind].
  destruct (sa_value_loop_returns g
              (map (fun p => vadd p (address_offset addr)) hyperpel_sa))
    with (todo := 56%nat) (i := 0%nat) (val := czero) as [v Hv].
  - intros p Hp. apply in_map_iff in Hp. destruct Hp as [q [<- Hq]].
    unfold footprint_within in Hw. rewrite forallb_forall in Hw.
    specialize (Hw q Hq). cbv zeta in Hw.
    apply andb_true_iff in Hw. destruct Hw as [Hw H4].
    apply andb_true_iff in Hw. destruct Hw as [Hw H3].
    apply andb_true_iff in Hw. destruct Hw as [H1 H2].
    apply Z.leb_le in H1, H3. apply Z.ltb_lt in H2, H4.
    unfold grid_getitem.
    destruct (axis_index_returns (fst (vadd q (address_offset addr)))
                (nrows g) n) as [r' ->]; [lia|exact Hr|].
    destruct (axis_index_returns (snd (vadd q (address_offset addr)))
                (ncols g) n) as [c' ->]; [lia|exact Hc|].
    cbn [bind]. eexists. reflexivity.
  - rewrite length_map. cbn. lia.
  - rewrite Hv. cbn [bind]. eexists. reflexivity.
Qed.

Lemma omegaf_returns (g : grid C) (n sa : Z) :
  n <= nrows g -> n <= ncols g -> components_within n sa = true ->
  exists o, omegaf g sa = Ret o.
Proof.
  intros Hr Hc Hw. rewrite omegaf_sequence. apply sequence_returns.
  apply Forall_forall. intros m Hm.
  apply in_map_iff in Hm. destruct Hm as [k [<- Hk]].
  unfold components_within in Hw. rewrite forallb_forall in Hw.
  specialize (Hw k Hk). unfold omega_component.
  destruct (spiral_mult sa k 0) as [[addr|]| |]; try discriminate Hw.
  cbn [bind]. apply andb_true_iff in Hw. destruct Hw as [Ha Hf].
  apply (sa_value_returns g n addr Hr Hc Ha Hf).
Qed.

Lemma invariant_returns (g : grid C) (n sa1 sa2 : Z) (sa3 : outcome Z) :
  n <= nrows g -> n <= ncols g -> triple_within n sa1 sa2 sa3 = true ->
  exists v, (a3 <- sa3 ;; invariant g sa1 sa2 a3) = Ret v.
Proof.
  intros Hr Hc Hw. unfold triple_within in Hw.
  destruct sa3 as [a3| |]; try discriminate Hw. cbn [bind].
  apply andb_true_iff in Hw. destruct Hw as [Hw H3].
  apply andb_true_iff in Hw. destruct Hw as [H1 H2].
  unfold invariant.
  destruct (omegaf_returns g n sa1 Hr Hc H1) as [o1 ->].
  destruct (omegaf_returns g n sa2 Hr Hc H2) as [o2 ->].
  destruct (omegaf_returns g n a3 Hr Hc H3) as [o3 ->].
  cbn [bind]. eexists. reflexivity.
Qed.

(** The hyperpels of the plain bispectrum have their indices in
    [[-33, 33)], those of the rotational one in [[-68, 68)], and no
    less. *)
Lemma plain_within_33 : plain_within 33 = true /\ plain_within 32 = false.
Proof. split; vm_compute; reflexivity. Qed.

Lemma rotated_within_68 :
  rotated_within 68 = true /\ rotated_within 67 = false.
Proof. split; vm_compute; reflexivity. Qed.

Lemma plain_within_spec (n sa1 sa2 : Z) :
  plain_within n = true -> In sa1 indexes -> In sa2 indexes ->
  triple_within n sa1 sa2 (plain_sa3 sa1 sa2) = true.
Proof.
  unfold plain_within. intros Hw H1 H2.
  rewrite forallb_forall in Hw. specialize (Hw sa1 H1).
  rewrite forallb_forall in Hw. exact (Hw sa2 H2).
Qed.

Lemma rotated_within_spec (n sa1 sa2 r : Z) :
  rotated_within n = true ->
  In sa1 indexes -> In sa2 indexes -> In r rotations ->
  triple_within n sa1 sa2 (rotated_sa3 sa1 sa2 r) = true.
Proof.
  unfold rotated_within. intros Hw H1 H2 H3.
  rewrite forallb_forall in Hw. specialize (Hw sa1 H1).
  rewrite forallb_forall in Hw. specialize (Hw sa2 H2).
  rewrite forallb_forall in Hw. exact (Hw r H3).
Qed.

Lemma plain_entries_return (g : grid C) :
  33 <= nrows g -> 33 <= ncols g ->
  Forall (fun m => exists v, m = Ret v) (plain_entries g).
Proof.
  intros Hr Hc. apply Forall_forall. intros m Hm.
  unfold plain_entries in Hm. apply in_flat_map in Hm.
  destruct Hm as [sa1 [H1 Hm]]. apply in_map_iff in Hm.
  destruct Hm as [sa2 [<- H2]].
  apply (invariant_returns g 33 sa1 sa2 _ Hr Hc).
  apply plain_within_spec; [exact (proj1 plain_within_33)|assumption..].
Qed.

Lemma rotated_entries_return (g : grid C) :
  68 <= nrows g -> 68 <= ncols g ->
  Forall (fun m => exists v, m = Ret v) (rotated_entries g).
Proof.
  intros Hr Hc. apply Forall_forall. intros m Hm.
  unfold rotated_entries in Hm. apply in_flat_map in Hm.
  destruct Hm as [sa1 [H1 Hm]]. apply in_flat_map in Hm.
  destruct Hm as [sa2 [H2 Hm]]. apply in_map_iff in Hm.
  destruct Hm as [r [<- H3]].
  apply (invariant_returns g 68 sa1 sa2 _ Hr Hc).
  apply rotated_within_spec; [exact (proj1 rotated_within_68)|assumption..].
Qed.

(** C3. For every ordered pair [(sa1, sa2)] of the nine canonical
    addresses, the plain bispectrum has the entry
    [invariant(spectrum, sa1, sa2, sa3)] with
    [sa3 = base10to7(base7to10(sa1) + base7to10(sa2))], and the rotational
    one has, for each [r] in 0..5, the entry
    [invariant(spectrum, sa1, sa2, sa3)], its second argument the unrotated
    [sa2], with
    [sa3 = base10to7(base7to10(sa1) + base7to10(spiral_mult(sa2, r)))];
    [bispectral_inv] returns the values of these entries. *)
Theorem bispectral_inv_entries (fft : grid C) (sa1 sa2 : Z)
    (H1 : In sa1 indexes) (H2 : In sa2 indexes) :
  (bispectral_inv fft false = sequence (plain_entries fft) /\
   In (plain_entry fft sa1 sa2) (plain_entries fft) /\
   plain_entry fft sa1 sa2 =
     (p1 <- base7to10 sa1 ;;
      p2 <- base7to10 sa2 ;;
      sa3 <- base10to7 (p1 + p2) ;;
      invariant fft sa1 sa2 sa3)) /\
  (bispectral_inv fft true = sequence (rotated_entries fft) /\
   forall r, In r rotations ->
     In (rotated_entry fft sa1 sa2 r) (rotated_entries fft) /\
     rotated_entry fft sa1 sa2 r =
       (p1 <- base7to10 sa1 ;;
        m <- spiral_mult sa2 r 0 ;;
        match m with
        | None => Raise TypeError
        | Some sa2_rot =>
            p2 <- base7to10 sa2_rot ;;
            sa3 <- base10to7 (p1 + p2) ;;
            invariant fft sa1 sa2 sa3
        end)).
Proof.
  split; [split; [|split]|split].
  - rewrite plain_entries_all. apply bispectral_inv_sequence.
  - unfold plain_entries. apply in_flat_map. exists sa1.
    split; [exact H1|]. apply in_map_iff. exists sa2. split; [reflexivity|exact H2].
  - unfold plain_entry, plain_sa3.
    destruct (base7to10 sa1); [|reflexivity..]. cbn [bind].
    destruct (base7to10 sa2); [|reflexivity..]. reflexivity.
  - rewrite rotated_entries_all. apply bispectral_inv_sequence.
  - intros r Hr. split.
    + unfold rotated_entries. apply in_flat_map. exists sa1.
      split; [exact H1|]. apply in_flat_map. exists sa2.
      split; [exact H2|]. apply in_map_iff. exists r.
      split; [reflexivity|exact Hr].
    + unfold rotated_entry, rotated_sa3.
      destruct (base7to10 sa1); [|reflexivity..]. cbn [bind].
      destruct (spiral_mult sa2 r 0) as [[s|]| |]; [|reflexivity..].
      cbn [bind]. destruct (base7to10 s); [|reflexivity..]. reflexivity.
Qed.

(** C7. [bispectral_inv] fills a vector of 81 entries, or of 486 in
    rotational mode, in a fixed order: the entry of the pair
    [(indexes[i], indexes[k])] is at position [9*i + k], and in rotational
    mode that of the rotation [r] of that pair at [54*i + 6*k + r]; it
    returns the vector when every entry evaluates, which they do on every
    spectrum of at least 33 by 33 cells, and of at least 68 by 68 in
    rotational mode.  The addresses are taken from 0, 1, 10, 11, 12, 13,
    14, 15, 16 in that order. *)
Theorem bispectral_inv_length_order (fft : grid C) :
  indexes = [0; 1; 10; 11; 12; 13; 14; 15; 16] /\
  (length (plain_entries fft) = 81%nat /\
   ((forall j, (j < 81)%nat ->
       exists v, nth j (plain_entries fft) Diverge = Ret v) ->
    exists l, bispectral_inv fft false = Ret l) /\
   (33 <= nrows fft -> 33 <= ncols fft ->
    exists l, bispectral_inv fft false = Ret l /\ length l = 81%nat) /\
   forall l, bispectral_inv fft false = Ret l ->
     length l = 81%nat /\
     forall i k, (i < 9)%nat -> (k < 9)%nat ->
       plain_entry fft (nth i indexes 0) (nth k indexes 0) =
       Ret (nth (9 * i + k) l czero)) /\
  (length (rotated_entries fft) = 486%nat /\
   ((forall j, (j < 486)%nat ->
       exists v, nth j (rotated_entries fft) Diverge = Ret v) ->
    exists l, bispectral_inv fft true = Ret l) /\
   (68 <= nrows fft -> 68 <= ncols fft ->
    exists l, bispectral_inv fft true = Ret l /\ length l = 486%nat) /\
   forall l, bispectral_inv fft true = Ret l ->
     length l = 486%nat /\
     forall i k r, (i < 9)%nat -> (k < 9)%nat -> (r < 6)%nat ->
       rotated_entry fft (nth i indexes 0) (nth k indexes 0) (Z.of_nat r) =
       Ret (nth (54 * i + 6 * k + r) l czero)).
Proof.
  split; [reflexivity|].
  split; (split; [reflexivity|split; [|split]]).
  - intros Hall.
    rewrite bispectral_inv_sequence, <- plain_entries_all.
    apply sequence_returns. apply Forall_forall. intros m Hm.
    destruct (In_nth _ _ Diverge Hm) as [j [Hj <-]].
    apply Hall. exact Hj.
  - intros Hr Hc.
    rewrite bispectral_inv_sequence, <- plain_entries_all.
    destruct (sequence_returns _ (plain_entries_return fft Hr Hc)) as [l Hl].
    exists l. split; [exact Hl|]. apply sequence_length in Hl. exact Hl.
  - intros l Hl. rewrite bispectral_inv_sequence, <- plain_entries_all in Hl.
    split; [apply sequence_length in Hl; exact Hl|].
    intros i k Hi Hk. rewrite <- plain_entries_nth by assumption.
    apply sequence_nth; [exact Hl|].
    change (length (plain_entries fft)) with 81%nat. lia.
  - intros Hall.
    rewrite bispectral_inv_sequence, <- rotated_entries_all.
    apply sequence_returns. apply Forall_forall. intros m Hm.
    destruct (In_nth _ _ Diverge Hm) as [j [Hj <-]].
    apply Hall. exact Hj.
  - intros Hr Hc.
    rewrite bispectral_inv_sequence, <- rotated_entries_all.
    destruct (sequence_returns _ (rotated_entries_return fft Hr Hc))
      as [l Hl].
    exists l. split; [exact Hl|]. apply sequence_length in Hl. exact Hl.
  - intros l Hl. rewrite bispectral_inv_sequence, <- rotated_entries_all in Hl.
    split; [apply sequence_length in Hl; exact Hl|].
    intros i k r Hi Hk Hr. rewrite <- rotated_entries_nth by assumption.
    apply sequence_nth; [exact Hl|].
    change (length (rotated_entries fft)) with 486%nat. lia.
Qed.

End Invariants.

Section InvariantInstances.

(** The instances on [float64] below take the dot product that adds in
    index order. *)
#[local] Existing Instance dot_in_order.



Lemma bispectral_inv_entries_witness :
  In (plain_entry (constant_grid 64 64 1%float) 10 16)
     (plain_entries (constant_grid 64 64 1%float)) /\
  In (rotated_entry (constant_grid 64 64 1%float) 10 16 5)
     (rotated_entries (constant_grid 64 64 1%float)).
Proof.
  assert (In 10 indexes) as H1 by (unfold indexes; cbn [In]; auto 12).
  assert (In 16 indexes) as H2 by (unfold indexes; cbn [In]; auto 12).
  pose proof (bispectral_inv_entries (constant_grid 64 64 1%float) 10 16 H1 H2)
    as [[_ [Hp _]] [_ Hr]].
  split; [exact Hp|]. apply Hr. unfold rotations. cbn [In]. auto 12.
Defined.

Lemma bispectral_inv_length_order_witness :
  (exists l, bispectral_inv (constant_grid 68 68 1%float) false = Ret l /\
             length l = 81%nat) /\
  (exists l, bispectral_inv (constant_grid 68 68 1%float) true = Ret l /\
             length l = 486%nat).
Proof.
  pose proof (bispectral_inv_length_order (constant_grid 68 68 1%float))
    as [_ [[_ [_ [Hp _]]] [_ [_ [Hr _]]]]].
  split.
  - apply Hp; cbn [nrows ncols constant_grid]; lia.
  - apply Hr; cbn [nrows ncols constant_grid]; lia.
Defined.

(** For square spectra these sizes are the least ones: a smaller one does
    not hold every hyperpel, and the first index out of range ends the
    run. *)
Lemma bispectral_inv_small_grid :
  bispectral_inv (constant_grid 32 32 1%float) false = Raise IndexError /\
  bispectral_inv (constant_grid 67 67 1%float) true = Raise IndexError.
Proof. split; vm_compute; reflexivity. Qed.

End InvariantInstances.

(** ** The lattice of the hyperpel centres *)

(** Equalities between lattice points, by components. *)
Ltac pair_hyps :=
  repeat match goal with
  | H : ?a = ?b |- _ =>
      let T := type of a in
      let T' := eval cbv delta [vec2] in T in
      lazymatch T' with
      | (Z * Z)%type =>
          let H1 := fresh H "f" in
          let H2 := fresh H "s" in
          pose proof (f_equal fst H) as H1;
          pose proof (f_equal snd H) as H2;
          clear H
      end
  end.

Ltac lattice :=
  pair_hyps; unfold vadd, vscale, lift, emul, hex_of in *; cbn [fst snd] in *;
  try apply injective_projections; cbn [fst snd]; try lia; try ring.

Section Lattice.

Lemma lift_vadd (u v : Z * Z) : lift (vadd u v) = vadd (lift u) (lift v).
Proof. lattice. Qed.

Lemma lift_zero : lift (0, 0) = (0, 0).
Proof. reflexivity. Qed.

Lemma lift_inj (u v : Z * Z) : lift u = lift v -> u = v.
Proof. intros H. destruct u, v. lattice. Qed.

Lemma liftn_vadd (z : nat) (u v : Z * Z) :
  liftn z (vadd u v) = vadd (liftn z u) (liftn z v).
Proof.
  induction z as [|z IH]; [reflexivity|].
  cbn [liftn]. rewrite IH. apply lift_vadd.
Qed.

Lemma liftn_zero (z : nat) : liftn z (0, 0) = (0, 0).
Proof. induction z as [|z IH]; [reflexivity|]. cbn [liftn]. rewrite IH. reflexivity. Qed.

Lemma liftn_lift (z : nat) (u : Z * Z) : liftn z (lift u) = lift (liftn z u).
Proof. induction z as [|z IH]; [reflexivity|]. cbn [liftn]. rewrite IH. reflexivity. Qed.

Lemma liftn_add (i j : nat) (u : Z * Z) : liftn (i + j) u = liftn i (liftn j u).
Proof. induction i as [|i IH]; [reflexivity|]. cbn [liftn Nat.add]. rewrite IH. reflexivity. Qed.

Lemma liftn_scale (z : nat) (k : Z) (u : Z * Z) :
  liftn z (vscale k u) = vscale k (liftn z u).
Proof.
  induction z as [|z IH]; [reflexivity|].
  cbn [liftn]. rewrite IH. lattice.
Qed.

Lemma hex_of_vadd (u v : Z * Z) : hex_of (vadd u v) = vadd (hex_of u) (hex_of v).
Proof. lattice. Qed.

Lemma hex_of_scale (k : Z) (u : Z * Z) : hex_of (vscale k u) = vscale k (hex_of u).
Proof. lattice. Qed.

Lemma hex_of_inj (u v : Z * Z) : hex_of u = hex_of v -> u = v.
Proof. intros H. destruct u, v. lattice. Qed.

(** The next symbol is the sixth of a turn further. *)
Lemma coord_next (a : Z) :
  1 <= a <= 6 -> coord (a mod 6 + 1) = emul (0, 1) (coord a).
Proof. intros Ha. symbol_cases a; (lia || reflexivity). Qed.

Lemma offset_liftn (z : nat) :
  forall a, 1 <= a <= 6 -> offset a z = hex_of (liftn z (coord a)).
Proof.
  induction z as [|z IH]; intros a Ha.
  - symbol_cases a; (lia || reflexivity).
  - cbn [offset liftn]. rewrite (IH a Ha), (IH (a mod 6 + 1) (next_symbol_range a)).
    rewrite coord_next by exact Ha.
    rewrite <- hex_of_scale, <- hex_of_vadd, <- liftn_scale, <- liftn_vadd, <- liftn_lift.
    do 2 f_equal. destruct (coord a). lattice.
Qed.

Lemma offset_sum_point (l : list Z) :
  Forall (fun d => 0 <= d <= 6) l ->
  forall i, offset_sum l i = hex_of (liftn i (point_of_digits l)).
Proof.
  intros Hl. induction Hl as [|d l Hd _ IH]; intros i.
  - cbn [offset_sum point_of_digits]. rewrite liftn_zero. reflexivity.
  - cbn [offset_sum point_of_digits]. rewrite IH, liftn_vadd, hex_of_vadd, liftn_lift.
    cbn [liftn]. f_equal.
    destruct (Z.eqb_spec d 0) as [->|Hd0].
    + cbn [coord]. rewrite liftn_zero. reflexivity.
    + apply offset_liftn. lia.
Qed.

(** The centre of the hyperpel of an address is its lattice point. *)
Lemma address_offset_point (a : Z) :
  is_address a = true -> address_offset a = hex_of (point a).
Proof.
  intros Ha. apply is_address_spec in Ha. destruct Ha as [_ Hd].
  unfold address_offset, point. rewrite offset_sum_point by exact Hd.
  reflexivity.
Qed.


(** *** Addition is the addition of the lattice *)

Lemma sum_point_spec (u : Z * Z) (r : outcome (option Z)) :
  sum_point u r = true -> exists t, r = Ret (Some t) /\ point t = u.
Proof.
  destruct r as [[t|]| |]; cbn [sum_point]; try discriminate.
  intros H. apply andb_true_iff in H. destruct H as [H1 H2].
  apply Z.eqb_eq in H1, H2. exists t. split; [reflexivity|].
  destruct (point t), u. cbn [fst snd] in *. congruence.
Qed.

Lemma entry_point_sums (k : nat) :
  forallb (fun x =>
    forallb (fun y =>
      sum_point (vadd (point x) (coord y)) (spiral_add_rec (S (S k)) x y 0))
      (symbols_upto 6))
    table_entries = true.
Proof. vm_compute. reflexivity. Qed.

Lemma symbol_point_sums (k : nat) :
  forallb (fun x =>
    forallb (fun y =>
      sum_point (vadd (coord x) (coord y)) (spiral_add_rec (S k) x y 0))
      (symbols_upto 6))
    (symbols_upto 6) = true.
Proof. vm_compute. reflexivity. Qed.

Lemma entry_point_sum (k : nat) (x y : Z) :
  In x table_entries -> 0 <= y <= 6 ->
  exists t, spiral_add_rec (S (S k)) x y 0 = Ret (Some t) /\
            point t = vadd (point x) (coord y).
Proof.
  intros Hx Hy. pose proof (entry_point_sums k) as H.
  rewrite forallb_forall in H. specialize (H x Hx).
  rewrite forallb_forall in H.
  specialize (H y (in_symbols_upto 6 y ltac:(lia))).
  apply sum_point_spec. exact H.
Qed.

Lemma symbol_point_sum (k : nat) (x y : Z) :
  0 <= x <= 6 -> 0 <= y <= 6 ->
  exists t, spiral_add_rec (S k) x y 0 = Ret (Some t) /\
            point t = vadd (coord x) (coord y).
Proof.
  intros Hx Hy. pose proof (symbol_point_sums k) as H.
  rewrite forallb_forall in H.
  specialize (H x (in_symbols_upto 6 x ltac:(lia))).
  rewrite forallb_forall in H.
  specialize (H y (in_symbols_upto 6 y ltac:(lia))).
  apply sum_point_spec. exact H.
Qed.

(** Zeros above the last digit that is not zero change neither the number
    nor the point. *)
Lemma point_of_zeros (l : list Z) :
  (forall i, nth i l 0 = 0) -> point_of_digits l = (0, 0).
Proof.
  induction l as [|d l IH]; intros H; [reflexivity|].
  cbn [point_of_digits]. pose proof (H 0%nat) as H0. cbn [nth] in H0. subst d.
  rewrite IH; [reflexivity|]. intros i. exact (H (S i)).
Qed.

Lemma point_of_digits_ext (l : list Z) :
  forall l', (forall i, nth i l 0 = nth i l' 0) ->
             point_of_digits l = point_of_digits l'.
Proof.
  induction l as [|d l IH]; intros l' H.
  - symmetry. apply point_of_zeros. intros i. rewrite <- H. destruct i; reflexivity.
  - destruct l' as [|d' l'].
    + apply point_of_zeros. intros i. rewrite H. destruct i; reflexivity.
    + cbn [point_of_digits]. pose proof (H 0%nat) as H0. cbn [nth] in H0.
      subst d'. f_equal. f_equal. apply IH. intros i. exact (H (S i)).
Qed.

Lemma point_val (ds : list Z) :
  Forall (fun d => 0 <= d <= 9) ds -> point (val 10 ds) = point_of_digits ds.
Proof.
  intros Hds. unfold point. apply point_of_digits_ext. intros i.
  rewrite nth_digits by (apply val_nonneg; [lia|exact Hds]).
  apply digit_val. exact Hds.
Qed.

Lemma point_symbol (d : Z) : 0 <= d <= 6 -> point d = coord d.
Proof. intros Hd. symbol_cases d; reflexivity. Qed.

Lemma point_small_sum (t : Z) :
  0 <= t <= 66 -> 0 <= t mod 10 <= 6 ->
  point t = vadd (coord (t mod 10)) (lift (coord (t / 10))).
Proof.
  intros Ht Hm. destruct (small_sum_digits t Ht Hm) as [Hds Hv].
  rewrite <- Hv at 1. rewrite point_val by (apply Forall_6_9; exact Hds).
  cbn [point_of_digits]. destruct (coord (t / 10)). lattice.
Qed.

(** The loop of [spiral_add] on the digits of two addresses: the digits it
    writes are those of the sum of the two lattice points. *)
Lemma add_digits_point (k : nat) (lb : list Z) :
  forall (la : list Z) (a : Z) (i : nat) (res : Z) (m : nat),
    In a table_entries ->
    Forall (fun d => 0 <= d <= 6) la ->
    Forall (fun d => 0 <= d <= 6) lb ->
    length la = m -> length lb = S m ->
    exists ds,
      Forall (fun d => 0 <= d <= 6) ds /\
      length ds = S (S m) /\
      add_digits (fun x y => spiral_add_rec (S (S k)) x y 0) (a :: la) lb i res
      = Ret (res + 10 ^ Z.of_nat i * val 10 ds) /\
      point_of_digits ds =
      vadd (vadd (point a) (lift (point_of_digits la))) (point_of_digits lb).
Proof.
  induction lb as [|b lb IH]; intros la a i res m Ha Hla Hlb Hm Hn;
    [discriminate Hn|].
  inversion Hlb as [|? ? Hb Hlb']; subst.
  destruct la as [|a1 la].
  - rewrite add_digits_last.
    destruct (small_sum_spec k a b Ha Hb) as [t [Et [Ht Htm]]].
    destruct (entry_point_sum k a b Ha Hb) as [t' [Et' Hp]].
    rewrite Et in Et'. injection Et' as <-. rewrite Et.
    cbn [bind length]. destruct (small_sum_digits t Ht Htm) as [Hds Hv].
    exists [t mod 10; t / 10]. split; [exact Hds|]. split; [reflexivity|].
    split; [rewrite Hv; f_equal; lia|].
    destruct lb; [|cbn [length] in Hn; lia].
    rewrite (point_small_sum t Ht Htm) in Hp.
    cbn [point_of_digits].
    destruct (coord (t mod 10)), (coord (t / 10)), (point a), (coord b).
    lattice.
  - inversion Hla as [|? ? Ha1 Hla']; subst.
    rewrite add_digits_step.
    destruct (small_sum_spec k a b Ha Hb) as [t [Et [Ht Htm]]].
    destruct (entry_point_sum k a b Ha Hb) as [t' [Et' Hp]].
    rewrite Et in Et'. injection Et' as <-. rewrite Et.
    cbn [bind].
    destruct (entry_sum_spec (S k) a1 _ Ha1 (carry_range t Ht))
      as [c [Ec Hc]].
    destruct (symbol_point_sum (S k) a1 _ Ha1 (carry_range t Ht))
      as [c' [Ec' Hpc]].
    rewrite Ec in Ec'. injection Ec' as <-. rewrite Ec.
    cbn [bind].
    destruct (IH la c (S i) (res + t mod 10 * 10 ^ Z.of_nat i) (length la)
                Hc Hla' Hlb' eq_refl) as [ds [Hds [Hlen [Hr Hpd]]]].
    { cbn [length] in Hn. lia. }
    exists (t mod 10 :: ds). split; [constructor; assumption|].
    split; [cbn [length]; lia|].
    split.
    + rewrite Hr. f_equal. cbn [val].
      rewrite Nat2Z.inj_succ, Z.pow_succ_r by lia. lia.
    + rewrite (point_small_sum t Ht Htm) in Hp.
      rewrite div10_sub in Hpc.
      cbn [point_of_digits]. rewrite Hpd.
      destruct (coord (t mod 10)), (coord (t / 10)), (point a), (coord b),
        (point c), (coord a1), (point_of_digits la), (point_of_digits lb).
      lattice.
Qed.

Lemma point_of_digits_resize (l : list Z) (n : nat) :
  point_of_digits (resize l n) = point_of_digits l.
Proof.
  apply point_of_digits_ext. intros i. apply nth_resize.
Qed.

(** [spiral_add] on two spiral addresses returns the address of the sum of
    their lattice points. *)
Lemma spiral_add_point (a b : Z) :
  is_address a = true -> is_address b = true ->
  exists r, spiral_add a b 0 = Ret (Some r) /\ is_address r = true /\
            point r = vadd (point a) (point b).
Proof.
  intros Ha Hb.
  pose proof (address_nonneg a Ha) as Ha0.
  pose proof (address_nonneg b Hb) as Hb0.
  destruct (Z_lt_le_dec a 10) as [Ha10|Ha10].
  1: destruct (Z_lt_le_dec b 10) as [Hb10|Hb10].
  1: { pose proof (is_address_small a ltac:(lia) Ha) as Ha6.
       pose proof (is_address_small b ltac:(lia) Hb) as Hb6.
       destruct (small_sum_spec 1 a b) as [t [Ht [Hr Hm]]];
         [apply symbol_is_entry; lia|lia|].
       destruct (symbol_point_sum 2 a b ltac:(lia) ltac:(lia))
         as [t' [Et' Hp]].
       unfold spiral_add. rewrite Ht in Et'. injection Et' as <-.
       exists t. split; [exact Ht|]. split.
       - destruct (small_sum_digits t Hr Hm) as [Hds Hv].
         rewrite <- Hv. apply is_address_val. exact Hds.
       - rewrite Hp, !point_symbol by lia. reflexivity. }
  all: unfold spiral_add; rewrite spiral_add_rec_long;
    auto using address_digits_7; cbv zeta.
  all: remember (Nat.max (length (digits a)) (length (digits b))) as n eqn:Hn.
  all: pose proof Ha as Fa; pose proof Hb as Fb.
  all: apply is_address_spec in Fa, Fb; destruct Fa as [_ Fa], Fb as [_ Fb].
  all: pose proof (digits_length_pos a Ha0); pose proof (digits_length_pos b Hb0).
  all: assert (length (resize (digits a) n) = n) as Hla
         by (apply length_resize; lia).
  all: assert (length (resize (digits b) n) = n) as Hlb
         by (apply length_resize; lia).
  all: pose proof (Forall_resize (fun d => 0 <= d <= 6) (digits a) n
                     ltac:(cbv beta; lia) Fa) as Ra.
  all: pose proof (Forall_resize (fun d => 0 <= d <= 6) (digits b) n
                     ltac:(cbv beta; lia) Fb) as Rb.
  all: pose proof (point_of_digits_resize (digits a) n) as Pa.
  all: pose proof (point_of_digits_resize (digits b) n) as Pb.
  all: destruct (resize (digits a) n) as [|a0 la]; [cbn in Hla; lia|].
  all: apply Forall_cons_iff in Ra; destruct Ra as [Ha0' Ra'].
  all: destruct (add_digits_point 0 (resize (digits b) n) la a0 0 0
                   (length la))
         as [ds [Hds [Hlen [Hr Hp]]]];
    [apply symbol_is_entry; assumption|assumption|assumption|reflexivity
    |cbn [length] in Hla; lia|].
  all: rewrite Hr; cbn [bind]; exists (val 10 ds).
  all: change (10 ^ Z.of_nat 0) with 1.
  all: change (negb (0 =? 0)) with false; cbv iota.
  all: split; [do 2 f_equal; lia|].
  all: split; [apply is_address_val; exact Hds|].
  all: rewrite point_val by (apply Forall_6_9; exact Hds).
  all: rewrite Hp, Pb.
  all: change (point a) with (point_of_digits (digits a)); rewrite <- Pa.
  all: cbn [point_of_digits]; rewrite point_symbol by exact Ha0'.
  all: reflexivity.
Qed.


(** *** Distinct addresses have distinct points *)

Lemma residue_lift (c u : Z * Z) : residue (vadd c (lift u)) = residue c.
Proof.
  unfold residue, vadd, lift. cbn [fst snd].
  replace (fst c + (fst u - 2 * snd u) + 3 * (snd c + (2 * fst u + 3 * snd u)))
    with (fst c + 3 * snd c + (fst u + snd u) * 7) by ring.
  apply Z_mod_plus_full.
Qed.

Lemma symbol_residue (d d' : Z) (u v : Z * Z) :
  0 <= d <= 6 -> 0 <= d' <= 6 ->
  vadd (coord d) (lift u) = vadd (coord d') (lift v) -> d = d'.
Proof.
  intros Hd Hd' H.
  assert (residue (coord d) = residue (coord d')) as Hr
    by (rewrite <- (residue_lift (coord d) u), H; apply residue_lift).
  clear H.
  symbol_cases d; symbol_cases d'; (reflexivity || discriminate Hr).
Qed.

Lemma point_of_digits_zero (l : list Z) :
  Forall (fun d => 0 <= d <= 6) l -> point_of_digits l = (0, 0) ->
  forall i, nth i l 0 = 0.
Proof.
  intros Hl. induction Hl as [|d l Hd _ IH]; intros H i.
  - destruct i; reflexivity.
  - cbn [point_of_digits] in H.
    assert (d = 0) as ->.
    { apply (symbol_residue d 0 (point_of_digits l) (0, 0)); [lia|lia|].
      rewrite H. reflexivity. }
    destruct i as [|i]; [reflexivity|]. cbn [nth]. apply IH.
    apply lift_inj. rewrite lift_zero. cbn [coord] in H.
    rewrite vadd_0_l in H. exact H.
Qed.

Lemma point_of_digits_inj (l : list Z) :
  forall l',
    Forall (fun d => 0 <= d <= 6) l -> Forall (fun d => 0 <= d <= 6) l' ->
    point_of_digits l = point_of_digits l' ->
    forall i, nth i l 0 = nth i l' 0.
Proof.
  induction l as [|d l IH]; intros l' Hl Hl' H i.
  - rewrite (point_of_digits_zero l' Hl' (eq_sym H)). destruct i; reflexivity.
  - destruct l' as [|d' l'].
    + rewrite (point_of_digits_zero (d :: l) Hl H). destruct i; reflexivity.
    + inversion Hl as [|? ? Hd Hl0]; inversion Hl' as [|? ? Hd' Hl0']; subst.
      cbn [point_of_digits] in H.
      pose proof (symbol_residue d d' _ _ Hd Hd' H) as ->.
      destruct i as [|i]; [reflexivity|]. cbn [nth].
      apply IH; [assumption|assumption|].
      apply lift_inj. destruct (coord d'), (lift (point_of_digits l)),
        (lift (point_of_digits l')). lattice.
Qed.

Lemma val_of_zeros (l : list Z) :
  (forall i, nth i l 0 = 0) -> val 10 l = 0.
Proof.
  induction l as [|d l IH]; intros H; [reflexivity|].
  cbn [val]. pose proof (H 0%nat) as H0. cbn [nth] in H0. subst d.
  rewrite IH; [reflexivity|]. intros i. exact (H (S i)).
Qed.

Lemma val_ext (l : list Z) :
  forall l', (forall i, nth i l 0 = nth i l' 0) -> val 10 l = val 10 l'.
Proof.
  induction l as [|d l IH]; intros l' H.
  - symmetry. apply val_of_zeros. intros i. rewrite <- H. destruct i; reflexivity.
  - destruct l' as [|d' l'].
    + apply val_of_zeros. intros i. rewrite H. destruct i; reflexivity.
    + cbn [val]. pose proof (H 0%nat) as H0. cbn [nth] in H0.
      subst d'. f_equal. f_equal. apply IH. intros i. exact (H (S i)).
Qed.

Lemma point_inj (a b : Z) :
  is_address a = true -> is_address b = true -> point a = point b -> a = b.
Proof.
  intros Ha Hb H. apply is_address_spec in Ha, Hb.
  destruct Ha as [Ha0 Fa], Hb as [Hb0 Fb].
  rewrite <- (val_digits a Ha0), <- (val_digits b Hb0).
  apply val_ext. apply point_of_digits_inj; assumption.
Qed.

(** *** Multiplication is the multiplication of the lattice *)

Lemma emul_comm (u v : Z * Z) : emul u v = emul v u.
Proof. lattice. Qed.

Lemma emul_assoc (u v w : Z * Z) : emul (emul u v) w = emul u (emul v w).
Proof. lattice. Qed.

Lemma emul_vadd_l (u v w : Z * Z) :
  emul (vadd u v) w = vadd (emul u w) (emul v w).
Proof. lattice. Qed.

Lemma emul_vadd_r (u v w : Z * Z) :
  emul u (vadd v w) = vadd (emul u v) (emul u w).
Proof. lattice. Qed.

Lemma emul_lift_l (u v : Z * Z) : emul (lift u) v = lift (emul u v).
Proof. lattice. Qed.

Lemma emul_lift_r (u v : Z * Z) : emul u (lift v) = lift (emul u v).
Proof. lattice. Qed.

Lemma emul_zero_l (u : Z * Z) : emul (0, 0) u = (0, 0).
Proof. lattice. Qed.

Lemma emul_zero_r (u : Z * Z) : emul u (0, 0) = (0, 0).
Proof. lattice. Qed.

Lemma emul_one_r (u : Z * Z) : emul u (1, 0) = u.
Proof. destruct u. lattice. Qed.

Lemma mult_lookup_point (x y : Z) :
  0 <= x <= 6 -> 0 <= y <= 6 ->
  exists m, table_lookup multiplication_table x y = Ret m /\ 0 <= m <= 6 /\
            coord m = emul (coord x) (coord y).
Proof.
  intros Hx Hy. symbol_cases x; symbol_cases y;
    (eexists; split; [reflexivity|split; [lia|reflexivity]]).
Qed.

Lemma point_of_digits_shift (d : Z) (k : nat) :
  point_of_digits (repeat 0 k ++ [d]) = liftn k (coord d).
Proof.
  induction k as [|k IH].
  - cbn [repeat app point_of_digits liftn]. destruct (coord d). lattice.
  - cbn [repeat app point_of_digits liftn]. rewrite IH. cbn [coord].
    apply vadd_0_l.
Qed.

Lemma point_shift (d : Z) (k : nat) :
  0 <= d <= 6 -> point (d * 10 ^ Z.of_nat k) = liftn k (coord d).
Proof.
  intros Hd. rewrite <- val_shift.
  rewrite point_val by (apply Forall_6_9, Forall_shift; exact Hd).
  apply point_of_digits_shift.
Qed.

Lemma spiral_mult_inner_point (dig_a : list Z) :
  forall (bi : Z) (i j : nat) (acc : Z),
    Forall (fun d => 0 <= d <= 6) dig_a -> 0 <= bi <= 6 ->
    is_address acc = true ->
    exists r, spiral_mult_inner dig_a bi i j (Some acc) = Ret (Some r) /\
              is_address r = true /\
              point r =
              vadd (point acc)
                (liftn (i + j) (emul (point_of_digits dig_a) (coord bi))).
Proof.
  induction dig_a as [|aj dig_a IH]; intros bi i j acc Hl Hb Hacc.
  - exists acc. split; [reflexivity|]. split; [exact Hacc|].
    cbn [point_of_digits]. rewrite emul_zero_l, liftn_zero, vadd_0_r.
    reflexivity.
  - inversion Hl as [|? ? Ha Hl']; subst.
    cbn [spiral_mult_inner].
    destruct (mult_lookup_point aj bi Ha Hb) as [m [-> [Hm Hcm]]].
    cbn [bind].
    destruct (spiral_add_point acc (m * 10 ^ Z.of_nat (i + j)) Hacc
                (is_address_shift m (i + j) Hm)) as [s [-> [Hs Hps]]].
    cbn [bind].
    destruct (IH bi i (S j) s Hl' Hb Hs) as [r [Hr [Har Hpr]]].
    exists r. split; [exact Hr|]. split; [exact Har|].
    rewrite Hpr, Hps, point_shift, Hcm by exact Hm.
    cbn [point_of_digits].
    rewrite emul_vadd_l, emul_lift_l, liftn_vadd, liftn_lift.
    replace (i + S j)%nat with (S (i + j)) by lia. cbn [liftn].
    apply vadd_assoc.
Qed.

Lemma spiral_mult_outer_point (dig_a dig_b : list Z) :
  forall (i : nat) (acc : Z),
    Forall (fun d => 0 <= d <= 6) dig_a ->
    Forall (fun d => 0 <= d <= 6) dig_b ->
    is_address acc = true ->
    exists r, spiral_mult_outer dig_a dig_b i (Some acc) = Ret (Some r) /\
              is_address r = true /\
              point r =
              vadd (point acc)
                (liftn i (emul (point_of_digits dig_a) (point_of_digits dig_b))).
Proof.
  induction dig_b as [|bi dig_b IH]; intros i acc Ha Hb Hacc.
  - exists acc. split; [reflexivity|]. split; [exact Hacc|].
    cbn [point_of_digits]. rewrite emul_zero_r, liftn_zero, vadd_0_r.
    reflexivity.
  - inversion Hb as [|? ? Hbi Hb']; subst.
    cbn [spiral_mult_outer].
    destruct (spiral_mult_inner_point dig_a bi i 0 acc Ha Hbi Hacc)
      as [s [-> [Hs Hps]]].
    cbn [bind].
    destruct (IH (S i) s Ha Hb' Hs) as [r [Hr [Har Hpr]]].
    exists r. split; [exact Hr|]. split; [exact Har|].
    rewrite Hpr, Hps. cbn [point_of_digits].
    rewrite emul_vadd_r, emul_lift_r, liftn_vadd, liftn_lift, Nat.add_0_r.
    cbn [liftn]. apply vadd_assoc.
Qed.

(** [spiral_mult] on two spiral addresses returns the address of the
    product of their lattice points. *)
Lemma spiral_mult_point (a b : Z) :
  is_address a = true -> is_address b = true ->
  exists r, spiral_mult a b 0 = Ret (Some r) /\ is_address r = true /\
            point r = emul (point a) (point b).
Proof.
  intros Ha Hb. rewrite spiral_mult_unfold by assumption.
  apply is_address_spec in Ha, Hb.
  destruct (spiral_mult_outer_point (digits a) (digits b) 0 0)
    as [r [Hr [Har Hpr]]]; [tauto|tauto|reflexivity|].
  exists r. split; [exact Hr|]. split; [exact Har|].
  rewrite Hpr. cbn [liftn]. change (point 0) with (0, 0).
  apply vadd_0_l.
Qed.


Lemma sa2hex_point (a : Z) :
  is_address a = true -> sa2hex a = Ret (Some (hex_of (point a))).
Proof.
  intros Ha. rewrite sa2hex_offset_sum by exact Ha.
  rewrite address_offset_point by exact Ha. reflexivity.
Qed.

(** X1. On two spiral addresses [spiral_add] returns the address whose
    hyperpel centre, as [sa2hex] computes it, is the vector sum of the
    centres of the operands. *)
Theorem spiral_add_centres (a b : Z)
    (Ha : is_address a = true) (Hb : is_address b = true) :
  exists r u v,
    spiral_add a b 0 = Ret (Some r) /\
    sa2hex a = Ret (Some u) /\ sa2hex b = Ret (Some v) /\
    sa2hex r = Ret (Some (vadd u v)).
Proof.
  destruct (spiral_add_point a b Ha Hb) as [r [Hr [Har Hp]]].
  exists r, (hex_of (point a)), (hex_of (point b)).
  split; [exact Hr|]. split; [apply sa2hex_point; exact Ha|].
  split; [apply sa2hex_point; exact Hb|].
  rewrite sa2hex_point by exact Har. rewrite Hp, hex_of_vadd. reflexivity.
Qed.

Lemma spiral_add_centres_witness :
  exists r u v,
    spiral_add 1603 245 0 = Ret (Some r) /\
    sa2hex 1603 = Ret (Some u) /\ sa2hex 245 = Ret (Some v) /\
    sa2hex r = Ret (Some (vadd u v)).
Proof. apply spiral_add_centres; reflexivity. Defined.

(** X2. Two different spiral addresses have different hyperpel centres:
    [sa2hex] is injective on the spiral addresses. *)
Theorem sa2hex_injective (a b : Z)
    (Ha : is_address a = true) (Hb : is_address b = true) (Hab : a <> b) :
  sa2hex a <> sa2hex b.
Proof.
  rewrite !sa2hex_point by assumption. intros H. apply Hab.
  apply point_inj; [assumption..|].
  apply hex_of_inj. congruence.
Qed.

Lemma sa2hex_injective_witness : sa2hex 25 <> sa2hex 52.
Proof. apply sa2hex_injective; [reflexivity|reflexivity|lia]. Defined.


(** X3. [spiral_add] is commutative on the spiral addresses, of any
    length. *)
Theorem spiral_add_commutative (a b : Z)
    (Ha : is_address a = true) (Hb : is_address b = true) :
  spiral_add a b 0 = spiral_add b a 0.
Proof.
  destruct (spiral_add_point a b Ha Hb) as [r [Hr [Har Hp]]].
  destruct (spiral_add_point b a Hb Ha) as [r' [Hr' [Har' Hp']]].
  rewrite Hr, Hr'. do 2 f_equal. apply point_inj; [assumption..|].
  rewrite Hp, Hp'. destruct (point a), (point b). lattice.
Qed.

Lemma spiral_add_commutative_witness :
  spiral_add 1603 245 0 = spiral_add 245 1603 0.
Proof. apply spiral_add_commutative; reflexivity. Defined.

(** X4. [spiral_add] is associative on the spiral addresses: both ways of
    adding three addresses return, and return the same address. *)
Theorem spiral_add_associative (a b c : Z)
    (Ha : is_address a = true) (Hb : is_address b = true)
    (Hc : is_address c = true) :
  exists ab bc r,
    spiral_add a b 0 = Ret (Some ab) /\
    spiral_add b c 0 = Ret (Some bc) /\
    spiral_add ab c 0 = Ret (Some r) /\
    spiral_add a bc 0 = Ret (Some r).
Proof.
  destruct (spiral_add_point a b Ha Hb) as [ab [Hab [Aab Pab]]].
  destruct (spiral_add_point b c Hb Hc) as [bc [Hbc [Abc Pbc]]].
  destruct (spiral_add_point ab c Aab Hc) as [r [Hr [Ar Pr]]].
  destruct (spiral_add_point a bc Ha Abc) as [r' [Hr' [Ar' Pr']]].
  exists ab, bc, r. repeat split; try assumption.
  rewrite Hr'. do 2 f_equal. apply point_inj; [assumption..|].
  rewrite Pr, Pr', Pab, Pbc. symmetry. apply vadd_assoc.
Qed.

Lemma spiral_add_associative_witness :
  exists ab bc r,
    spiral_add 1603 245 0 = Ret (Some ab) /\
    spiral_add 245 66 0 = Ret (Some bc) /\
    spiral_add ab 66 0 = Ret (Some r) /\
    spiral_add 1603 bc 0 = Ret (Some r).
Proof. apply spiral_add_associative; reflexivity. Defined.

(** X5. The address 0 is neutral for [spiral_add] on either side, and
    [spiral_mult(a, 4)] is the opposite of the address [a]: its centre is
    the opposite of the centre of [a], and their sum is 0. *)
Theorem spiral_add_zero_opposite (a : Z) (Ha : is_address a = true) :
  spiral_add a 0 0 = Ret (Some a) /\
  spiral_add 0 a 0 = Ret (Some a) /\
  exists n u,
    spiral_mult a 4 0 = Ret (Some n) /\ is_address n = true /\
    sa2hex a = Ret (Some u) /\ sa2hex n = Ret (Some (opposite u)) /\
    spiral_add a n 0 = Ret (Some 0).
Proof.
  assert (is_address 0 = true) as H0 by reflexivity.
  assert (is_address 4 = true) as H4 by reflexivity.
  split; [|split].
  - destruct (spiral_add_point a 0 Ha H0) as [r [Hr [Ar Pr]]].
    rewrite Hr. do 2 f_equal. apply point_inj; [assumption..|].
    rewrite Pr. apply vadd_0_r.
  - destruct (spiral_add_point 0 a H0 Ha) as [r [Hr [Ar Pr]]].
    rewrite Hr. do 2 f_equal. apply point_inj; [assumption..|].
    rewrite Pr. apply vadd_0_l.
  - destruct (spiral_mult_point a 4 Ha H4) as [n [Hn [An Pn]]].
    destruct (spiral_add_point a n Ha An) as [r [Hr [Ar Pr]]].
    exists n, (hex_of (point a)). split; [exact Hn|]. split; [exact An|].
    split; [apply sa2hex_point; exact Ha|].
    split.
    + rewrite sa2hex_point by exact An. rewrite Pn.
      change (point 4) with (-1, 0). do 2 f_equal.
      unfold opposite. destruct (point a). lattice.
    + rewrite Hr. do 2 f_equal. apply point_inj; [assumption..|].
      rewrite Pr, Pn. change (point 4) with (-1, 0). change (point 0) with (0, 0).
      destruct (point a). lattice.
Qed.

Lemma spiral_add_zero_opposite_witness :
  spiral_add 1603 0 0 = Ret (Some 1603) /\
  spiral_add 0 1603 0 = Ret (Some 1603) /\
  exists n u,
    spiral_mult 1603 4 0 = Ret (Some n) /\ is_address n = true /\
    sa2hex 1603 = Ret (Some u) /\ sa2hex n = Ret (Some (opposite u)) /\
    spiral_add 1603 n 0 = Ret (Some 0).
Proof. apply spiral_add_zero_opposite; reflexivity. Defined.

(** X6. [spiral_mult] is commutative and associative on the spiral
    addresses. *)
Theorem spiral_mult_commutative_associative (a b c : Z)
    (Ha : is_address a = true) (Hb : is_address b = true)
    (Hc : is_address c = true) :
  spiral_mult a b 0 = spiral_mult b a 0 /\
  exists ab bc r,
    spiral_mult a b 0 = Ret (Some ab) /\
    spiral_mult b c 0 = Ret (Some bc) /\
    spiral_mult ab c 0 = Ret (Some r) /\
    spiral_mult a bc 0 = Ret (Some r).
Proof.
  destruct (spiral_mult_point a b Ha Hb) as [ab [Hab [Aab Pab]]].
  destruct (spiral_mult_point b a Hb Ha) as [ba [Hba [Aba Pba]]].
  destruct (spiral_mult_point b c Hb Hc) as [bc [Hbc [Abc Pbc]]].
  destruct (spiral_mult_point ab c Aab Hc) as [r [Hr [Ar Pr]]].
  destruct (spiral_mult_point a bc Ha Abc) as [r' [Hr' [Ar' Pr']]].
  split.
  - rewrite Hab, Hba. do 2 f_equal. apply point_inj; [assumption..|].
    rewrite Pab, Pba. apply emul_comm.
  - exists ab, bc, r. repeat split; try assumption.
    rewrite Hr'. do 2 f_equal. apply point_inj; [assumption..|].
    rewrite Pr, Pr', Pab, Pbc. symmetry. apply emul_assoc.
Qed.

Lemma spiral_mult_commutative_associative_witness :
  spiral_mult 1603 245 0 = spiral_mult 245 1603 0 /\
  exists ab bc r,
    spiral_mult 1603 245 0 = Ret (Some ab) /\
    spiral_mult 245 66 0 = Ret (Some bc) /\
    spiral_mult ab 66 0 = Ret (Some r) /\
    spiral_mult 1603 bc 0 = Ret (Some r).
Proof. apply spiral_mult_commutative_associative; reflexivity. Defined.

(** X7. [spiral_mult] distributes over [spiral_add] on the spiral
    addresses. *)
Theorem spiral_mult_distributive (a b c : Z)
    (Ha : is_address a = true) (Hb : is_address b = true)
    (Hc : is_address c = true) :
  exists bc ab ac r,
    spiral_add b c 0 = Ret (Some bc) /\
    spiral_mult a b 0 = Ret (Some ab) /\
    spiral_mult a c 0 = Ret (Some ac) /\
    spiral_mult a bc 0 = Ret (Some r) /\
    spiral_add ab ac 0 = Ret (Some r).
Proof.
  destruct (spiral_add_point b c Hb Hc) as [bc [Hbc [Abc Pbc]]].
  destruct (spiral_mult_point a b Ha Hb) as [ab [Hab [Aab Pab]]].
  destruct (spiral_mult_point a c Ha Hc) as [ac [Hac [Aac Pac]]].
  destruct (spiral_mult_point a bc Ha Abc) as [r [Hr [Ar Pr]]].
  destruct (spiral_add_point ab ac Aab Aac) as [r' [Hr' [Ar' Pr']]].
  exists bc, ab, ac, r. repeat split; try assumption.
  rewrite Hr'. do 2 f_equal. apply point_inj; [assumption..|].
  rewrite Pr, Pr', Pab, Pac, Pbc. symmetry. apply emul_vadd_r.
Qed.

Lemma spiral_mult_distributive_witness :
  exists bc ab ac r,
    spiral_add 245 66 0 = Ret (Some bc) /\
    spiral_mult 1603 245 0 = Ret (Some ab) /\
    spiral_mult 1603 66 0 = Ret (Some ac) /\
    spiral_mult 1603 bc 0 = Ret (Some r) /\
    spiral_add ab ac 0 = Ret (Some r).
Proof. apply spiral_mult_distributive; reflexivity. Defined.

Lemma emul_integral (u v : Z * Z) :
  emul u v = (0, 0) -> u = (0, 0) \/ v = (0, 0).
Proof.
  destruct u as [m n], v as [p q]. unfold emul. cbn [fst snd]. intros H.
  injection H as H1 H2.
  assert ((m * m + m * n + n * n) * (p * p + p * q + q * q) = 0) as HN.
  { replace ((m * m + m * n + n * n) * (p * p + p * q + q * q))
      with ((m * p - n * q) * (m * p - n * q) +
            (m * p - n * q) * (m * q + n * p + n * q) +
            (m * q + n * p + n * q) * (m * q + n * p + n * q)) by ring.
    rewrite H1, H2. reflexivity. }
  apply Z.mul_eq_0 in HN. destruct HN as [HN|HN]; [left|right].
  - assert (m = 0 /\ n = 0) as [-> ->] by nia. reflexivity.
  - assert (p = 0 /\ q = 0) as [-> ->] by nia. reflexivity.
Qed.

(** X8. The product of two spiral addresses is the address 0 only when
    one of them is 0: [spiral_mult] has no divisors of zero. *)
Theorem spiral_mult_integral (a b : Z)
    (Ha : is_address a = true) (Hb : is_address b = true) :
  spiral_mult a b 0 = Ret (Some 0) <-> a = 0 \/ b = 0.
Proof.
  destruct (spiral_mult_point a b Ha Hb) as [r [Hr [Ar Pr]]].
  rewrite Hr. split.
  - intros H. assert (r = 0) as -> by congruence.
    change (point 0) with (0, 0) in Pr. symmetry in Pr.
    destruct (emul_integral _ _ Pr) as [H0|H0]; [left|right];
      apply point_inj; assumption || reflexivity.
  - intros H. do 2 f_equal. apply point_inj; [exact Ar|reflexivity|].
    rewrite Pr. destruct H as [-> | ->]; change (point 0) with (0, 0).
    + apply emul_zero_l.
    + apply emul_zero_r.
Qed.

Lemma spiral_mult_integral_witness :
  spiral_mult 1603 245 0 = Ret (Some 0) <-> 1603 = 0 \/ 245 = 0.
Proof. apply spiral_mult_integral; reflexivity. Defined.

Lemma sixth_turn_hex_of (p : Z * Z) :
  sixth_turn (hex_of p) = hex_of (emul (0, 1) p).
Proof.
  destruct p as [m n]. unfold sixth_turn, hex_of, emul. cbn [fst snd].
  f_equal.
  - replace (28 * (-7 * n) - 49 * (8 * m + 4 * n))
      with ((-7 * (0 * n + 1 * m + 1 * n)) * 56) by ring.
    apply Z.div_mul. lia.
  - replace (48 * (-7 * n) + 28 * (8 * m + 4 * n))
      with ((8 * (0 * m - 1 * n) + 4 * (0 * n + 1 * m + 1 * n)) * 56) by ring.
    apply Z.div_mul. lia.
Qed.

Lemma turns_hex_of (j : nat) (p : Z * Z) :
  turns j (hex_of p) = hex_of (lattice_turns j p).
Proof.
  induction j as [|j IH]; [reflexivity|].
  cbn [turns lattice_turns]. rewrite IH. apply sixth_turn_hex_of.
Qed.

(** X9. For [k] in 1..6, [spiral_mult(a, k)] is the address [a] turned
    [k - 1] sixths of a turn around the origin: [sa2hex] of the product is
    the centre of [a] after [k - 1] applications of [sixth_turn], the map
    that sends the offset of each symbol to that of the next, and six of
    them make a full turn.  These are the six addresses that [omegaf]
    samples. *)
Theorem spiral_mult_turn (a k : Z)
    (Ha : is_address a = true) (Hk : 1 <= k <= 6) :
  exists r u,
    spiral_mult a k 0 = Ret (Some r) /\ is_address r = true /\
    sa2hex a = Ret (Some u) /\
    sa2hex r = Ret (Some (turns (Z.to_nat (k - 1)) u)) /\
    turns 6 u = u /\
    sixth_turn (offset_table k) = offset_table (k mod 6 + 1).
Proof.
  assert (is_address k = true) as Hak by (symbol_cases k; reflexivity).
  destruct (spiral_mult_point a k Ha Hak) as [r [Hr [Ar Pr]]].
  exists r, (hex_of (point a)). split; [exact Hr|]. split; [exact Ar|].
  split; [apply sa2hex_point; exact Ha|].
  rewrite sa2hex_point by exact Ar.
  rewrite Pr, !turns_hex_of, (point_symbol k) by lia.
  split.
  - do 3 f_equal. destruct (point a) as [m n].
    symbol_cases k; try lia;
      match goal with
      | |- context [Z.to_nat ?e] =>
          let v := eval vm_compute in (Z.to_nat e) in
          change (Z.to_nat e) with v
      end;
      cbn [lattice_turns coord]; lattice.
  - split.
    + f_equal. destruct (point a) as [m n]. cbn [lattice_turns]. lattice.
    + symbol_cases k; try lia; reflexivity.
Qed.

Lemma spiral_mult_turn_witness :
  exists r u,
    spiral_mult 1603 3 0 = Ret (Some r) /\ is_address r = true /\
    sa2hex 1603 = Ret (Some u) /\
    sa2hex r = Ret (Some (turns (Z.to_nat (3 - 1)) u)) /\
    turns 6 u = u /\
    sixth_turn (offset_table 3) = offset_table (3 mod 6 + 1).
Proof. apply spiral_mult_turn; [reflexivity|lia]. Defined.

(** *** The hyperpels tile the plane *)

Lemma in_lattice_hex_of (p : Z * Z) : in_lattice (hex_of p) = true.
Proof.
  destruct p as [m n]. unfold in_lattice, hex_of. cbn [fst snd].
  replace (-7 * n) with (- n * 7) by ring.
  rewrite Z.mod_mul, Z.div_mul by lia.
  replace (8 * m + 4 * n + 4 * - n) with (m * 8) by ring.
  rewrite Z.mod_mul by lia. reflexivity.
Qed.

Lemma vec2_eqb_eq (u v : vec2) : vec2_eqb u v = true -> u = v.
Proof.
  unfold vec2_eqb. intros H. apply andb_true_iff in H.
  destruct H as [H1 H2]. apply Z.eqb_eq in H1, H2.
  destruct u, v. cbn [fst snd] in *. congruence.
Qed.

(** No two cells of the hyperpel differ by a vector of the lattice. *)
Lemma hyperpel_cells_apart :
  forallb (fun p =>
    forallb (fun q => negb (in_lattice (vsub p q)) || vec2_eqb p q)
      hyperpel_sa)
    hyperpel_sa = true.
Proof. vm_compute. reflexivity. Qed.

(** X10. The hyperpels of two different spiral addresses share no cell:
    a cell of the hyperpel that [sa_value] reads around the centre of [a]
    is a cell of the hyperpel around the centre of [b] only for [a = b],
    and then it is the same cell of the pattern.  The pattern has 56
    distinct cells. *)
Theorem hyperpels_disjoint (a b : Z) (p q u v : vec2)
    (Ha : is_address a = true) (Hb : is_address b = true)
    (Hu : sa2hex a = Ret (Some u)) (Hv : sa2hex b = Ret (Some v))
    (Hp : In p hyperpel_sa) (Hq : In q hyperpel_sa) :
  (vadd p u = vadd q v <-> a = b /\ p = q) /\
  length hyperpel_sa = 56%nat /\ NoDup hyperpel_sa.
Proof.
  split; [|split; [reflexivity|]].
  - split.
    + intros H. rewrite sa2hex_point in Hu, Hv by assumption.
      assert (u = hex_of (point a)) as -> by congruence.
      assert (v = hex_of (point b)) as -> by congruence.
      assert (vsub p q = hex_of (vsub (point b) (point a))) as Hd.
      { destruct p, q, (point a), (point b). unfold vsub. lattice. }
      pose proof hyperpel_cells_apart as Hc.
      rewrite forallb_forall in Hc. specialize (Hc p Hp).
      rewrite forallb_forall in Hc. specialize (Hc q Hq).
      rewrite Hd, in_lattice_hex_of in Hc. cbn [negb orb] in Hc.
      apply vec2_eqb_eq in Hc. subst q. split; [|reflexivity].
      apply point_inj; [assumption..|]. apply hex_of_inj.
      destruct p, (hex_of (point a)), (hex_of (point b)).
      unfold vadd in H. cbn [fst snd] in H. injection H as H1 H2.
      f_equal; lia.
    + intros [-> ->]. congruence.
  - repeat (constructor; [cbn; intuition discriminate|]). constructor.
Qed.

Lemma hyperpels_disjoint_witness :
  (vadd (-2, 3) (-14, -8) = vadd (-1, 3) (14, 8) <->
   25 = 52 /\ (-2, 3) = (-1, 3)) /\
  length hyperpel_sa = 56%nat /\ NoDup hyperpel_sa.
Proof.
  apply (hyperpels_disjoint 25 52 (-2, 3) (-1, 3) (-14, -8) (14, 8));
    [reflexivity|reflexivity|reflexivity|reflexivity
    |left; reflexivity|right; left; reflexivity].
Defined.

End Lattice.

(** ** Digits and base conversion beyond the spiral addresses *)

Section Conversions.

Lemma digits_last (a : Z) : 0 <= a -> 0 < a -> last (digits a) 0 <> 0.
Proof.
  intros H0. pattern a. apply digits_ind; [| |exact H0]; clear a H0.
  - intros a Ha Hp. rewrite digits_small by exact Ha. cbn [last]. lia.
  - intros a Ha IH _. rewrite digits_large by exact Ha.
    assert (1 <= a / 10) as H1 by (apply Z.div_le_lower_bound; lia).
    pose proof (digits_nonempty (a / 10) ltac:(lia)) as Hne.
    destruct (digits (a / 10)) as [|d l] eqn:E; [contradiction|].
    cbn [last]. cbn [last] in IH. apply IH. lia.
Qed.

(** X11. On a natural number [int2intvec] returns its decimal digits, least
    significant first: digits in 0..9 that write the number back in base
    10, the last of them not 0 unless the number is 0, which gives the one
    digit 0. *)
Theorem int2intvec_digits_value (a : Z) (Ha : 0 <= a) :
  exists vec,
    int2intvec a = Ret vec /\
    val 10 vec = a /\
    Forall (fun d => 0 <= d <= 9) vec /\
    (1 <= length vec)%nat /\
    (0 < a -> last vec 0 <> 0) /\
    (a = 0 -> vec = [0]).
Proof.
  exists (digits a). split; [apply int2intvec_digits; exact Ha|].
  split; [apply val_digits; exact Ha|].
  split; [apply digits_range; exact Ha|].
  split; [apply digits_length_pos; exact Ha|].
  split; [apply digits_last; exact Ha|].
  intros ->. reflexivity.
Qed.

Lemma int2intvec_digits_value_witness :
  exists vec,
    int2intvec 9070 = Ret vec /\
    val 10 vec = 9070 /\
    Forall (fun d => 0 <= d <= 9) vec /\
    (1 <= length vec)%nat /\
    (0 < 9070 -> last vec 0 <> 0) /\
    (9070 = 0 -> vec = [0]).
Proof. apply int2intvec_digits_value. lia. Defined.

Lemma base_encode_loop_negative (fuel : nat) :
  forall (num : Z) (arr : list ascii),
    num < 0 -> base_encode_loop fuel num 7 ALPHABET7 arr = Diverge.
Proof.
  induction fuel as [|fuel IH]; intros num arr Hn; cbn [base_encode_loop];
    (destruct (num =? 0) eqn:E; [apply Z.eqb_eq in E; lia|]).
  - reflexivity.
  - change (7 =? 0) with false. cbv iota.
    rewrite alphabet7_getitem by (pose proof (Z.mod_pos_bound num 7); lia).
    cbn [bind]. apply IH. apply Z.div_lt_upper_bound; lia.
Qed.

Lemma str_negative (num : Z) :
  num < 0 -> str num = String "-"%char (str (- num)).
Proof.
  intros Hn. unfold str.
  destruct (Z.ltb_spec num 0) as [_|]; [|lia].
  destruct (Z.ltb_spec (- num) 0) as [|_]; [lia|]. reflexivity.
Qed.

(** X12. On a negative integer the [while] loops of [int2intvec] and of
    [base_encode] never end, whatever the number of rounds: the loop
    variable stays negative.  So [int2intvec], [base7to10], [base10to7],
    [spiral_add] and [spiral_mult] do not return on a negative operand. *)
Theorem negative_never_returns (num : Z) (Hn : num < 0) :
  (forall fuel vec, int2intvec_loop fuel num vec = Diverge) /\
  (forall fuel arr, base_encode_loop fuel num 7 ALPHABET7 arr = Diverge) /\
  int2intvec num = Diverge /\
  base7to10 num = Diverge /\
  base10to7 num = Diverge /\
  (forall b m, spiral_add num b m = Diverge /\ spiral_mult num b m = Diverge) /\
  (forall a m, 0 <= a ->
     spiral_add a num m = Diverge /\ spiral_mult a num m = Diverge).
Proof.
  pose proof (int2intvec_negative num Hn) as Hi.
  split; [intros fuel vec; apply int2intvec_loop_negative; exact Hn|].
  split; [intros fuel arr; apply base_encode_loop_negative; exact Hn|].
  split; [exact Hi|].
  split; [unfold base7to10; rewrite Hi; reflexivity|].
  split.
  - unfold base10to7, base_encode.
    change (str_getitem ALPHABET7 0) with (Ret "0"%char). cbn [bind].
    rewrite str_negative by exact Hn. cbn [String.eqb Ascii.eqb].
    change (Ascii.eqb "-" "0") with false. cbv iota.
    rewrite base_encode_loop_negative by exact Hn. reflexivity.
  - split.
    + intros b m. split.
      * unfold spiral_add. cbn [spiral_add_rec]. rewrite Hi. reflexivity.
      * unfold spiral_mult. rewrite Hi. reflexivity.
    + intros a m Ha. split.
      * unfold spiral_add. cbn [spiral_add_rec].
        rewrite int2intvec_digits by exact Ha. cbn [bind]. rewrite Hi.
        reflexivity.
      * unfold spiral_mult. rewrite int2intvec_digits by exact Ha.
        cbn [bind]. rewrite Hi. reflexivity.
Qed.

Lemma negative_never_returns_witness :
  base10to7 (-8) = Diverge /\ spiral_add (-8) 3 0 = Diverge.
Proof.
  pose proof (negative_never_returns (-8) ltac:(lia)) as [_ [_ [_ [_ [H1 [H2 _]]]]]].
  split; [exact H1|]. apply H2.
Defined.

(** The number that digits write in base 7 is at least the weight of the
    last digit when that digit is not 0. *)
Lemma val7_top (l : list Z) :
  Forall (fun d => 0 <= d <= 6) l -> last l 0 <> 0 ->
  7 ^ Z.of_nat (length l - 1) <= val 7 l.
Proof.
  intros Hl. induction Hl as [|d l Hd Hl IH]; intros Hlast.
  - cbn [last] in Hlast. contradiction.
  - destruct l as [|d' l'].
    + cbn [last] in Hlast. cbn. lia.
    + cbn [val length] in *. specialize (IH Hlast).
      replace (S (S (length l')) - 1)%nat with (S (length l' - 0)) by lia.
      replace (S (length l') - 1)%nat with (length l' - 0)%nat in IH by lia.
      rewrite Nat2Z.inj_succ, Z.pow_succ_r by lia. lia.
Qed.

(** Every natural number is the value of a spiral address. *)
Lemma address_of_value (v : Z) :
  0 <= v -> exists a, is_address a = true /\ val 7 (digits a) = v.
Proof.
  intros Hv. revert v Hv.
  apply (Zlt_0_ind
           (fun v => exists a, is_address a = true /\ val 7 (digits a) = v)).
  intros v IH H0.
  destruct (Z_lt_le_dec v 7) as [Hs|Hl].
  - exists v. split.
    + symbol_cases v; reflexivity.
    + rewrite digits_small by lia. cbn [val]. lia.
  - assert (0 <= v / 7 < v) as Hq
      by (split; [apply Z.div_pos; lia|apply Z.div_lt; lia]).
    destruct (IH (v / 7) Hq) as [a' [Ha' Hv']].
    pose proof (address_nonneg a' Ha') as Hn.
    assert (1 <= v / 7) as Hq1 by (apply Z.div_le_lower_bound; lia).
    assert (1 <= a') as Ha1.
    { destruct (Z.eq_dec a' 0) as [->|]; [|lia].
      change (val 7 (digits 0)) with 0 in Hv'. lia. }
    pose proof (Z.mod_pos_bound v 7 ltac:(lia)) as Hr.
    assert (digits (10 * a' + v mod 7) = v mod 7 :: digits a') as Hd.
    { rewrite digits_large by lia.
      rewrite (Z.mul_comm 10 a'), Z.add_comm, Z.mod_add, Z.div_add by lia.
      rewrite Z.mod_small, Z.div_small by lia. reflexivity. }
    exists (10 * a' + v mod 7). split.
    + apply is_address_spec. split; [lia|]. rewrite Hd.
      constructor; [lia|]. apply is_address_spec in Ha'. tauto.
    + rewrite Hd. cbn [val]. rewrite Hv'. pose proof (Z.div_mod v 7). lia.
Qed.

(** X13. [base10to7] writes every natural number [v] in base 7: it returns
    the spiral address whose digits write [v].  [base7to10] maps it back to
    [v] as long as [v] is below [2^63]; from there to [7^23] (an address of
    23 digits) its 64-bit sum wraps around and it returns [v - 2^64]. *)
Theorem base7to10_base10to7 (v : Z) (Hv : 0 <= v) :
  exists a,
    base10to7 v = Ret a /\ is_address a = true /\ val 7 (digits a) = v /\
    (v < 2 ^ 63 -> base7to10 a = Ret v) /\
    (2 ^ 63 <= v < 7 ^ 23 -> base7to10 a = Ret (v - 2 ^ 64)).
Proof.
  destruct (address_of_value v Hv) as [a [Ha Hval]].
  exists a. split; [rewrite <- Hval; apply base10to7_val; exact Ha|].
  split; [exact Ha|]. split; [exact Hval|].
  pose proof (address_nonneg a Ha) as H0.
  split.
  - intros Hlt. rewrite base7to10_val by lia. rewrite Hval. reflexivity.
  - intros Hr. assert (a < 10 ^ 23) as Hlen.
    { destruct (Z_lt_le_dec a (10 ^ 23)) as [|Hge]; [assumption|exfalso].
      apply is_address_spec in Ha. destruct Ha as [_ Hd].
      pose proof (val_digits a H0) as Hva.
      assert (forall l, Forall (fun d => 0 <= d <= 6) l ->
                (length l <= 23)%nat -> val 10 l < 10 ^ 23) as Hshort.
      { intros l Hl Hn. pose proof (val10_bound l Hl) as Hb.
        assert (10 ^ Z.of_nat (length l) <= 10 ^ 23)
          by (apply Z.pow_le_mono_r; lia). lia. }
      assert (24 <= length (digits a))%nat as Hlong.
      { destruct (le_lt_dec (length (digits a)) 23) as [Hs|Hs]; [|lia].
        specialize (Hshort _ Hd Hs). lia. }
      pose proof (digits_last a H0 ltac:(lia)) as Hlast.
      pose proof (val7_top (digits a) Hd Hlast) as Htop.
      assert (7 ^ 23 <= 7 ^ Z.of_nat (length (digits a) - 1))
        by (apply Z.pow_le_mono_r; lia).
      lia. }
    rewrite base7to10_wrap by lia. rewrite Hval. f_equal.
    unfold int64.
    assert (7 ^ 23 < 2 ^ 64 + 2 ^ 63) by reflexivity.
    replace (v + 2 ^ 63) with ((v - 2 ^ 63) + 1 * 2 ^ 64) by lia.
    rewrite Z.mod_add by lia. rewrite Z.mod_small by lia. lia.
Qed.

Lemma base7to10_base10to7_witness :
  exists a,
    base10to7 2024 = Ret a /\ is_address a = true /\
    val 7 (digits a) = 2024 /\
    (2024 < 2 ^ 63 -> base7to10 a = Ret 2024) /\
    (2 ^ 63 <= 2024 < 7 ^ 23 -> base7to10 a = Ret (2024 - 2 ^ 64)).
Proof. apply base7to10_base10to7. lia. Defined.

(** X14. [base7to10] does not check the digits of its argument: on every
    natural number of at most 22 digits it returns the sum of [d_i * 7^i]
    over the decimal digits, also for digits 7 to 9.  Converting back with
    [base10to7] always gives a spiral address, which is the argument
    exactly when the argument is a spiral address. *)
Theorem base7to10_unchecked (a : Z) (Ha : 0 <= a < 10 ^ 22) :
  exists v a',
    base7to10 a = Ret v /\ v = val 7 (digits a) /\
    base10to7 v = Ret a' /\ is_address a' = true /\
    (a' = a <-> is_address a = true).
Proof.
  pose proof (val7_int64 a Ha) as Hv.
  destruct (address_of_value _ (proj1 Hv)) as [a' [Ha' Hval]].
  exists (val 7 (digits a)), a'.
  split; [apply base7to10_val; lia|]. split; [reflexivity|].
  assert (base10to7 (val 7 (digits a)) = Ret a') as Hb
    by (rewrite <- Hval; apply base10to7_val; exact Ha').
  split; [exact Hb|]. split; [exact Ha'|].
  split.
  - intros <-. exact Ha'.
  - intros Hadr. rewrite (base10to7_val a Hadr) in Hb. congruence.
Qed.

Lemma base7to10_unchecked_witness :
  exists v a',
    base7to10 19 = Ret v /\ v = val 7 (digits 19) /\
    base10to7 v = Ret a' /\ is_address a' = true /\
    (a' = 19 <-> is_address 19 = true).
Proof. apply base7to10_unchecked. split; [lia|reflexivity]. Defined.

End Conversions.

(** ** The [mod] argument and the refusals of [sa2hex] *)

Section EdgeCases.

Lemma spiral_mult_unfold_mod (a b m : Z) :
  is_address a = true -> is_address b = true -> m <> 0 ->
  forall p, spiral_mult_outer (digits a) (digits b) 0 (Some 0) = Ret (Some p) ->
  spiral_mult a b m = Ret (Some (p mod m)).
Proof.
  intros Ha Hb Hm p Hp. unfold spiral_mult.
  rewrite !int2intvec_digits by (apply address_nonneg; assumption).
  cbn [bind]. rewrite !out_of_range_false by (apply address_digits_7; assumption).
  cbn [orb]. rewrite Hp. cbn [bind].
  destruct (Z.eqb_spec m 0) as [|_]; [contradiction|]. reflexivity.
Qed.

(** X15. The argument [mod] of [spiral_add] is ignored when both operands
    are single symbols (the table entry is returned whole, so
    [spiral_add(1, 1, 10)] is 63), and otherwise the sum is reduced modulo
    [mod]; [spiral_mult] always reduces its product modulo [mod]. *)
Theorem spiral_add_mod (a b m : Z)
    (Ha : is_address a = true) (Hb : is_address b = true) (Hm : m <> 0) :
  (exists r,
     spiral_add a b 0 = Ret (Some r) /\
     spiral_add a b m =
       Ret (Some (if (a <? 10) && (b <? 10) then r else r mod m))) /\
  (exists p,
     spiral_mult a b 0 = Ret (Some p) /\
     spiral_mult a b m = Ret (Some (p mod m))) /\
  spiral_add 1 1 10 = Ret (Some 63).
Proof.
  pose proof (address_nonneg a Ha) as Ha0.
  pose proof (address_nonneg b Hb) as Hb0.
  split; [|split; [|reflexivity]].
  - destruct (spiral_add_address a b Ha Hb) as [ds [_ [_ Hr]]].
    exists (val 10 ds). split; [exact Hr|].
    destruct (Z.ltb_spec a 10) as [Ha10|Ha10];
      [destruct (Z.ltb_spec b 10) as [Hb10|Hb10]|]; cbn [andb].
    + rewrite <- Hr.
      pose proof (is_address_small a ltac:(lia) Ha).
      pose proof (is_address_small b ltac:(lia) Hb).
      unfold spiral_add.
      symbol_cases a; symbol_cases b; reflexivity.
    + unfold spiral_add in *.
      rewrite spiral_add_rec_long in * by (auto using address_digits_7; lia).
      cbv zeta in *.
      destruct (add_digits _ _ _ 0 0) as [res| |]; try discriminate Hr.
      cbn [bind] in *. change (negb (0 =? 0)) with false in Hr. cbv iota in Hr.
      destruct (Z.eqb_spec m 0) as [|_]; [contradiction|]. cbn [negb].
      congruence.
    + unfold spiral_add in *.
      rewrite spiral_add_rec_long in * by (auto using address_digits_7; lia).
      cbv zeta in *.
      destruct (add_digits _ _ _ 0 0) as [res| |]; try discriminate Hr.
      cbn [bind] in *. change (negb (0 =? 0)) with false in Hr. cbv iota in Hr.
      destruct (Z.eqb_spec m 0) as [|_]; [contradiction|]. cbn [negb].
      congruence.
  - pose proof Ha as Fa. pose proof Hb as Fb.
    apply is_address_spec in Fa, Fb.
    destruct (spiral_mult_outer_address (digits a) (digits b) 0 0)
      as [p [Hp _]]; [tauto|tauto|reflexivity|].
    exists p. split.
    + rewrite spiral_mult_unfold by assumption. exact Hp.
    + apply spiral_mult_unfold_mod; assumption.
Qed.

Lemma spiral_add_mod_witness :
  (exists r,
     spiral_add 15 4 0 = Ret (Some r) /\
     spiral_add 15 4 100 =
       Ret (Some (if (15 <? 10) && (4 <? 10) then r else r mod 100))) /\
  (exists p,
     spiral_mult 15 4 0 = Ret (Some p) /\
     spiral_mult 15 4 100 = Ret (Some (p mod 100))) /\
  spiral_add 1 1 10 = Ret (Some 63).
Proof. apply spiral_add_mod; [reflexivity|reflexivity|lia]. Defined.

Lemma sa2hex_loop_invalid (l : list Z) :
  forall (rest : list ascii) (i : nat) (hex_address : vec2),
    Forall (fun d => 0 <= d <= 9) l -> Exists (fun d => 6 < d) l ->
    sa2hex_loop (map char_of_digit l ++ rest) i hex_address = Ret None.
Proof.
  induction l as [|d l IH]; intros rest i hex_address Hl He.
  - inversion He.
  - inversion Hl as [|? ? Hd Hl']; subst.
    cbn [map app sa2hex_loop]. rewrite int_of_char_digit by lia. cbn [bind].
    destruct (Z_le_gt_dec d 6) as [H6|H6].
    + assert ((d <? 0) || (d >? 6) = false) as ->.
      { apply orb_false_iff. split; [apply Z.ltb_ge; lia|].
        rewrite Z.gtb_ltb. apply Z.ltb_ge. lia. }
      assert (Exists (fun d => 6 < d) l) as He'
        by (inversion He; subst; [lia|assumption]).
      rewrite char_of_digit_zero by lia.
      destruct (d =? 0) eqn:E; cbn [negb].
      * apply IH; assumption.
      * rewrite sa2hex_aux_offset by lia. cbn [bind]. apply IH; assumption.
    + assert ((d <? 0) || (d >? 6) = true) as ->; [|reflexivity].
      apply orb_true_iff. right. rewrite Z.gtb_ltb. apply Z.ltb_lt. lia.
Qed.

Lemma not_address_digit (a : Z) :
  0 <= a -> is_address a = false -> Exists (fun d => 6 < d) (digits a).
Proof.
  intros Ha Hn. unfold is_address in Hn.
  destruct (Z.leb_spec 0 a) as [_|]; [|lia]. cbn [andb] in Hn.
  apply Exists_exists.
  destruct (forallb (fun d => d <=? 6) (digits a)) eqn:E; [discriminate|].
  clear Hn. induction (digits a) as [|d l IH]; [discriminate E|].
  cbn [forallb] in E. apply andb_false_iff in E. destruct E as [E|E].
  - exists d. split; [left; reflexivity|]. apply Z.leb_gt in E. lia.
  - destruct (IH E) as [x [Hx H6]]. exists x. split; [right; exact Hx|exact H6].
Qed.

Lemma sa2hex_loop_app (l : list Z) :
  forall (rest : list ascii) (i : nat) (hex_address : vec2),
    Forall (fun d => 0 <= d <= 6) l ->
    sa2hex_loop (map char_of_digit l ++ rest) i hex_address =
    sa2hex_loop rest (i + length l) (vadd hex_address (offset_sum l i)).
Proof.
  induction l as [|d l IH]; intros rest i hex_address Hl.
  - cbn [map app length offset_sum]. rewrite vadd_0_r, Nat.add_0_r.
    reflexivity.
  - inversion Hl as [|? ? Hd Hl']; subst.
    cbn [map app sa2hex_loop offset_sum length].
    rewrite int_of_char_digit by lia. cbn [bind].
    assert ((d <? 0) || (d >? 6) = false) as ->.
    { apply orb_false_iff. split; [apply Z.ltb_ge; lia|].
      rewrite Z.gtb_ltb. apply Z.ltb_ge. lia. }
    rewrite char_of_digit_zero by lia.
    replace (i + S (length l))%nat with (S i + length l)%nat by lia.
    destruct (d =? 0) eqn:E; cbn [negb].
    + rewrite IH by exact Hl'. rewrite vadd_0_l. reflexivity.
    + rewrite sa2hex_aux_offset by exact Hd. cbn [bind].
      rewrite IH by exact Hl'. rewrite vadd_assoc. reflexivity.
Qed.

(** X16. [sa2hex] refuses every natural number that has a digit 7, 8 or
    9: it returns [None] (having printed its message), where [spiral_add]
    and [spiral_mult] let the digit 7 through.  [sa_value] then fails with
    a [TypeError] on every grid, adding [None] to the hyperpel.  So on the
    natural numbers [sa2hex] returns a centre exactly for the spiral
    addresses. *)
Theorem sa2hex_refuses (a : Z) (Ha : 0 <= a) :
  (is_address a = false ->
     sa2hex a = Ret None /\
     forall (C : Type) (SC : Scalar C) (g : grid C),
       sa_value g a = Raise TypeError) /\
  ((exists u, sa2hex a = Ret (Some u)) <-> is_address a = true) /\
  sa2hex 7 = Ret None.
Proof.
  assert (is_address a = false -> sa2hex a = Ret None) as Hr.
  { intros Hn. unfold sa2hex. rewrite str_rev_digits by exact Ha.
    rewrite <- (app_nil_r (map char_of_digit (digits a))).
    apply sa2hex_loop_invalid.
    - apply digits_range. exact Ha.
    - apply not_address_digit; assumption. }
  split; [|split; [|reflexivity]].
  - intros Hn. split; [apply Hr; exact Hn|].
    intros C SC g. unfold sa_value. rewrite (Hr Hn). reflexivity.
  - split.
    + intros [u Hu]. destruct (is_address a) eqn:E; [reflexivity|].
      rewrite (Hr eq_refl) in Hu. discriminate Hu.
    + intros Hadr. eexists. apply sa2hex_offset_sum. exact Hadr.
Qed.

Lemma sa2hex_refuses_witness :
  sa2hex 1703 = Ret None /\ sa_value (constant_grid 64 64 1%float) 1703 = Raise TypeError.
Proof.
  destruct (sa2hex_refuses 1703 ltac:(lia)) as [H _].
  destruct (H eq_refl) as [H1 H2]. split; [exact H1|apply H2].
Defined.

(** X17. On a negative integer [sa2hex] never returns a centre: it reads
    the digits of [str] from the right, so it refuses the number when one
    of its digits is above 6 and otherwise reaches the sign, on which
    [int] raises [ValueError]. *)
Theorem sa2hex_negative (a : Z) (Ha : a < 0) :
  sa2hex a =
  if is_address (- a) then Raise ValueError else Ret None.
Proof.
  unfold sa2hex. rewrite str_negative by exact Ha.
  cbn [list_ascii_of_string rev].
  rewrite str_rev_digits by lia.
  destruct (is_address (- a)) eqn:E.
  - apply is_address_spec in E. destruct E as [_ Hd].
    rewrite sa2hex_loop_app by exact Hd. reflexivity.
  - apply sa2hex_loop_invalid;
      [apply digits_range; lia|apply not_address_digit; [lia|exact E]].
Qed.

Lemma sa2hex_negative_witness :
  sa2hex (-25) = Raise ValueError /\ sa2hex (-27) = Ret None.
Proof.
  split.
  - apply (sa2hex_negative (-25)). lia.
  - apply (sa2hex_negative (-27)). lia.
Defined.

End EdgeCases.

(** ** Sampling at the border of the grid *)

Section Wrap.

Context {C : Type} {SC : Scalar C} {DC : Dot C}.

Lemma axis_index_wrap (i n : Z) :
  - n <= i < n -> axis_index i n = Ret (wrap_index i n).
Proof.
  intros Hi. unfold axis_index, wrap_index.
  destruct (Z.leb_spec 0 i) as [H0|H0]; cbn [andb].
  - destruct (Z.ltb_spec i n); [reflexivity|lia].
  - destruct (Z.leb_spec (- n) i); [|lia].
    destruct (Z.ltb_spec i 0); [reflexivity|lia].
Qed.

Lemma axis_index_error (i n : Z) :
  ~ (- n <= i < n) -> axis_index i n = Raise IndexError.
Proof.
  intros Hi. unfold axis_index.
  destruct (Z.leb_spec 0 i) as [H0|H0]; cbn [andb].
  - destruct (Z.ltb_spec i n); [lia|].
    destruct (Z.leb_spec (- n) i); cbn [andb];
      [destruct (Z.ltb_spec i 0); [lia|reflexivity]|reflexivity].
  - destruct (Z.leb_spec (- n) i); [lia|]. reflexivity.
Qed.

Lemma forallb_map_compose {A B : Type} (f : B -> bool) (h : A -> B)
    (l : list A) :
  forallb f (map h l) = forallb (fun x => f (h x)) l.
Proof.
  induction l as [|x l IH]; [reflexivity|].
  cbn [map forallb]. rewrite IH. reflexivity.
Qed.

Lemma grid_getitem_wrap (g : grid C) (q : vec2) :
  addressable g q = true ->
  grid_getitem g (fst q) (snd q) =
  Ret (cell g (wrap_index (fst q) (nrows g)) (wrap_index (snd q) (ncols g))).
Proof.
  unfold addressable. intros H.
  apply andb_true_iff in H. destruct H as [H H4].
  apply andb_true_iff in H. destruct H as [H H3].
  apply andb_true_iff in H. destruct H as [H1 H2].
  apply Z.leb_le in H1, H3. apply Z.ltb_lt in H2, H4.
  unfold grid_getitem. rewrite !axis_index_wrap by lia. reflexivity.
Qed.

Lemma grid_getitem_error (g : grid C) (q : vec2) :
  addressable g q = false ->
  grid_getitem g (fst q) (snd q) = Raise IndexError.
Proof.
  unfold addressable, grid_getitem. intros H.
  destruct (Z.leb_spec (- nrows g) (fst q)) as [H1|H1];
    [|rewrite axis_index_error by lia; reflexivity].
  destruct (Z.ltb_spec (fst q) (nrows g)) as [H2|H2];
    [|rewrite axis_index_error by lia; reflexivity].
  rewrite axis_index_wrap by lia. cbn [bind andb] in *.
  destruct (Z.leb_spec (- ncols g) (snd q)) as [H3|H3];
    [|rewrite axis_index_error by lia; reflexivity].
  destruct (Z.ltb_spec (snd q) (ncols g)) as [H4|H4];
    [discriminate H|rewrite axis_index_error by lia; reflexivity].
Qed.

Lemma sa_value_loop_cells (g : grid C) (rest : list vec2) :
  forall (pre : list vec2) (val : C),
    sa_value_loop g (pre ++ rest) (length rest) (length pre) val =
    if forallb (addressable g) rest then
      Ret (fold_left cadd
             (map (fun q => cell g (wrap_index (fst q) (nrows g))
                                   (wrap_index (snd q) (ncols g))) rest)
             val)
    else Raise IndexError.
Proof.
  induction rest as [|q rest IH]; intros pre val; [reflexivity|].
  cbn [length sa_value_loop forallb map fold_left].
  rewrite getitem_app. cbn [bind].
  destruct (addressable g q) eqn:E; cbn [andb].
  - rewrite grid_getitem_wrap by exact E. cbn [bind].
    replace (pre ++ q :: rest) with ((pre ++ [q]) ++ rest)
      by (rewrite <- app_assoc; reflexivity).
    replace (S (length pre)) with (length (pre ++ [q]))
      by (rewrite length_app; cbn; lia).
    apply IH.
  - rewrite grid_getitem_error by exact E. reflexivity.
Qed.

(** X18. [sa_value] reads the 56 cells of the hyperpel with numpy's
    indexing: an index in [[-n, 0)] counts from the end of its axis, so a
    hyperpel that reaches over the first row or column is completed from
    the opposite border instead of failing.  It returns the sum of these
    cells, added in the order of the pattern from 0, divided by 56, and it
    raises [IndexError] exactly when an index falls outside
    [[-rows, rows)] or [[-cols, cols)]. *)
Theorem sa_value_wraps (g : grid C) (addr : Z) (Ha : is_address addr = true) :
  sa_value g addr =
  if footprint_addressable g addr then
    Ret (cdiv_int (fold_left cadd (footprint_cells g addr) czero) 56)
  else Raise IndexError.
Proof.
  unfold sa_value. rewrite sa2hex_offset_sum by exact Ha. cbn [bind].
  cbv zeta.
  pose proof (sa_value_loop_cells g
                (map (fun p => vadd p (address_offset addr)) hyperpel_sa)
                [] czero) as H.
  rewrite length_map in H. change (length hyperpel_sa) with 56%nat in H.
  cbn [app length] in H. rewrite H. clear H.
  unfold footprint_addressable, footprint_cells.
  rewrite forallb_map_compose, map_map.
  destruct (forallb _ hyperpel_sa); reflexivity.
Qed.

End Wrap.

Section WrapInstances.

Lemma sa_value_wraps_witness :
  sa_value (constant_grid 64 64 1%float) 0 = Ret 1%float /\
  footprint_addressable (constant_grid 64 64 1%float) 0 = true /\
  footprint_in_bounds (constant_grid 64 64 1%float) 0 = false /\
  sa_value (constant_grid 4 4 1%float) 0 = Raise IndexError.
Proof.
  split; [|split; [reflexivity|split; [reflexivity|]]].
  - rewrite (sa_value_wraps (constant_grid 64 64 1%float) 0 eq_refl).
    reflexivity.
  - rewrite (sa_value_wraps (constant_grid 4 4 1%float) 0 eq_refl).
    reflexivity.
Defined.

End WrapInstances.

(** ** Symmetries of the frequency vectors and of the bispectrum *)

Section Symmetries.

Context {C : Type} {SC : Scalar C} {DC : Dot C}.

Lemma spiral_mult_one (a : Z) :
  is_address a = true -> spiral_mult a 1 0 = Ret (Some a).
Proof.
  intros Ha. destruct (spiral_mult_point a 1 Ha eq_refl) as [r [Hr [Ar Pr]]].
  rewrite Hr. do 2 f_equal. apply point_inj; [assumption..|].
  rewrite Pr. change (point 1) with (1, 0). apply emul_one_r.
Qed.

Lemma spiral_mult_zero (a : Z) :
  is_address a = true -> spiral_mult a 0 0 = Ret (Some 0).
Proof.
  intros Ha. destruct (spiral_mult_point a 0 Ha eq_refl) as [r [Hr [Ar Pr]]].
  rewrite Hr. do 2 f_equal. apply point_inj; [assumption|reflexivity|].
  rewrite Pr. change (point 0) with (0, 0). apply emul_zero_r.
Qed.

Lemma indexes_address (sa : Z) : In sa indexes -> is_address sa = true.
Proof.
  unfold indexes. cbn [In]. intros H.
  repeat (destruct H as [<-|H]; [reflexivity|]). contradiction.
Qed.

Lemma indexes_small (sa : Z) : In sa indexes -> sa < 10 ^ 22.
Proof.
  unfold indexes. cbn [In]. intros H.
  repeat (destruct H as [<-|H]; [reflexivity|]). contradiction.
Qed.

Lemma nth_indexes (i : nat) : (i < 9)%nat -> In (nth i indexes 0) indexes.
Proof. intros Hi. apply nth_In. exact Hi. Qed.

Lemma vmul_comm (x : list C) :
  (forall a b : C, cmul a b = cmul b a) ->
  forall y, vmul x y = vmul y x.
Proof.
  intros Hc. induction x as [|a x IH]; intros [|b y]; try reflexivity.
  cbn [vmul]. rewrite IH, Hc. reflexivity.
Qed.

Lemma invariant_swap (fft : grid C) (a b c : Z) :
  (forall x y : C, cmul x y = cmul y x) ->
  forall v, invariant fft a b c = Ret v -> invariant fft b a c = Ret v.
Proof.
  intros Hc v. unfold invariant.
  destruct (omegaf fft a) as [o1| |]; try discriminate.
  destruct (omegaf fft b) as [o2| |]; try discriminate.
  cbn [bind]. rewrite (vmul_comm o1 Hc o2). trivial.
Qed.

Lemma plain_sa3_swap (sa1 sa2 : Z) :
  0 <= sa1 -> 0 <= sa2 -> plain_sa3 sa1 sa2 = plain_sa3 sa2 sa1.
Proof.
  intros H1 H2. unfold plain_sa3, base7to10.
  rewrite !int2intvec_digits by assumption.
  cbn [bind]. rewrite Z.add_comm. reflexivity.
Qed.

(** X19. When the multiplication of the element type is commutative, the
    plain bispectrum holds the value of every pair of different addresses
    twice: the entry of the pair [(sa1, sa2)], at position [9*i + k], is
    the entry of [(sa2, sa1)], at [9*k + i]. *)
Theorem bispectrum_symmetric (fft : grid C)
    (Hcomm : forall x y : C, cmul x y = cmul y x)
    (Hrows : 33 <= nrows fft) (Hcols : 33 <= ncols fft) :
  exists l,
    bispectral_inv fft false = Ret l /\
    forall i k, (i < 9)%nat -> (k < 9)%nat ->
      nth (9 * i + k) l czero = nth (9 * k + i) l czero.
Proof.
  destruct (sequence_returns _ (plain_entries_return fft Hrows Hcols))
    as [l Hl].
  exists l. split.
  - rewrite bispectral_inv_sequence, <- plain_entries_all. exact Hl.
  - intros i k Hi Hk.
    assert (forall i k, (i < 9)%nat -> (k < 9)%nat ->
              plain_entry fft (nth i indexes 0) (nth k indexes 0) =
              Ret (nth (9 * i + k) l czero)) as Hn.
    { intros i' k' Hi' Hk'. rewrite <- plain_entries_nth by assumption.
      apply sequence_nth; [exact Hl|].
      change (length (plain_entries fft)) with 81%nat. lia. }
    pose proof (Hn i k Hi Hk) as H1. pose proof (Hn k i Hk Hi) as H2.
    pose proof (address_nonneg _ (indexes_address _ (nth_indexes i Hi))) as Pi.
    pose proof (address_nonneg _ (indexes_address _ (nth_indexes k Hk))) as Pk.
    unfold plain_entry in H1, H2.
    rewrite (plain_sa3_swap _ _ Pk Pi) in H2.
    destruct (plain_sa3 (nth i indexes 0) (nth k indexes 0)) as [sa3| |];
      try discriminate H1.
    cbn [bind] in H1, H2.
    apply (invariant_swap _ _ _ _ Hcomm) in H1. congruence.
Qed.

(** The third address of a pair for the rotations 1 and 0: that of the
    plain bispectrum, and the first address. *)
Lemma rotated_sa3_one (sa1 sa2 : Z) :
  is_address sa2 = true -> rotated_sa3 sa1 sa2 1 = plain_sa3 sa1 sa2.
Proof.
  intros H2. unfold rotated_sa3, plain_sa3.
  rewrite spiral_mult_one by exact H2.
  destruct (base7to10 sa1); reflexivity.
Qed.

Lemma rotated_sa3_zero (sa1 sa2 : Z) :
  is_address sa1 = true -> sa1 < 10 ^ 22 -> is_address sa2 = true ->
  rotated_sa3 sa1 sa2 0 = Ret sa1.
Proof.
  intros H1 Hs H2. unfold rotated_sa3.
  pose proof (address_nonneg sa1 H1) as H0.
  rewrite base7to10_val by (try apply val7_int64; lia). cbn [bind].
  rewrite spiral_mult_zero by exact H2. cbn [bind].
  change (base7to10 0) with (Ret 0). cbn [bind].
  rewrite Z.add_0_r. apply base10to7_val. exact H1.
Qed.

(** X20. The rotational bispectrum contains the plain one: for the
    rotation [r = 1] the entry of a pair, at position [54*i + 6*k + 1], is
    its entry in the plain bispectrum, at [9*i + k].  For [r = 0] the third
    address is the first one: the entry at [54*i + 6*k] is
    [invariant(spectrum, sa1, sa2, sa1)]. *)
Theorem rotational_contains_plain (fft : grid C)
    (Hrows : 68 <= nrows fft) (Hcols : 68 <= ncols fft) :
  exists lp lr,
    bispectral_inv fft false = Ret lp /\
    bispectral_inv fft true = Ret lr /\
    forall i k, (i < 9)%nat -> (k < 9)%nat ->
      nth (54 * i + 6 * k + 1) lr czero = nth (9 * i + k) lp czero /\
      invariant fft (nth i indexes 0) (nth k indexes 0) (nth i indexes 0) =
      Ret (nth (54 * i + 6 * k) lr czero).
Proof.
  destruct (sequence_returns _
              (plain_entries_return fft ltac:(lia) ltac:(lia))) as [lp Hp].
  destruct (sequence_returns _ (rotated_entries_return fft Hrows Hcols))
    as [lr Hr].
  exists lp, lr.
  split; [rewrite bispectral_inv_sequence, <- plain_entries_all; exact Hp|].
  split; [rewrite bispectral_inv_sequence, <- rotated_entries_all; exact Hr|].
  intros i k Hi Hk.
  pose proof (indexes_address _ (nth_indexes i Hi)) as Ai.
  pose proof (indexes_address _ (nth_indexes k Hk)) as Ak.
  assert (plain_entry fft (nth i indexes 0) (nth k indexes 0) =
          Ret (nth (9 * i + k) lp czero)) as H1.
  { rewrite <- plain_entries_nth by assumption.
    apply sequence_nth; [exact Hp|].
    change (length (plain_entries fft)) with 81%nat. lia. }
  assert (forall r, (r < 6)%nat ->
            rotated_entry fft (nth i indexes 0) (nth k indexes 0) (Z.of_nat r) =
            Ret (nth (54 * i + 6 * k + r) lr czero)) as H2.
  { intros r Hlt. rewrite <- rotated_entries_nth by assumption.
    apply sequence_nth; [exact Hr|].
    change (length (rotated_entries fft)) with 486%nat. lia. }
  split.
  - pose proof (H2 1%nat ltac:(lia)) as H3.
    unfold rotated_entry in H3. change (Z.of_nat 1) with 1 in H3.
    rewrite rotated_sa3_one in H3 by exact Ak.
    unfold plain_entry in H1. congruence.
  - pose proof (H2 0%nat ltac:(lia)) as H3.
    pose proof (indexes_small _ (nth_indexes i Hi)) as Si.
    unfold rotated_entry in H3. change (Z.of_nat 0) with 0 in H3.
    rewrite rotated_sa3_zero in H3 by assumption.
    cbn [bind] in H3. rewrite Nat.add_0_r in H3. exact H3.
Qed.

Lemma mult_entry_point (k i : Z) :
  1 <= k <= 6 -> 1 <= i <= 6 ->
  1 <= mult_entry k i <= 6 /\
  coord (mult_entry k i) = emul (coord k) (coord i).
Proof.
  intros Hk Hi. symbol_cases k; try lia; symbol_cases i; try lia;
    (split; [unfold mult_entry; simpl; lia|reflexivity]).
Qed.

(** The address turned [k - 1] sixths, then [i - 1] sixths. *)
Lemma spiral_mult_twice (sa k i : Z) :
  is_address sa = true -> 1 <= k <= 6 -> 1 <= i <= 6 ->
  exists r, spiral_mult sa k 0 = Ret (Some r) /\ is_address r = true /\
            spiral_mult r i 0 = spiral_mult sa (mult_entry k i) 0.
Proof.
  intros Ha Hk Hi.
  destruct (mult_entry_point k i Hk Hi) as [Hj Hc].
  assert (is_address k = true) as Ak by (symbol_cases k; reflexivity).
  assert (is_address i = true) as Ai by (symbol_cases i; reflexivity).
  assert (is_address (mult_entry k i) = true) as Aj.
  { remember (mult_entry k i) as j eqn:Ej. clear Ej Hc.
    symbol_cases j; reflexivity. }
  destruct (spiral_mult_point sa k Ha Ak) as [r [Hr [Ar Pr]]].
  destruct (spiral_mult_point r i Ar Ai) as [s [Hs [As Ps]]].
  destruct (spiral_mult_point sa _ Ha Aj) as [s' [Hs' [As' Ps']]].
  exists r. split; [exact Hr|]. split; [exact Ar|].
  rewrite Hs, Hs'. do 2 f_equal. apply point_inj; [assumption..|].
  rewrite Ps, Ps', Pr.
  rewrite (point_symbol k), (point_symbol i), (point_symbol (mult_entry k i))
    by lia.
  rewrite Hc. apply emul_assoc.
Qed.

(** The frequency vector of an address turned [k - 1] sixths. *)
Lemma omegaf_mult (fft : grid C) (sa k : Z) (o : list C) :
  is_address sa = true -> 1 <= k <= 6 -> omegaf fft sa = Ret o ->
  exists r,
    spiral_mult sa k 0 = Ret (Some r) /\
    omegaf fft r =
    Ret (map (fun i => nth (Z.to_nat (mult_entry k i - 1)) o czero)
           [1; 2; 3; 4; 5; 6]).
Proof.
  intros Ha Hk Ho.
  destruct (spiral_mult_twice sa k 1 Ha Hk ltac:(lia)) as [r [Hr [Ar _]]].
  exists r. split; [exact Hr|].
  rewrite omegaf_sequence in Ho |- *.
  assert (forall i, 1 <= i <= 6 ->
            omega_component fft r i =
            Ret (nth (Z.to_nat (mult_entry k i - 1)) o czero)) as Hc.
  { intros i Hi.
    destruct (spiral_mult_twice sa k i Ha Hk Hi) as [r' [Hr' [_ Hm]]].
    rewrite Hr in Hr'. injection Hr' as <-.
    destruct (mult_entry_point k i Hk Hi) as [Hj _].
    unfold omega_component. rewrite Hm.
    fold (omega_component fft sa (mult_entry k i)).
    pose proof (sequence_nth _ czero o (Z.to_nat (mult_entry k i - 1)) Ho)
      as Hn.
    cbn [map length] in Hn. specialize (Hn ltac:(lia)).
    rewrite <- Hn. clear Hn Hm.
    remember (mult_entry k i) as j eqn:Ej. clear Ej.
    symbol_cases j; try lia; reflexivity. }
  cbn [map sequence].
  rewrite !Hc by lia. reflexivity.
Qed.

(** X21. Turning an address permutes its frequency vector: for [k] in
    1..6 the component [i] of [omegaf(spectrum, spiral_mult(sa, k))] is the
    component [multiplication_table[k][i]] of [omegaf(spectrum, sa)], that
    is the vector of [sa] shifted cyclically by [k - 1] places. *)
Theorem omegaf_turn (fft : grid C) (sa k : Z) (o : list C)
    (Ha : is_address sa = true) (Hk : 1 <= k <= 6)
    (Ho : omegaf fft sa = Ret o) :
  exists r,
    spiral_mult sa k 0 = Ret (Some r) /\ is_address r = true /\
    length o = 6%nat /\
    omegaf fft r =
    Ret (map (fun i => nth (Z.to_nat (mult_entry k i - 1)) o czero)
           [1; 2; 3; 4; 5; 6]) /\
    (k = 2 ->
     omegaf fft r =
     Ret (map (fun i => nth i o czero) [1; 2; 3; 4; 5; 0]%nat)).
Proof.
  destruct (omegaf_mult fft sa k o Ha Hk Ho) as [r [Hr Hom]].
  exists r. split; [exact Hr|].
  split.
  - assert (is_address k = true) as Hak by (symbol_cases k; reflexivity).
    destruct (spiral_algebra_closed sa k Ha Hak) as [_ [r' [Hr' Ar']]].
    congruence.
  - split.
    + rewrite omegaf_sequence in Ho. apply sequence_length in Ho. exact Ho.
    + split; [exact Hom|]. intros ->. exact Hom.
Qed.

Lemma omegaf_length (fft : grid C) (sa : Z) (o : list C) :
  omegaf fft sa = Ret o -> length o = 6%nat.
Proof.
  rewrite omegaf_sequence. intros H. apply sequence_length in H. exact H.
Qed.

Section ExactSum.

Hypothesis cadd_comm : forall x y : C, cadd x y = cadd y x.
Hypothesis cadd_assoc : forall x y z : C, cadd (cadd x y) z = cadd x (cadd y z).

Hypothesis vdot_adds : adds_products vdot.

(** X22. Where the addition of the element type is commutative and
    associative (exact arithmetic) and [np.vdot] adds zero and its products
    in whatever order, [invariant] does not change when its
    three addresses are turned by the same number of sixths of a turn:
    the three frequency vectors are shifted by the same number of places,
    and the sum over their components runs over the same terms. *)
Theorem invariant_turn (fft : grid C) (a1 a2 a3 k : Z) (v : C)
    (H1 : is_address a1 = true) (H2 : is_address a2 = true)
    (H3 : is_address a3 = true) (Hk : 1 <= k <= 6)
    (Hv : invariant fft a1 a2 a3 = Ret v) :
  exists r1 r2 r3,
    spiral_mult a1 k 0 = Ret (Some r1) /\
    spiral_mult a2 k 0 = Ret (Some r2) /\
    spiral_mult a3 k 0 = Ret (Some r3) /\
    invariant fft r1 r2 r3 = Ret v.
Proof.
  unfold invariant in Hv.
  destruct (omegaf fft a1) as [o1| |] eqn:E1; try discriminate Hv.
  destruct (omegaf fft a2) as [o2| |] eqn:E2; try discriminate Hv.
  destruct (omegaf fft a3) as [o3| |] eqn:E3; try discriminate Hv.
  cbn [bind] in Hv. injection Hv as <-.
  destruct (omegaf_mult fft a1 k o1 H1 Hk E1) as [r1 [M1 O1]].
  destruct (omegaf_mult fft a2 k o2 H2 Hk E2) as [r2 [M2 O2]].
  destruct (omegaf_mult fft a3 k o3 H3 Hk E3) as [r3 [M3 O3]].
  exists r1, r2, r3. repeat split; try assumption.
  unfold invariant. rewrite O1, O2, O3. cbn [bind]. f_equal.
  apply omegaf_length in E1, E2, E3.
  destruct o1 as [|x1 [|x2 [|x3 [|x4 [|x5 [|x6 [|]]]]]]]; try discriminate E1.
  destruct o2 as [|y1 [|y2 [|y3 [|y4 [|y5 [|y6 [|]]]]]]]; try discriminate E2.
  destruct o3 as [|z1 [|z2 [|z3 [|z4 [|z5 [|z6 [|]]]]]]]; try discriminate E3.
  clear - cadd_comm cadd_assoc vdot_adds Hk.
  set (t1 := cmul (cconj (cmul x1 y1)) z1).
  set (t2 := cmul (cconj (cmul x2 y2)) z2).
  set (t3 := cmul (cconj (cmul x3 y3)) z3).
  set (t4 := cmul (cconj (cmul x4 y4)) z4).
  set (t5 := cmul (cconj (cmul x5 y5)) z5).
  set (t6 := cmul (cconj (cmul x6 y6)) z6).
  rewrite !(adds_products_dot_sum cadd_comm cadd_assoc vdot vdot_adds).
  change (dot_sum (vmul [x1; x2; x3; x4; x5; x6] [y1; y2; y3; y4; y5; y6])
            [z1; z2; z3; z4; z5; z6])
    with (fold_left cadd [t1; t2; t3; t4; t5; t6] czero).
  symbol_cases k; try lia.
  - reflexivity.
  - exact (fold_left_app_comm cadd_comm cadd_assoc [t2; t3; t4; t5; t6] [t1] czero).
  - exact (fold_left_app_comm cadd_comm cadd_assoc [t3; t4; t5; t6] [t1; t2] czero).
  - exact (fold_left_app_comm cadd_comm cadd_assoc [t4; t5; t6] [t1; t2; t3] czero).
  - exact (fold_left_app_comm cadd_comm cadd_assoc [t5; t6] [t1; t2; t3; t4] czero).
  - exact (fold_left_app_comm cadd_comm cadd_assoc [t6] [t1; t2; t3; t4; t5] czero).
Qed.

End ExactSum.

End Symmetries.

Section SymmetryInstances.

#[local] Existing Instance dot_in_order.

Lemma bispectrum_symmetric_witness :
  exists l,
    bispectral_inv (constant_grid 33 33 1%R) false = Ret l /\
    forall i k, (i < 9)%nat -> (k < 9)%nat ->
      nth (9 * i + k) l czero = nth (9 * k + i) l czero.
Proof.
  apply bispectrum_symmetric.
  - exact Rmult_comm.
  - cbn [nrows constant_grid]. lia.
  - cbn [ncols constant_grid]. lia.
Defined.

Lemma rotational_contains_plain_witness :
  exists lp lr,
    bispectral_inv (constant_grid 68 68 1%float) false = Ret lp /\
    bispectral_inv (constant_grid 68 68 1%float) true = Ret lr /\
    forall i k, (i < 9)%nat -> (k < 9)%nat ->
      nth (54 * i + 6 * k + 1) lr czero = nth (9 * i + k) lp czero /\
      invariant (constant_grid 68 68 1%float)
        (nth i indexes 0) (nth k indexes 0) (nth i indexes 0) =
      Ret (nth (54 * i + 6 * k) lr czero).
Proof.
  apply rotational_contains_plain.
  - cbn [nrows constant_grid]. lia.
  - cbn [ncols constant_grid]. lia.
Defined.

Lemma omegaf_turn_witness :
  exists r,
    spiral_mult 15 3 0 = Ret (Some r) /\
    omegaf (constant_grid 64 64 1%float) r =
    Ret (map (fun i => nth (Z.to_nat (mult_entry 3 i - 1))
                         [1; 1; 1; 1; 1; 1]%float czero)
           [1; 2; 3; 4; 5; 6]).
Proof.
  destruct (omegaf_turn (constant_grid 64 64 1%float) 15 3
              [1; 1; 1; 1; 1; 1]%float)
    as [r [Hr [_ [_ [Ho _]]]]];
    [reflexivity|lia|vm_compute; reflexivity|].
  exists r. split; [exact Hr|exact Ho].
Defined.

End SymmetryInstances.

(** ** Oversampling *)

Section Oversampling.

Context {C : Type} {SC : Scalar C} {DC : Dot C}.
Variable cone : C.

Lemma oversampling_inner_shape (image : grid C) (factor i : Z) (todo : nat) :
  forall (g : grid C) (j : Z),
    nrows (oversampling_inner cone image g factor i todo j) = nrows g /\
    ncols (oversampling_inner cone image g factor i todo j) = ncols g.
Proof.
  induction todo as [|todo IH]; intros g j; [split; reflexivity|].
  cbn [oversampling_inner]. cbv zeta. destruct (IH (setitem_slice g
    (factor * i) (factor * i + factor) (factor * j) (factor * j + factor)
    (scalar_mul (cell image i j) (ones cone (factor, factor)))) (j + 1))
    as [H1 H2].
  rewrite H1, H2. split; reflexivity.
Qed.

Lemma oversampling_outer_shape (image : grid C) (factor : Z) (todo : nat) :
  forall (g : grid C) (i : Z),
    nrows (oversampling_outer cone image g factor todo i) = nrows g /\
    ncols (oversampling_outer cone image g factor todo i) = ncols g.
Proof.
  induction todo as [|todo IH]; intros g i; [split; reflexivity|].
  cbn [oversampling_outer]. cbv zeta.
  destruct (IH (oversampling_inner cone image g factor i
                  (Z.to_nat (ncols image)) 0) (i + 1)) as [H1 H2].
  destruct (oversampling_inner_shape image factor i (Z.to_nat (ncols image))
              g 0) as [H3 H4].
  rewrite H1, H2, H3, H4. split; reflexivity.
Qed.

(** The cells after the inner loop: the blocks of the columns [j] to
    [j + todo] of the row [i] are written, the other cells are kept. *)
Lemma oversampling_inner_cell (image : grid C) (factor i : Z) (todo : nat) :
  0 < factor ->
  forall (g : grid C) (j r c : Z),
    cell (oversampling_inner cone image g factor i todo j) r c =
    if (factor * i <=? r) && (r <? factor * i + factor) &&
       (factor * j <=? c) && (c <? factor * (j + Z.of_nat todo))
    then cmul (cell image i (c / factor)) cone
    else cell g r c.
Proof.
  intros Hf. induction todo as [|todo IH]; intros g j r c.
  - cbn [oversampling_inner]. rewrite Z.add_0_r.
    destruct (Z.leb_spec (factor * j) c), (Z.ltb_spec c (factor * j));
      try lia; rewrite ?andb_false_r; reflexivity.
  - cbn [oversampling_inner]. cbv zeta. rewrite IH.
    cbn [cell setitem_slice scalar_mul ones].
    rewrite Nat2Z.inj_succ.
    assert (0 <= factor * Z.of_nat todo) as Ht by nia.
    destruct (Z.leb_spec (factor * i) r), (Z.ltb_spec r (factor * i + factor));
      cbn [andb]; try reflexivity.
    destruct (Z.leb_spec (factor * (j + 1)) c);
      destruct (Z.ltb_spec c (factor * (j + 1 + Z.of_nat todo)));
      destruct (Z.leb_spec (factor * j) c);
      destruct (Z.ltb_spec c (factor * (j + Z.succ (Z.of_nat todo))));
      destruct (Z.ltb_spec c (factor * j + factor));
      cbn [andb]; try reflexivity; try lia.
    f_equal. f_equal. apply Z.div_unique with (c - factor * j); lia.
Qed.

Lemma oversampling_outer_cell (image : grid C) (factor : Z) (todo : nat) :
  0 < factor -> 0 <= ncols image ->
  forall (g : grid C) (i r c : Z),
    cell (oversampling_outer cone image g factor todo i) r c =
    if (factor * i <=? r) && (r <? factor * (i + Z.of_nat todo)) &&
       (0 <=? c) && (c <? factor * ncols image)
    then cmul (cell image (r / factor) (c / factor)) cone
    else cell g r c.
Proof.
  intros Hf Hc. induction todo as [|todo IH]; intros g i r c.
  - cbn [oversampling_outer]. rewrite Z.add_0_r.
    destruct (Z.leb_spec (factor * i) r), (Z.ltb_spec r (factor * i));
      try lia; rewrite ?andb_false_r; reflexivity.
  - cbn [oversampling_outer]. cbv zeta. rewrite IH.
    rewrite oversampling_inner_cell by exact Hf.
    rewrite Z2Nat.id by exact Hc. rewrite Nat2Z.inj_succ.
    assert (0 <= factor * Z.of_nat todo) as Ht by nia.
    replace (factor * 0) with 0 by ring. rewrite Z.add_0_l.
    destruct (Z.leb_spec 0 c), (Z.ltb_spec c (factor * ncols image));
      rewrite ?andb_false_r; cbn [andb]; try reflexivity.
    rewrite !andb_true_r.
    destruct (Z.leb_spec (factor * (i + 1)) r);
      destruct (Z.ltb_spec r (factor * (i + 1 + Z.of_nat todo)));
      destruct (Z.leb_spec (factor * i) r);
      destruct (Z.ltb_spec r (factor * (i + Z.succ (Z.of_nat todo))));
      destruct (Z.ltb_spec r (factor * i + factor));
      cbn [andb]; try reflexivity; try lia.
    f_equal. f_equal. apply Z.div_unique with (r - factor * i); lia.
Qed.

(** X23. [oversampling] by a factor [f >= 0] returns a grid of [f] times
    as many rows and columns in which every pixel of the image fills a
    block of [f] by [f] cells: the cell [(r, c)] holds the pixel
    [(r / f, c / f)] multiplied by the [1.] of [np.ones].  A negative
    factor on an image that is not empty makes [np.zeros] raise
    [ValueError]. *)
Theorem oversampling_blocks (image : grid C) (factor : Z)
    (Hrows : 0 <= nrows image) (Hcols : 0 <= ncols image) :
  (0 <= factor ->
   exists new_image,
     oversampling cone image factor = Ret new_image /\
     nrows new_image = factor * nrows image /\
     ncols new_image = factor * ncols image /\
     forall r c,
       0 <= r < factor * nrows image -> 0 <= c < factor * ncols image ->
       cell new_image r c = cmul (cell image (r / factor) (c / factor)) cone) /\
  (factor < 0 -> 0 < nrows image \/ 0 < ncols image ->
   oversampling cone image factor = Raise ValueError).
Proof.
  split.
  - intros Hf. unfold oversampling. cbv zeta. cbn [fst snd].
    destruct (Z.ltb_spec (factor * nrows image) 0) as [H|_]; [nia|].
    destruct (Z.ltb_spec (factor * ncols image) 0) as [H|_]; [nia|].
    cbn [orb]. eexists. split; [reflexivity|].
    destruct (oversampling_outer_shape image factor
                (Z.to_nat (nrows image))
                (zeros (factor * nrows image, factor * ncols image)) 0)
      as [H1 H2].
    split; [rewrite H1; reflexivity|]. split; [rewrite H2; reflexivity|].
    intros r c Hr Hc.
    assert (0 < factor) as Hpos by nia.
    rewrite oversampling_outer_cell by assumption.
    rewrite Z2Nat.id by exact Hrows.
    replace (factor * 0) with 0 by ring. rewrite Z.add_0_l.
    destruct (Z.leb_spec 0 r), (Z.ltb_spec r (factor * nrows image)),
      (Z.leb_spec 0 c), (Z.ltb_spec c (factor * ncols image)); try lia.
    reflexivity.
  - intros Hf Hne. unfold oversampling. cbv zeta. cbn [fst snd].
    destruct Hne as [Hn|Hn].
    + destruct (Z.ltb_spec (factor * nrows image) 0) as [_|H]; [|nia].
      reflexivity.
    + destruct (Z.ltb_spec (factor * ncols image) 0) as [_|H]; [|nia].
      rewrite orb_true_r. reflexivity.
Qed.

End Oversampling.

Section OversamplingInstances.

Lemma oversampling_blocks_witness :
  exists new_image,
    oversampling 1%float
      {| nrows := 2; ncols := 3;
         cell := fun r c => float_of_Z (10 * r + c) |} 7 = Ret new_image /\
    nrows new_image = 14 /\ ncols new_image = 21 /\
    cell new_image 13 8 = 0x1.6p+3%float.
Proof.
  pose (image := {| nrows := 2; ncols := 3;
                    cell := fun r c => float_of_Z (10 * r + c) |}).
  destruct (oversampling_blocks 1%float image 7) as [H _];
    [cbn; lia|cbn; lia|].
  destruct (H ltac:(lia)) as [g [Hg [Hr [Hc Hcell]]]].
  exists g. split; [exact Hg|]. split; [exact Hr|]. split; [exact Hc|].
  rewrite Hcell by (cbn; lia). reflexivity.
Defined.

End OversamplingInstances.

(** ** The bispectrum of a constant spectrum *)

Section ConstantSpectrum.

Context {C : Type} {SC : Scalar C} {DC : Dot C}.

Lemma wrap_index_range (i n : Z) : - n <= i < n -> 0 <= wrap_index i n < n.
Proof.
  intros Hi. unfold wrap_index. destruct (Z.leb_spec 0 i); lia.
Qed.

Lemma fold_left_constant {A : Type} (f : A -> C) (x : C) (l : list A) :
  (forall p, In p l -> f p = x) ->
  forall k, fold_left cadd (map f l) (nsum k x) = nsum (k + length l) x.
Proof.
  induction l as [|p l IH]; intros Hf k.
  - cbn. rewrite Nat.add_0_r. reflexivity.
  - cbn [map fold_left length]. rewrite (Hf p) by (left; reflexivity).
    change (cadd (nsum k x) x) with (nsum (S k) x).
    rewrite IH by (intros q Hq; apply Hf; right; exact Hq).
    f_equal. lia.
Qed.

(** The hyperpel of a constant grid, read with indices that may count from
    the end. *)
Lemma sa_value_constant_grid (g : grid C) (x : C) (n addr : Z) :
  (forall r c, 0 <= r < nrows g -> 0 <= c < ncols g -> cell g r c = x) ->
  n <= nrows g -> n <= ncols g ->
  is_address addr = true -> footprint_within n addr = true ->
  sa_value g addr = Ret (cdiv_int (nsum 56 x) 56).
Proof.
  intros Hx Hr Hc Ha Hw. rewrite sa_value_wraps by exact Ha.
  unfold footprint_within in Hw. rewrite forallb_forall in Hw.
  assert (forall p, In p hyperpel_sa ->
            addressable g (vadd p (address_offset addr)) = true) as Hadr.
  { intros p Hp. specialize (Hw p Hp). cbv zeta in Hw.
    apply andb_true_iff in Hw. destruct Hw as [Hw H4].
    apply andb_true_iff in Hw. destruct Hw as [Hw H3].
    apply andb_true_iff in Hw. destruct Hw as [H1 H2].
    apply Z.leb_le in H1, H3. apply Z.ltb_lt in H2, H4.
    unfold addressable. rewrite !andb_true_iff, !Z.leb_le, !Z.ltb_lt. lia. }
  assert (footprint_addressable g addr = true) as ->
    by (apply forallb_forall; exact Hadr).
  unfold footprint_cells. change czero with (nsum 0 x).
  rewrite (fold_left_constant _ x); [reflexivity|].
  intros p Hp. specialize (Hadr p Hp). unfold addressable in Hadr.
  rewrite !andb_true_iff, !Z.leb_le, !Z.ltb_lt in Hadr.
  apply Hx; apply wrap_index_range; lia.
Qed.

Lemma omegaf_constant_grid (g : grid C) (x : C) (n sa : Z) :
  (forall r c, 0 <= r < nrows g -> 0 <= c < ncols g -> cell g r c = x) ->
  n <= nrows g -> n <= ncols g -> components_within n sa = true ->
  omegaf g sa = Ret (repeat (cdiv_int (nsum 56 x) 56) 6).
Proof.
  intros Hx Hr Hc Hw. rewrite omegaf_sequence.
  assert (forall k, In k [1; 2; 3; 4; 5; 6] ->
            omega_component g sa k = Ret (cdiv_int (nsum 56 x) 56)) as Hk.
  { intros k Hin. unfold components_within in Hw.
    rewrite forallb_forall in Hw. specialize (Hw k Hin).
    unfold omega_component.
    destruct (spiral_mult sa k 0) as [[addr|]| |]; try discriminate Hw.
    cbn [bind]. apply andb_true_iff in Hw. destruct Hw as [Ha Hf].
    apply (sa_value_constant_grid g x n addr); assumption. }
  cbn [map sequence]. rewrite !Hk by (cbn [In]; auto 8). reflexivity.
Qed.

Lemma invariant_constant_grid (g : grid C) (x : C) (n sa1 sa2 : Z)
    (sa3 : outcome Z) :
  (forall r c, 0 <= r < nrows g -> 0 <= c < ncols g -> cell g r c = x) ->
  n <= nrows g -> n <= ncols g -> triple_within n sa1 sa2 sa3 = true ->
  (a3 <- sa3 ;; invariant g sa1 sa2 a3) = Ret (constant_entry x).
Proof.
  intros Hx Hr Hc Hw. unfold triple_within in Hw.
  destruct sa3 as [a3| |]; try discriminate Hw. cbn [bind].
  apply andb_true_iff in Hw. destruct Hw as [Hw H3].
  apply andb_true_iff in Hw. destruct Hw as [H1 H2].
  unfold invariant.
  rewrite !(omegaf_constant_grid g x n) by assumption. reflexivity.
Qed.

Lemma sequence_constant {A : Type} (w : A) (l : list (outcome A)) :
  (forall m, In m l -> m = Ret w) -> sequence l = Ret (repeat w (length l)).
Proof.
  induction l as [|m l IH]; intros Hl; [reflexivity|].
  cbn [sequence length repeat]. rewrite (Hl m) by (left; reflexivity).
  cbn [bind]. rewrite IH by (intros q Hq; apply Hl; right; exact Hq).
  reflexivity.
Qed.

Lemma plain_entries_constant (g : grid C) (x : C) :
  (forall r c, 0 <= r < nrows g -> 0 <= c < ncols g -> cell g r c = x) ->
  33 <= nrows g -> 33 <= ncols g ->
  bispectral_inv g false = Ret (repeat (constant_entry x) 81).
Proof.
  intros Hx Hr Hc.
  rewrite bispectral_inv_sequence, <- plain_entries_all.
  rewrite (sequence_constant (constant_entry x) (plain_entries g));
    [reflexivity|].
  intros m Hm.
  unfold plain_entries in Hm. apply in_flat_map in Hm.
  destruct Hm as [sa1 [H1 Hm]]. apply in_map_iff in Hm.
  destruct Hm as [sa2 [<- H2]].
  apply (invariant_constant_grid g x 33 sa1 sa2 _ Hx Hr Hc).
  apply plain_within_spec; [exact (proj1 plain_within_33)|assumption..].
Qed.

Lemma rotated_entries_constant (g : grid C) (x : C) :
  (forall r c, 0 <= r < nrows g -> 0 <= c < ncols g -> cell g r c = x) ->
  68 <= nrows g -> 68 <= ncols g ->
  bispectral_inv g true = Ret (repeat (constant_entry x) 486).
Proof.
  intros Hx Hr Hc.
  rewrite bispectral_inv_sequence, <- rotated_entries_all.
  rewrite (sequence_constant (constant_entry x) (rotated_entries g));
    [reflexivity|].
  intros m Hm.
  unfold rotated_entries in Hm. apply in_flat_map in Hm.
  destruct Hm as [sa1 [H1 Hm]]. apply in_flat_map in Hm.
  destruct Hm as [sa2 [H2 Hm]]. apply in_map_iff in Hm.
  destruct Hm as [r [<- H3]].
  apply (invariant_constant_grid g x 68 sa1 sa2 _ Hx Hr Hc).
  apply rotated_within_spec; [exact (proj1 rotated_within_68)|assumption..].
Qed.

(** X24. On a spectrum whose cells all hold the same number [x] every
    entry of the bispectrum is the same number, in either mode and for any
    element arithmetic: each hyperpel has the mean of 56 copies of [x], and
    each entry is [invariant] on six copies of that mean. *)
Theorem bispectrum_constant_spectrum (g : grid C) (x : C)
    (Hx : forall r c, 0 <= r < nrows g -> 0 <= c < ncols g -> cell g r c = x)
    (Hrows : 68 <= nrows g) (Hcols : 68 <= ncols g) :
  bispectral_inv g false = Ret (repeat (constant_entry x) 81) /\
  bispectral_inv g true = Ret (repeat (constant_entry x) 486).
Proof.
  split.
  - apply plain_entries_constant; [exact Hx|lia|lia].
  - apply rotated_entries_constant; assumption.
Qed.

End ConstantSpectrum.

Section ConstantSpectrumInstances.

#[local] Existing Instance dot_in_order.

Lemma bispectrum_constant_spectrum_witness :
  bispectral_inv (constant_grid 68 68 2%float) false =
    Ret (repeat 48%float 81) /\
  bispectral_inv (constant_grid 68 68 2%float) true =
    Ret (repeat 48%float 486).
Proof.
  assert (constant_entry 2%float = 48%float) as <-
    by (vm_compute; reflexivity).
  apply (bispectrum_constant_spectrum (constant_grid 68 68 2%float) 2%float).
  - intros r c _ _. reflexivity.
  - cbn [nrows constant_grid]. lia.
  - cbn [ncols constant_grid]. lia.
Defined.

Lemma invariant_turn_witness :
  exists r1 r2 r3,
    spiral_mult 10 3 0 = Ret (Some r1) /\
    spiral_mult 11 3 0 = Ret (Some r2) /\
    spiral_mult 15 3 0 = Ret (Some r3) /\
    invariant (constant_grid 64 64 1%R) r1 r2 r3 =
    Ret (constant_entry 1%R).
Proof.
  apply (invariant_turn (SC := exact_real) (DC := exact_dot)
           Rplus_comm Rplus_assoc dot_sum_adds_products);
    [reflexivity|reflexivity|reflexivity|lia|].
  apply (invariant_constant_grid (constant_grid 64 64 1%R) 1%R 33 10 11
           (Ret 15)).
  - intros r c _ _. reflexivity.
  - cbn [nrows constant_grid]. lia.
  - cbn [ncols constant_grid]. lia.
  - vm_compute. reflexivity.
Defined.

End ConstantSpectrumInstances.

(** ** The normalisation in [evaluate_invariants] *)

Section Evaluate.

Context {C : Type} {SC : Scalar C} {DC : Dot C}.

Variables (cone : C) (csub : C -> C -> C) (copp : C -> C)
          (cdiv : C -> C -> C) (cinv : C -> C).
Hypothesis Cfield : field_theory czero cone cadd cmul csub copp cdiv cinv eq.
Hypothesis cdiv_int_def :
  forall x n, cdiv_int x (Z.of_nat n) = cdiv x (nsum n cone).

Variables (fft2 fftshift : grid C -> grid C) (norm : grid C -> C).

Add Field Cfield_local : Cfield.

(** In exact arithmetic [x / (x / n)] is [n]. *)
Lemma div_by_quotient (x n : C) :
  x <> czero -> n <> czero -> cdiv x (cdiv x n) = n.
Proof. intros Hx Hn. field. split; assumption. Qed.

Lemma mul_one (x : C) : cmul x cone = x.
Proof. ring. Qed.

Lemma constant_entry_exact (n : C) :
  nsum 56 cone <> czero ->
  constant_entry (cmul n cone) = constant_invariant n.
Proof.
  intros H56. unfold constant_entry. rewrite mul_one.
  change 56 with (Z.of_nat 56).
  rewrite (mean_exact cone csub copp cdiv cinv Cfield cdiv_int_def 56 n H56).
  reflexivity.
Qed.

(** X25. [evaluate_invariants] divides the shifted spectrum by its own
    quotient by the norm ([fft /= fft / LA.norm(fft)]).  In exact
    arithmetic this replaces every cell that is not zero by the norm [n]
    itself: on a spectrum without zero cells the oversampled grid is
    constant and every entry of the bispectrum is the same number,
    [invariant] on six copies of [n], whatever the image. *)
Theorem evaluate_invariants_normalisation (image : grid C)
    (Hrows : 10 <= nrows (fftshift (fft2 image)))
    (Hcols : 10 <= ncols (fftshift (fft2 image)))
    (Hcells : forall r c,
        0 <= r < nrows (fftshift (fft2 image)) ->
        0 <= c < ncols (fftshift (fft2 image)) ->
        cell (fftshift (fft2 image)) r c <> czero)
    (Hnorm : norm (fftshift (fft2 image)) <> czero)
    (H56 : nsum 56 cone <> czero) :
  evaluate_invariants cone cdiv fft2 fftshift norm image false =
    Ret (repeat (constant_invariant (norm (fftshift (fft2 image)))) 81) /\
  evaluate_invariants cone cdiv fft2 fftshift norm image true =
    Ret (repeat (constant_invariant (norm (fftshift (fft2 image)))) 486).
Proof.
  set (F := fftshift (fft2 image)) in *.
  set (n := norm F) in *.
  set (G := idiv cdiv F (div_scalar cdiv F n)).
  assert (forall rot, evaluate_invariants cone cdiv fft2 fftshift norm image rot =
                      (fo <- oversampling cone G 7 ;; bispectral_inv fo rot))
    as Hev by reflexivity.
  destruct (oversampling_blocks cone G 7) as [Hov _];
    [cbn [nrows G idiv]; lia|cbn [ncols G idiv]; lia|].
  destruct (Hov ltac:(lia)) as [fo [Hfo [Hr [Hc Hcell]]]].
  cbn [nrows ncols G idiv] in Hr, Hc, Hcell.
  assert (forall r c, 0 <= r < nrows fo -> 0 <= c < ncols fo ->
            cell fo r c = cmul n cone) as Hconst.
  { intros r c Hrr Hcc. rewrite Hr in Hrr. rewrite Hc in Hcc.
    rewrite Hcell by assumption. f_equal.
    cbn [cell G idiv div_scalar].
    apply div_by_quotient; [|exact Hnorm].
    apply Hcells.
    - split; [apply Z.div_pos; lia|apply Z.div_lt_upper_bound; lia].
    - split; [apply Z.div_pos; lia|apply Z.div_lt_upper_bound; lia]. }
  rewrite !Hev, Hfo. cbn [bind].
  rewrite <- (constant_entry_exact n H56).
  split.
  - apply plain_entries_constant; [exact Hconst|lia|lia].
  - apply rotated_entries_constant; [exact Hconst|lia|lia].
Qed.

End Evaluate.

Section EvaluateInstances.

Lemma evaluate_invariants_normalisation_witness :
  evaluate_invariants 1%R Rdiv (fun g => g) (fun g => g) (fun _ => 2%R)
    (constant_grid 10 10 3%R) false =
  Ret (repeat (constant_invariant 2%R) 81) /\
  evaluate_invariants 1%R Rdiv (fun g => g) (fun g => g) (fun _ => 2%R)
    (constant_grid 10 10 3%R) true =
  Ret (repeat (constant_invariant 2%R) 486).
Proof.
  apply (evaluate_invariants_normalisation (SC := exact_real)
           1%R Rminus Ropp Rdiv Rinv Rfield).
  - intros x n. cbn [cdiv_int exact_real]. rewrite nsum_real. reflexivity.
  - cbn [nrows constant_grid]. lia.
  - cbn [ncols constant_grid]. lia.
  - intros r c _ _. cbn [cell constant_grid].
    apply eq_IZR_contrapositive. discriminate.
  - apply eq_IZR_contrapositive. discriminate.
  - rewrite nsum_real. apply eq_IZR_contrapositive. discriminate.
Defined.

End EvaluateInstances.

(** ** The digit 7 in an operand of any length *)

Section Seven.

Lemma seven_sums (k : nat) :
  forallb (fun x =>
    forallb (fun y => seven_fails x y (spiral_add_rec (S (S k)) x y 0))
      (symbols_upto 7))
    (7 :: table_entries) = true.
Proof. vm_compute. reflexivity. Qed.

Lemma seven_sum (k : nat) (x y : Z) :
  In x (7 :: table_entries) -> 0 <= y <= 7 -> x = 7 \/ y = 7 ->
  spiral_add_rec (S (S k)) x y 0 = Raise IndexError.
Proof.
  intros Hx Hy H7. pose proof (seven_sums k) as H.
  rewrite forallb_forall in H. specialize (H x Hx).
  rewrite forallb_forall in H.
  specialize (H y (in_symbols_upto 7 y ltac:(lia))).
  unfold seven_fails in H.
  assert ((x =? 7) || (y =? 7) = true) as E
    by (apply orb_true_iff; rewrite !Z.eqb_eq; exact H7).
  rewrite E in H. apply outcome_eqb_eq. exact H.
Qed.

Lemma seven_products (x y : Z) :
  0 <= x <= 7 -> 0 <= y <= 7 -> x = 7 \/ y = 7 ->
  table_lookup multiplication_table x y = Raise IndexError.
Proof.
  intros Hx Hy H7.
  assert (In x (symbols_upto 7)) as Ix by (apply in_symbols_upto; lia).
  assert (In y (symbols_upto 7)) as Iy by (apply in_symbols_upto; lia).
  cbn in Ix, Iy.
  repeat (destruct Ix as [<-|Ix]; [|]); try contradiction;
    repeat (destruct Iy as [<-|Iy]; [|]); try contradiction;
    try reflexivity; lia.
Qed.

(** The loop of [spiral_add] meets the 7 and fails on it. *)
Lemma add_digits_seven (k : nat) (lb : list Z) :
  forall (la : list Z) (a : Z) (i : nat) (res : Z),
    In a (7 :: table_entries) ->
    Forall (fun d => 0 <= d <= 7) la ->
    Forall (fun d => 0 <= d <= 7) lb ->
    length lb = S (length la) ->
    a = 7 \/ Exists (fun d => d = 7) la \/ Exists (fun d => d = 7) lb ->
    add_digits (fun x y => spiral_add_rec (S (S k)) x y 0) (a :: la) lb i res =
    Raise IndexError.
Proof.
  induction lb as [|b lb IH]; intros la a i res Ha Hla Hlb Hlen H7;
    [discriminate Hlen|].
  inversion Hlb as [|? ? Hb Hlb']; subst.
  destruct (Z.eq_dec a 7) as [Ea|Ea];
    [|destruct (Z.eq_dec b 7) as [Eb|Eb]].
  - destruct la as [|a1 la];
      [rewrite add_digits_last|rewrite add_digits_step];
      rewrite (seven_sum k a b Ha Hb) by (left; exact Ea); reflexivity.
  - destruct la as [|a1 la];
      [rewrite add_digits_last|rewrite add_digits_step];
      rewrite (seven_sum k a b Ha Hb) by (right; exact Eb); reflexivity.
  - assert (In a table_entries) as Ha' by (destruct Ha; [lia|assumption]).
    assert (0 <= b <= 6) as Hb' by lia.
    destruct la as [|a1 la].
    + exfalso. destruct lb; [|discriminate Hlen].
      destruct H7 as [H7|[H7|H7]]; [lia|inversion H7|].
      inversion H7 as [? ? E|? ? E]; [lia|inversion E].
    + inversion Hla as [|? ? Ha1 Hla']; subst.
      rewrite add_digits_step.
      destruct (small_sum_spec k a b Ha' Hb') as [t [-> [Ht Htm]]].
      cbn [bind]. pose proof (carry_range t Ht) as Hc.
      destruct (Z.eq_dec a1 7) as [E1|E1].
      * assert (0 <= (t - t mod 10) / 10 <= 7) as Hc7 by lia.
        rewrite (seven_sum k a1 _ (in_entries_7 a1 Ha1) Hc7)
          by (left; exact E1).
        reflexivity.
      * destruct (entry_sum_spec (S k) a1 _ ltac:(lia) Hc) as [c [-> Hin]].
        cbn [bind]. apply IH;
          [right; exact Hin|exact Hla'|exact Hlb'
          |cbn [length] in Hlen; lia|].
        right. destruct H7 as [H7|[H7|H7]]; [lia| |].
        -- left. inversion H7; subst; [lia|assumption].
        -- right. inversion H7; subst; [lia|assumption].
Qed.

Lemma Exists_resize (P : Z -> Prop) (l : list Z) (n : nat) :
  Exists P l -> Exists P (resize l n).
Proof. intros H. unfold resize. apply Exists_app. left. exact H. Qed.

Lemma spiral_add_seven (a b m : Z) :
  0 <= a -> 0 <= b ->
  Forall (fun d => 0 <= d <= 7) (digits a) ->
  Forall (fun d => 0 <= d <= 7) (digits b) ->
  Exists (fun d => d = 7) (digits a) \/ Exists (fun d => d = 7) (digits b) ->
  spiral_add a b m = Raise IndexError.
Proof.
  intros Ha Hb Fa Fb H7. unfold spiral_add.
  destruct (Z_lt_le_dec a 10) as [Ha10|Ha10].
  1: destruct (Z_lt_le_dec b 10) as [Hb10|Hb10].
  1: { rewrite !digits_small in * by lia.
       inversion Fa as [|? ? Ra _]; inversion Fb as [|? ? Rb _]; subst.
       assert (a = 7 \/ b = 7) as E.
       { destruct H7 as [H7|H7]; inversion H7 as [? ? E|? ? E]; subst;
           auto; inversion E. }
       assert (In a (symbols_upto 7)) as Ia by (apply in_symbols_upto; lia).
       assert (In b (symbols_upto 7)) as Ib by (apply in_symbols_upto; lia).
       cbn in Ia, Ib.
       repeat (destruct Ia as [<-|Ia]; [|]); try contradiction;
         repeat (destruct Ib as [<-|Ib]; [|]); try contradiction;
         try reflexivity; lia. }
  all: rewrite spiral_add_rec_long by (assumption || lia); cbv zeta.
  all: remember (Nat.max (length (digits a)) (length (digits b))) as n eqn:Hn.
  all: pose proof (digits_length_pos a Ha); pose proof (digits_length_pos b Hb).
  all: assert (length (resize (digits a) n) = n) as Hla
         by (apply length_resize; lia).
  all: assert (length (resize (digits b) n) = n) as Hlb
         by (apply length_resize; lia).
  all: pose proof (Forall_resize (fun d => 0 <= d <= 7) (digits a) n
                     ltac:(cbv beta; lia) Fa) as Ra.
  all: pose proof (Forall_resize (fun d => 0 <= d <= 7) (digits b) n
                     ltac:(cbv beta; lia) Fb) as Rb.
  all: assert (Exists (fun d => d = 7) (resize (digits a) n) \/
               Exists (fun d => d = 7) (resize (digits b) n)) as H7'
         by (destruct H7; [left|right]; apply Exists_resize; assumption).
  all: destruct (resize (digits a) n) as [|a0 la]; [cbn in Hla; lia|].
  all: apply Forall_cons_iff in Ra; destruct Ra as [Ha0 Ra'].
  all: rewrite add_digits_seven;
    [reflexivity|apply in_entries_7; exact Ha0|exact Ra'|exact Rb
    |cbn [length] in Hla; lia|].
  all: destruct H7' as [H7'|H7']; [|right; right; exact H7'].
  all: inversion H7'; subst; [left; reflexivity|right; left; assumption].
Qed.

Lemma spiral_mult_inner_seven (dig_a : list Z) :
  forall (bi : Z) (i j : nat) (acc : Z),
    Forall (fun d => 0 <= d <= 7) dig_a -> 0 <= bi <= 7 ->
    is_address acc = true ->
    (bi = 7 /\ dig_a <> []) \/ Exists (fun d => d = 7) dig_a ->
    spiral_mult_inner dig_a bi i j (Some acc) = Raise IndexError.
Proof.
  induction dig_a as [|aj dig_a IH]; intros bi i j acc Hl Hb Hacc H7.
  - destruct H7 as [[_ H]|H]; [contradiction|inversion H].
  - inversion Hl as [|? ? Ha Hl']; subst. cbn [spiral_mult_inner].
    destruct (Z.eq_dec aj 7) as [Ea|Ea];
      [|destruct (Z.eq_dec bi 7) as [Eb|Eb]].
    + rewrite seven_products by (lia || (left; exact Ea)). reflexivity.
    + rewrite seven_products by (lia || (right; exact Eb)). reflexivity.
    + destruct (mult_lookup_range aj bi ltac:(lia) ltac:(lia)) as [m [-> Hm]].
      cbn [bind].
      destruct (spiral_add_address acc (m * 10 ^ Z.of_nat (i + j)) Hacc
                  (is_address_shift m (i + j) Hm)) as [ds [Hds [_ ->]]].
      cbn [bind]. apply IH; [exact Hl'|exact Hb|apply is_address_val; exact Hds|].
      right. destruct H7 as [[H _]|H]; [lia|].
      inversion H; subst; [lia|assumption].
Qed.

Lemma spiral_mult_outer_seven (dig_a dig_b : list Z) :
  forall (i : nat) (acc : Z),
    Forall (fun d => 0 <= d <= 7) dig_a ->
    Forall (fun d => 0 <= d <= 7) dig_b ->
    dig_a <> [] -> is_address acc = true ->
    (Exists (fun d => d = 7) dig_a /\ dig_b <> []) \/
    Exists (fun d => d = 7) dig_b ->
    spiral_mult_outer dig_a dig_b i (Some acc) = Raise IndexError.
Proof.
  induction dig_b as [|bi dig_b IH]; intros i acc Ha Hb Hne Hacc H7.
  - destruct H7 as [[_ H]|H]; [contradiction|inversion H].
  - inversion Hb as [|? ? Hbi Hb']; subst. cbn [spiral_mult_outer].
    destruct (Z.eq_dec bi 7) as [Eb|Eb].
    { rewrite spiral_mult_inner_seven; [reflexivity|assumption..|].
      left. split; assumption. }
    destruct (Exists_dec (fun d => d = 7) dig_a (fun d => Z.eq_dec d 7))
      as [E7|E7].
    { rewrite spiral_mult_inner_seven; [reflexivity|assumption..|].
      right. exact E7. }
    assert (Forall (fun d => 0 <= d <= 6) dig_a) as Ha6.
    { apply Forall_forall. intros d Hd.
      pose proof (proj1 (Forall_forall _ _) Ha d Hd) as Hr.
      destruct (Z.eq_dec d 7) as [->|]; [|cbv beta in Hr; lia].
      exfalso. apply E7. apply Exists_exists. exists 7. auto. }
    destruct (spiral_mult_inner_address dig_a bi i 0 acc Ha6 ltac:(lia) Hacc)
      as [s [-> Hs]].
    cbn [bind]. apply IH; try assumption.
    right. destruct H7 as [[H _]|H]; [contradiction|].
    inversion H; subst; [lia|assumption].
Qed.

Lemma spiral_mult_seven (a b m : Z) :
  0 <= a -> 0 <= b ->
  Forall (fun d => 0 <= d <= 7) (digits a) ->
  Forall (fun d => 0 <= d <= 7) (digits b) ->
  Exists (fun d => d = 7) (digits a) \/ Exists (fun d => d = 7) (digits b) ->
  spiral_mult a b m = Raise IndexError.
Proof.
  intros Ha Hb Fa Fb H7. unfold spiral_mult.
  rewrite !int2intvec_digits by assumption. cbn [bind].
  rewrite !out_of_range_false by assumption. cbn [orb].
  rewrite spiral_mult_outer_seven; try assumption; try reflexivity.
  - apply digits_nonempty. exact Ha.
  - destruct H7 as [H7|H7]; [left|right; exact H7].
    split; [exact H7|apply digits_nonempty; exact Hb].
Qed.

Lemma has_digit_above_Exists (top a : Z) :
  has_digit_above top a = true <-> Exists (fun d => top < d) (digits a).
Proof.
  unfold has_digit_above. rewrite existsb_exists, Exists_exists.
  split; intros [d [Hd H]]; exists d; (split; [exact Hd|]);
    [apply Z.ltb_lt|apply Z.ltb_lt]; exact H.
Qed.

Lemma has_digit_above_Forall (top a : Z) :
  0 <= a -> has_digit_above top a = false ->
  Forall (fun d => 0 <= d <= top) (digits a).
Proof.
  intros Ha H. apply Forall_forall. intros d Hd.
  pose proof (proj1 (Forall_forall _ _) (digits_range a Ha) d Hd) as Hr.
  cbv beta in Hr. split; [lia|].
  destruct (Z_lt_le_dec top d) as [Hlt|]; [|assumption].
  assert (has_digit_above top a = true) as Ht.
  { apply has_digit_above_Exists. apply Exists_exists. exists d. auto. }
  rewrite Ht in H. discriminate H.
Qed.

(** X26. What [spiral_add] and [spiral_mult] do on two natural numbers is
    decided by the greatest digit of the operands: with a digit 8 or 9 they
    print their message and return [None]; otherwise, with a digit 7 in an
    operand of any length, they raise [IndexError] (the guard tests [> 7]
    and the tables have the indices 0..6); otherwise both operands are
    spiral addresses and they return a spiral address. *)
Theorem spiral_operations_outcome (a b : Z) (Ha : 0 <= a) (Hb : 0 <= b) :
  (has_digit_above 7 a || has_digit_above 7 b = true ->
   spiral_add a b 0 = Ret None /\ spiral_mult a b 0 = Ret None) /\
  (has_digit_above 7 a || has_digit_above 7 b = false ->
   has_digit_above 6 a || has_digit_above 6 b = true ->
   spiral_add a b 0 = Raise IndexError /\
   spiral_mult a b 0 = Raise IndexError) /\
  (has_digit_above 6 a || has_digit_above 6 b = false ->
   exists r p,
     spiral_add a b 0 = Ret (Some r) /\ is_address r = true /\
     spiral_mult a b 0 = Ret (Some p) /\ is_address p = true).
Proof.
  split; [|split].
  - intros H. apply orb_true_iff in H.
    apply (digit_8_9_refused a b 0 Ha Hb).
    destruct H as [H|H]; [left|right]; apply has_digit_above_Exists; exact H.
  - intros H7 H6. apply orb_false_iff in H7. destruct H7 as [Ha7 Hb7].
    pose proof (has_digit_above_Forall 7 a Ha Ha7) as Fa.
    pose proof (has_digit_above_Forall 7 b Hb Hb7) as Fb.
    assert (Exists (fun d => d = 7) (digits a) \/
            Exists (fun d => d = 7) (digits b)) as E7.
    { apply orb_true_iff in H6.
      destruct H6 as [H6|H6]; [left|right];
        apply has_digit_above_Exists in H6; apply Exists_exists in H6;
        destruct H6 as [d [Hd H]]; apply Exists_exists; exists d;
        (split; [exact Hd|]).
      - pose proof (proj1 (Forall_forall _ _) Fa d Hd) as Hr.
        cbv beta in Hr. lia.
      - pose proof (proj1 (Forall_forall _ _) Fb d Hd) as Hr.
        cbv beta in Hr. lia. }
    split; [apply spiral_add_seven|apply spiral_mult_seven]; assumption.
  - intros H6. apply orb_false_iff in H6. destruct H6 as [Ha6 Hb6].
    assert (is_address a = true) as Aa
      by (apply is_address_spec; split;
          [exact Ha|apply has_digit_above_Forall; assumption]).
    assert (is_address b = true) as Ab
      by (apply is_address_spec; split;
          [exact Hb|apply has_digit_above_Forall; assumption]).
    destruct (spiral_algebra_closed a b Aa Ab) as [[r [Hr Ar]] [p [Hp Ap]]].
    exists r, p. repeat split; assumption.
Qed.

Lemma spiral_operations_outcome_witness :
  spiral_add 1673 25 0 = Raise IndexError /\
  spiral_mult 25 1673 0 = Raise IndexError /\
  spiral_add 1673 28 0 = Ret None.
Proof.
  destruct (spiral_operations_outcome 1673 25 ltac:(lia) ltac:(lia))
    as [_ [H1 _]].
  destruct (spiral_operations_outcome 25 1673 ltac:(lia) ltac:(lia))
    as [_ [H2 _]].
  destruct (spiral_operations_outcome 1673 28 ltac:(lia) ltac:(lia))
    as [H3 _].
  split; [apply H1; reflexivity|].
  split; [apply H2; reflexivity|apply H3; reflexivity].
Defined.

End Seven.

(** ** The carry at the most significant position *)

Section TopCarry.

(** The least significant digit of a spiral address and the address of
    the others. *)
Lemma address_step (x : Z) :
  is_address x = true ->
  0 <= x mod 10 <= 6 /\ is_address (x / 10) = true /\
  point x = vadd (coord (x mod 10)) (lift (point (x / 10))).
Proof.
  intros Hx. pose proof (address_nonneg x Hx) as H0.
  destruct (Z_lt_le_dec x 10) as [Hlt|Hge].
  - pose proof (is_address_small x ltac:(lia) Hx) as H6.
    rewrite Z.mod_small, Z.div_small by lia.
    split; [lia|]. split; [reflexivity|].
    rewrite point_symbol by lia. change (point 0) with (0, 0).
    rewrite lift_zero, vadd_0_r. reflexivity.
  - destruct (is_address_div10 x Hge Hx) as [Hd Hq].
    split; [exact Hd|]. split; [exact Hq|].
    unfold point. rewrite (digits_large x) by exact Hge. reflexivity.
Qed.

Lemma address_cons (d y : Z) :
  0 <= d <= 6 -> is_address y = true -> is_address (d + 10 * y) = true.
Proof.
  intros Hd Hy. pose proof (address_nonneg y Hy) as H0.
  destruct (Z.eq_dec y 0) as [->|Hn].
  - rewrite Z.mul_0_r, Z.add_0_r. symbol_cases d; reflexivity.
  - apply is_address_spec. split; [lia|].
    rewrite digits_large by lia.
    rewrite (Z.mul_comm 10 y), Z.mod_add, Z.div_add by lia.
    rewrite Z.mod_small, Z.div_small by lia. cbn [Z.add].
    constructor; [lia|]. apply is_address_spec in Hy. tauto.
Qed.

(** A spiral address cut at the weight [10^k]: both parts are spiral
    addresses, and its lattice point is that of the lower part plus that
    of the upper part [k] levels up. *)
Lemma point_split (k : nat) :
  forall x,
    is_address x = true ->
    is_address (x mod 10 ^ Z.of_nat k) = true /\
    is_address (x / 10 ^ Z.of_nat k) = true /\
    point x = vadd (point (x mod 10 ^ Z.of_nat k))
                (liftn k (point (x / 10 ^ Z.of_nat k))).
Proof.
  induction k as [|k IH]; intros x Hx.
  - change (10 ^ Z.of_nat 0) with 1. rewrite Z.mod_1_r, Z.div_1_r.
    split; [reflexivity|]. split; [exact Hx|].
    change (point 0) with (0, 0). cbn [liftn]. rewrite vadd_0_l. reflexivity.
  - destruct (address_step x Hx) as [Hd [Hq Hp]].
    destruct (IH (x / 10) Hq) as [Hlo [Hhi Hpt]].
    assert (0 < 10 ^ Z.of_nat k) as Hw by (apply Z.pow_pos_nonneg; lia).
    rewrite Nat2Z.inj_succ, Z.pow_succ_r by lia.
    rewrite Z.rem_mul_r by lia. rewrite <- Z.div_div by lia.
    pose proof (address_cons _ _ Hd Hlo) as Hc.
    split; [exact Hc|]. split; [exact Hhi|].
    destruct (address_step _ Hc) as [_ [_ Hpc]].
    rewrite (Z.mul_comm 10), Z.mod_add, Z.div_add in Hpc by lia.
    rewrite Z.mod_mod, (Z.div_small (x mod 10)), Z.add_0_l in Hpc by lia.
    rewrite (Z.mul_comm 10). rewrite Hpc, Hp, Hpt. cbn [liftn].
    rewrite lift_vadd, vadd_assoc. reflexivity.
Qed.

Lemma address_join (k : nat) :
  forall lo hi,
    is_address lo = true -> lo < 10 ^ Z.of_nat k -> is_address hi = true ->
    is_address (lo + hi * 10 ^ Z.of_nat k) = true.
Proof.
  induction k as [|k IH]; intros lo hi Hlo Hlt Hhi.
  - pose proof (address_nonneg lo Hlo). change (10 ^ Z.of_nat 0) with 1 in *.
    replace (lo + hi * 1) with hi by lia. exact Hhi.
  - destruct (address_step lo Hlo) as [Hd [Hq _]].
    rewrite Nat2Z.inj_succ, Z.pow_succ_r in * by lia.
    pose proof (address_nonneg lo Hlo) as H0.
    assert (lo / 10 < 10 ^ Z.of_nat k) as Hq'
      by (apply Z.div_lt_upper_bound; lia).
    pose proof (IH (lo / 10) hi Hq Hq' Hhi) as Hj.
    pose proof (address_cons _ _ Hd Hj) as Hc.
    replace (lo + hi * (10 * 10 ^ Z.of_nat k))
      with (lo mod 10 + 10 * (lo / 10 + hi * 10 ^ Z.of_nat k));
      [exact Hc|].
    pose proof (Z.div_mod lo 10). lia.
Qed.

Lemma point_join (k : nat) (lo hi : Z) :
  is_address lo = true -> lo < 10 ^ Z.of_nat k -> is_address hi = true ->
  point (lo + hi * 10 ^ Z.of_nat k) = vadd (point lo) (liftn k (point hi)).
Proof.
  intros Hlo Hlt Hhi. pose proof (address_nonneg lo Hlo) as H0.
  assert (0 < 10 ^ Z.of_nat k) as Hw by (apply Z.pow_pos_nonneg; lia).
  destruct (point_split k _ (address_join k lo hi Hlo Hlt Hhi))
    as [_ [_ Hp]].
  rewrite Z.mod_add, Z.div_add in Hp by lia.
  rewrite Z.mod_small, Z.div_small, Z.add_0_l in Hp by lia. exact Hp.
Qed.

(** A spiral address is below the power of ten of its number of digits. *)
Lemma address_below (x : Z) :
  is_address x = true -> 0 <= x < 10 ^ Z.of_nat (length (digits x)).
Proof.
  intros Hx. apply is_address_spec in Hx. destruct Hx as [H0 Hd].
  pose proof (val10_bound (digits x) Hd) as Hb.
  rewrite val_digits in Hb by exact H0. exact Hb.
Qed.

(** The sum of two spiral addresses, position by position: below the most
    significant position the sum [s] of the two addresses cut there; at
    that position the digit of [a] with the carry that comes out of [s],
    then the token [T] that [spiral_add] finds for it and the digit of [b],
    added whole at the weight of the position. *)
Lemma spiral_add_top_token (a b : Z) :
  is_address a = true -> is_address b = true ->
  forall n w,
    n = Nat.max (length (digits a)) (length (digits b)) ->
    w = 10 ^ Z.of_nat (n - 1) ->
    exists s c T,
      spiral_add (a mod w) (b mod w) 0 = Ret (Some s) /\
      spiral_add (a / w) (s / w) 0 = Ret (Some c) /\
      spiral_add c (b / w) 0 = Ret (Some T) /\
      0 <= T <= 66 /\
      0 <= s mod w < w /\
      spiral_add a b 0 = Ret (Some (s mod w + T * w)) /\
      (10 <= T <-> 10 ^ Z.of_nat n <= s mod w + T * w).
Proof.
  intros Ha Hb n w Hn Hw.
  pose proof (address_nonneg a Ha) as Ha0.
  pose proof (address_nonneg b Hb) as Hb0.
  pose proof (digits_length_pos a Ha0) as Hla.
  pose proof (digits_length_pos b Hb0) as Hlb.
  assert (0 < w) as Hw0 by (subst w; apply Z.pow_pos_nonneg; lia).
  assert (10 ^ Z.of_nat n = 10 * w) as Hn10.
  { subst w. replace n with (S (n - 1)) at 1 by lia.
    rewrite Nat2Z.inj_succ, Z.pow_succ_r by lia. reflexivity. }
  assert (forall x, is_address x = true ->
            (length (digits x) <= n)%nat -> 0 <= x < 10 * w) as Hbelow.
  { intros x Hx Hlen. pose proof (address_below x Hx) as Hx'.
    assert (10 ^ Z.of_nat (length (digits x)) <= 10 ^ Z.of_nat n)
      by (apply Z.pow_le_mono_r; lia).
    lia. }
  pose proof (Hbelow a Ha ltac:(lia)) as Ha10.
  pose proof (Hbelow b Hb ltac:(lia)) as Hb10.
  destruct (point_split (n - 1) a Ha) as [Halo [Hahi Hpa]].
  destruct (point_split (n - 1) b Hb) as [Hblo [Hbhi Hpb]].
  rewrite <- Hw in *.
  destruct (spiral_add_point _ _ Halo Hblo) as [s [Hs [As Ps]]].
  assert (0 <= s < 10 * w) as Hs10.
  { pose proof (Z.mod_pos_bound a w Hw0) as Ham.
    pose proof (Z.mod_pos_bound b w Hw0) as Hbm.
    destruct (n - 1)%nat as [|m] eqn:Em.
    - change (10 ^ Z.of_nat 0) with 1 in Hw. subst w.
      rewrite !Z.mod_1_r in Hs. vm_compute in Hs.
      injection Hs as <-. lia.
    - destruct (spiral_add_address _ _ Halo Hblo) as [ds [Hds [Hlen Hr]]].
      rewrite Hs in Hr. injection Hr as ->.
      pose proof (val10_bound ds Hds) as Hv.
      pose proof (digits_length_bound m (a mod w) ltac:(lia)) as L1.
      pose proof (digits_length_bound m (b mod w) ltac:(lia)) as L2.
      assert (10 ^ Z.of_nat (length ds) <= 10 ^ Z.of_nat n)
        by (apply Z.pow_le_mono_r; lia).
      lia. }
  destruct (point_split (n - 1) s As) as [Hslo [Hshi Hps]].
  rewrite <- Hw in *.
  destruct (spiral_add_point _ _ Hahi Hshi) as [c [Hc [Ac Pc]]].
  destruct (spiral_add_point _ _ Ac Hbhi) as [T [HT [AT PT]]].
  destruct (spiral_add_point _ _ Ha Hb) as [r [Hr [Ar Pr]]].
  pose proof (Z.mod_pos_bound s w Hw0) as Hsm.
  pose proof (address_join (n - 1) (s mod w) T Hslo ltac:(lia) AT) as Aj.
  pose proof (point_join (n - 1) (s mod w) T Hslo ltac:(lia) AT) as Pj.
  rewrite <- Hw in *.
  assert (r = s mod w + T * w) as Er.
  { apply point_inj; [exact Ar|exact Aj|].
    rewrite Pj, PT, Pc, !liftn_vadd, Pr, Hpa, Hpb.
    assert (vadd (point (a mod w)) (point (b mod w)) =
            vadd (point (s mod w)) (liftn (n - 1) (point (s / w)))) as Hsum
      by congruence.
    clear - Hsum. lattice. }
  assert (0 <= T <= 66) as HT66.
  { destruct (spiral_add_address a b Ha Hb) as [ds [Hds [Hlen Hr']]].
    rewrite Hr in Hr'. injection Hr' as Hrv.
    pose proof (val10_bound ds Hds) as Hv. rewrite <- Hrv, Hlen, <- Hn in Hv.
    rewrite Nat2Z.inj_succ, Z.pow_succ_r, Hn10 in Hv by lia.
    pose proof (address_nonneg T AT) as HT0.
    assert (T < 100) as HT100 by nia.
    destruct (address_step T AT) as [Hd [Hq _]].
    assert (T / 10 < 10) by (apply Z.div_lt_upper_bound; lia).
    assert (0 <= T / 10) by (apply Z.div_pos; lia).
    pose proof (is_address_small (T / 10) ltac:(lia) Hq).
    pose proof (Z.div_mod T 10). lia. }
  exists s, c, T. repeat (split; [assumption|]).
  split; [rewrite Hr, Er; reflexivity|].
  rewrite Hn10. split; intros H; nia.
Qed.

(** C1, as the code has it.  [spiral_add] returns on every two spiral
    addresses, and where the longer operand has [n] digits the result is a
    spiral address below [10^(n+1)]: it has at most [n+1] digits.  The
    token [T] found at the most significant position is added whole at the
    weight [w = 10^(n-1)], its carry digit kept: the result is
    [s mod w + T*w], where [s] is the sum of the two operands cut below
    that position, [T] is what [spiral_add] returns for the digit of [a]
    there, with the carry out of [s] added to it, and the digit of [b]; [T]
    has one or two digits, and the result has [n+1] digits exactly when [T]
    has two.  Nothing of the sum is lost: the result is the one spiral
    address whose centre is the sum of the centres of the operands.  On
    [x*10^j] and [y*10^j] it is the table entry for [x] and [y] times
    [10^j]. *)
Theorem spiral_add_top_carry (a b : Z)
    (Ha : is_address a = true) (Hb : is_address b = true) :
  (exists r,
     spiral_add a b 0 = Ret (Some r) /\
     is_address r = true /\
     0 <= r < 10 ^ Z.of_nat (S (Nat.max (length (digits a)) (length (digits b)))) /\
     (length (digits r) <= S (Nat.max (length (digits a)) (length (digits b))))%nat) /\
  (forall w,
     w = 10 ^ Z.of_nat (Nat.max (length (digits a)) (length (digits b)) - 1) ->
     exists s c T,
       spiral_add (a mod w) (b mod w) 0 = Ret (Some s) /\
       spiral_add (a / w) (s / w) 0 = Ret (Some c) /\
       spiral_add c (b / w) 0 = Ret (Some T) /\
       0 <= T <= 66 /\
       0 <= s mod w < w /\
       spiral_add a b 0 = Ret (Some (s mod w + T * w)) /\
       (10 <= T <->
        10 ^ Z.of_nat (Nat.max (length (digits a)) (length (digits b)))
        <= s mod w + T * w)) /\
  (exists r,
     spiral_add a b 0 = Ret (Some r) /\
     address_offset r = vadd (address_offset a) (address_offset b) /\
     forall r',
       is_address r' = true ->
       address_offset r' = vadd (address_offset a) (address_offset b) ->
       r' = r) /\
  (forall x y j, 1 <= x <= 6 -> 1 <= y <= 6 ->
     spiral_add (x * 10 ^ Z.of_nat j) (y * 10 ^ Z.of_nat j) 0 =
     Ret (Some (add_entry x y * 10 ^ Z.of_nat j))).
Proof.
  split; [|split; [|split]].
  - destruct (spiral_add_address a b Ha Hb) as [ds [Hds [Hlen Hr]]].
    exists (val 10 ds). split; [exact Hr|].
    pose proof (val10_bound ds Hds) as Hv. rewrite Hlen in Hv.
    split; [apply is_address_val; exact Hds|]. split; [exact Hv|].
    apply digits_length_bound. exact Hv.
  - intros w Hw.
    apply (spiral_add_top_token a b Ha Hb _ w eq_refl Hw).
  - destruct (spiral_add_point a b Ha Hb) as [r [Hr [Ar Pr]]].
    exists r. split; [exact Hr|].
    rewrite !address_offset_point by assumption.
    rewrite Pr, hex_of_vadd. split; [reflexivity|].
    intros r' Ar' Hr'. rewrite address_offset_point in Hr' by exact Ar'.
    rewrite <- hex_of_vadd, <- Pr in Hr'.
    apply point_inj; [exact Ar'|exact Ar|]. apply hex_of_inj. exact Hr'.
  - intros x y j Hx Hy. apply spiral_add_top; assumption.
Qed.

Lemma spiral_add_top_carry_witness :
  exists s c T,
    spiral_add (1234 mod 1000) (1234 mod 1000) 0 = Ret (Some s) /\
    spiral_add (1234 / 1000) (s / 1000) 0 = Ret (Some c) /\
    spiral_add c (1234 / 1000) 0 = Ret (Some T) /\
    0 <= T <= 66 /\
    0 <= s mod 1000 < 1000 /\
    spiral_add 1234 1234 0 = Ret (Some (s mod 1000 + T * 1000)) /\
    (10 <= T <-> 10 ^ Z.of_nat 4 <= s mod 1000 + T * 1000).
Proof.
  apply (proj1 (proj2 (spiral_add_top_carry 1234 1234 eq_refl eq_refl)) 1000).
  reflexivity.
Defined.

(** C1 as the specification states it fails: the table entry for the top
    digits of 10 and 10 is the two-digit 63, and the sum 630 has three
    digits where the operands have two. *)
Lemma spiral_add_10_10 :
  add_entry 1 1 = 63 /\
  spiral_add 10 10 0 = Ret (Some 630) /\
  ~ top_carry_dropped 10 10.
Proof.
  split; [reflexivity|]. split; [reflexivity|].
  intros H. specialize (H 630 eq_refl). vm_compute in H. lia.
Qed.

End TopCarry.
